(** * A shallow embedding of RSA_implementation.js

    The JavaScript source implements RSA key generation from Blum Blum Shub
    candidates, OAEP encryption, PSS signatures, a hand written SHA-256 and a
    JSON key codec.  This file embeds the functions the specification talks
    about and proves (or refutes) the specification's statements on them.

    Conventions of the embedding:
    - a JavaScript [BigInt] is a [Z]; [/] and [%] on BigInt truncate towards
      zero, hence [Z.quot] and [Z.rem]; a BigInt division by [0n] throws a
      [RangeError];
    - a JavaScript string is the list of its UTF-16 code units ([jsstring]);
    - a [Buffer] is the list of its bytes, each in [0, 256);
    - a function that can throw returns an [outcome]; loops that the source
      bounds by nothing but their own progress take a fuel and answer
      [OutOfFuel] when it is used up;
    - the entropy source ([crypto.randomBytes]) is an oracle that is threaded
      through every function that consults it. *)

From Stdlib Require Import ZArith Znumtheory Lia List Bool.
From Stdlib Require Import Zmod.ZmodInv.
Import ListNotations.
Local Open Scope Z_scope.

(* ================================================================== *)
(** * Part I: the program                                              *)
(* ================================================================== *)

(** ** Exceptions, results and the entropy oracle *)

(** The exceptions the source can raise.  The constructors of the program's
    own [Error]s are named after the place that throws them. *)
Inductive exn : Type :=
| RangeError            (* BigInt division by zero, BigInt(1.5), 2n ** -1n *)
| TypeError             (* Buffer.from(undefined, "hex"), mixing BigInt and string *)
| SyntaxError           (* BigInt("0x") *)
| PrimeGenerationFailed (* generatePrime3Mod4: "Echec : impossible de generer un premier 3 mod 4 ..." *)
| RSAPrimeNotFound      (* findPrimeRSA: "Impossible de trouver un nombre premier RSA ..." *)
| MessageTooLong        (* OAEPEncode: "Message trop long pour OAEP" *)
| MessageTooLarge       (* encryptOAEP, signPSS: "Message trop grand pour RSA" *)
| OAEPErrorY            (* OAEPDecode: "Erreur OAEP : Y != 0x00" *)
| OAEPErrorLHash        (* OAEPDecode: "Erreur OAEP : lHash" *)
| OAEPErrorSeparator    (* OAEPDecode: "Erreur OAEP : separateur 0x01 manquant" *)
| PSSEncodingTooShort   (* emsaPSSencode: "Encoding error: intended encoded message length too short" *)
| PSSEncodedTooShort    (* emsaPSSverify: "Encoded message too short" *)
| PSSInvalidTrailer     (* emsaPSSverify: "Invalid trailer byte" *)
| PSSInvalidDB          (* emsaPSSverify: "Invalid DB format" *)
| PSSNoSeparator        (* emsaPSSverify: "0x01 byte not found in DB" *)
| PSSSaltLength         (* emsaPSSverify: "Salt length incorrect" *)
| PSSHashMismatch       (* emsaPSSverify: "Hash mismatch" *)
| PSSTooLongInVerify    (* verifyPSS: "Encoded message length too long in verification" *)
| PSSLengthIncorrect    (* emsaPSSencode: "EM length incorrect"; signPSS: "Encoded message too long" *)
| NegativeRoot          (* integerRoot: "Negative input not supported" *)
| BadRootExponent       (* integerRoot: "Root exponent must be > 0" *)
| PlainMessageTooLong.  (* encrypt: "Message trop long" *)

Inductive outcome (A : Type) : Type :=
| Ok (a : A)
| Throw (e : exn)
| OutOfFuel.
Arguments Ok {A} a.
Arguments Throw {A} e.
Arguments OutOfFuel {A}.

Definition bindR {A B : Type} (c : outcome A) (k : A -> outcome B) : outcome B :=
  match c with
  | Ok a => k a
  | Throw e => Throw e
  | OutOfFuel => OutOfFuel
  end.

Notation "'let*' x ':=' c 'in' k" := (bindR c (fun x => k))
  (at level 10, x pattern, c at level 100, k at level 200).

(** The entropy oracle: its [n]-th answer is [oracle n]; [calls] counts the
    answers already consumed. *)
Record world : Type := mkWorld { oracle : nat -> Z; calls : nat }.

(** Computations that consult the oracle. *)
Definition M (A : Type) : Type := world -> outcome (A * world).

Definition ret {A : Type} (a : A) : M A := fun w => Ok (a, w).

Definition raise {A : Type} (e : exn) : M A := fun _ => Throw e.

Definition bind {A B : Type} (c : M A) (k : A -> M B) : M B :=
  fun w => match c w with
           | Ok (a, w') => k a w'
           | Throw e => Throw e
           | OutOfFuel => OutOfFuel
           end.

Definition lift {A : Type} (c : outcome A) : M A :=
  fun w => match c with
           | Ok a => Ok (a, w)
           | Throw e => Throw e
           | OutOfFuel => OutOfFuel
           end.

Notation "x <- c ;; k" := (bind c (fun x => k))
  (at level 200, c at level 100, k at level 200, right associativity).

(** JavaScript strings as lists of UTF-16 code units. *)
Definition jsstring : Type := list Z.

(** ** Number to string and back *)

(** The code unit of the digit [d] of a radix up to 16 ("0".."9", "a".."f"). *)
Definition digitChar (d : Z) : Z := if d <? 10 then 48 + d else 87 + d.

Fixpoint digits_loop (fuel : nat) (radix v : Z) (acc : jsstring) : jsstring :=
  match fuel with
  | O => acc
  | S fuel' =>
      if v =? 0 then acc
      else digits_loop fuel' radix (Z.quot v radix) (digitChar (Z.rem v radix) :: acc)
  end.

(** [BigInt.prototype.toString(radix)] for the radices the source uses (2, 10
    and 16): "0" for zero, a leading "-" (code unit 45) for a negative. *)
Definition toStringRadix (radix v : Z) : jsstring :=
  if v =? 0 then [48]
  else if v <? 0
       then 45 :: digits_loop (S (Z.to_nat (Z.log2 (- v)))) radix (- v) []
       else digits_loop (S (Z.to_nat (Z.log2 v))) radix v [].

(** The value of a hexadecimal digit, upper or lower case. *)
Definition hexValue (c : Z) : option Z :=
  if (48 <=? c) && (c <=? 57) then Some (c - 48)
  else if (97 <=? c) && (c <=? 102) then Some (c - 87)
  else if (65 <=? c) && (c <=? 70) then Some (c - 55)
  else None.

Fixpoint parseHex_loop (s : jsstring) (acc : Z) : option Z :=
  match s with
  | [] => Some acc
  | c :: s' =>
      match hexValue c with
      | Some d => parseHex_loop s' (16 * acc + d)
      | None => None
      end
  end.

(** [BigInt("0x" + s)]: a [SyntaxError] when [s] is empty or holds anything
    but hexadecimal digits. *)
Definition BigInt_0x (s : jsstring) : outcome Z :=
  match s with
  | [] => Throw SyntaxError
  | _ => match parseHex_loop s 0 with
         | Some v => Ok v
         | None => Throw SyntaxError
         end
  end.

(** ** Buffers *)

Definition Buffer : Type := list Z.

(** [buf.toString("hex")]: two lower case digits per byte. *)
Definition Buffer_toString_hex (b : Buffer) : jsstring :=
  flat_map (fun x => [digitChar (Z.quot x 16); digitChar (Z.rem x 16)]) b.

(** [Buffer.from(s, "hex")]: decodes pairs of digits, and stops at the first
    pair that is not two hexadecimal digits (a last single digit is dropped). *)
Fixpoint Buffer_from_hex (s : jsstring) : Buffer :=
  match s with
  | c1 :: c2 :: s' =>
      match hexValue c1, hexValue c2 with
      | Some h, Some l => (16 * h + l) :: Buffer_from_hex s'
      | _, _ => []
      end
  | _ => []
  end.

(** [Buffer.alloc(n)], and [Buffer.alloc(n, 0)]: [n] zero bytes. *)
Definition Buffer_alloc (n : Z) : Buffer := repeat 0 (Z.to_nat n).

(** [buf.toString("latin1")]: one code unit per byte. *)
Definition Buffer_toString_latin1 (b : Buffer) : jsstring := b.

(** *** UTF-8 *)

(** The two halves of a surrogate pair. *)
Definition isHighSurrogate (c : Z) : bool := (55296 <=? c) && (c <=? 56319).
Definition isLowSurrogate (c : Z) : bool := (56320 <=? c) && (c <=? 57343).

(** The UTF-8 bytes of one code point. *)
Definition utf8Bytes (cp : Z) : Buffer :=
  if cp <? 128 then [cp]
  else if cp <? 2048 then [192 + cp / 64; 128 + cp mod 64]
  else if cp <? 65536
       then [224 + cp / 4096; 128 + (cp / 64) mod 64; 128 + cp mod 64]
       else [240 + cp / 262144; 128 + (cp / 4096) mod 64;
             128 + (cp / 64) mod 64; 128 + cp mod 64].

(** The bytes of U+FFFD, the replacement character. *)
Definition replacementBytes : Buffer := [239; 191; 189].

(** [Buffer.from(s)] for a string [s], that is [Buffer.from(s, "utf8")]: a
    surrogate pair is one code point of four bytes; a surrogate without its
    partner is written as U+FFFD. *)
Fixpoint Buffer_from_utf8 (s : jsstring) : Buffer :=
  match s with
  | [] => []
  | c :: rest =>
      if isHighSurrogate c then
        match rest with
        | d :: rest' =>
            if isLowSurrogate d
            then utf8Bytes (65536 + (c - 55296) * 1024 + (d - 56320))
                   ++ Buffer_from_utf8 rest'
            else replacementBytes ++ Buffer_from_utf8 rest
        | [] => replacementBytes
        end
      else if isLowSurrogate c then replacementBytes ++ Buffer_from_utf8 rest
      else utf8Bytes c ++ Buffer_from_utf8 rest
  end.

(** The code units of one code point: itself, or a surrogate pair. *)
Definition codeUnits (cp : Z) : jsstring :=
  if cp <? 65536 then [cp]
  else [55296 + (cp - 65536) / 1024; 56320 + (cp - 65536) mod 1024].

(** The UTF-8 decoder behind [buf.toString("utf8")].  Between two bytes it
    holds the code point read so far, the number of continuation bytes it
    still needs, and the bounds of the next byte.  A byte that cannot begin
    or continue a sequence yields U+FFFD (65533); a byte that breaks a
    sequence is read again as the first byte of the next one; a sequence
    that the end of the buffer cuts short yields U+FFFD. *)
Fixpoint utf8Decode (bytes : Buffer) (cp needed lower upper : Z) : jsstring :=
  match bytes with
  | [] => if needed =? 0 then [] else [65533]
  | b :: rest =>
      let first (_ : unit) : jsstring :=
        if b <=? 127 then b :: utf8Decode rest 0 0 128 191
        else if (194 <=? b) && (b <=? 223)
             then utf8Decode rest (b mod 32) 1 128 191
        else if (224 <=? b) && (b <=? 239)
             then utf8Decode rest (b mod 16) 2
                    (if b =? 224 then 160 else 128) (if b =? 237 then 159 else 191)
        else if (240 <=? b) && (b <=? 244)
             then utf8Decode rest (b mod 8) 3
                    (if b =? 240 then 144 else 128) (if b =? 244 then 143 else 191)
        else 65533 :: utf8Decode rest 0 0 128 191 in
      if needed =? 0 then first tt
      else if (b <? lower) || (upper <? b) then 65533 :: first tt
      else
        let cp' := cp * 64 + b mod 64 in
        if needed =? 1 then codeUnits cp' ++ utf8Decode rest 0 0 128 191
        else utf8Decode rest cp' (needed - 1) 128 191
  end.

(** [buf.toString("utf8")], and [buf.toString()]. *)
Definition Buffer_toString_utf8 (b : Buffer) : jsstring := utf8Decode b 0 0 128 191.

(** The idiom that turns a BigInt into its bytes:
    [hex = v.toString(16); if (hex.length % 2) hex = "0" + hex;
     Buffer.from(hex, "hex")]. *)
Definition bigintToBuffer (v : Z) : Buffer :=
  let hex := toStringRadix 16 v in
  let hex := if Nat.odd (length hex) then 48 :: hex else hex in
  Buffer_from_hex hex.

(** The idiom that left-pads such a buffer to [k] bytes:
    [if (EM.length < k) { padded = Buffer.alloc(k); EM.copy(padded, k - EM.length) }]. *)
Definition leftPad (EM : Buffer) (k : Z) : Buffer :=
  if Z.of_nat (length EM) <? k
  then Buffer_alloc (k - Z.of_nat (length EM)) ++ EM
  else EM.

(** [x.toString(2).length], the source's bit length. *)
Definition bitLength (v : Z) : Z := Z.of_nat (length (toStringRadix 2 v)).

(** [Math.ceil(x / 8)] for an integer [x]. *)
Definition ceilDiv8 (x : Z) : Z := (x + 7) / 8.

(** ** RSA's static arithmetic helpers *)

Fixpoint modPow_loop (fuel : nat) (result base exp modulus : Z) : Z :=
  match fuel with
  | O => result
  | S fuel' =>
      if 0 <? exp then
        let result' := if Z.rem exp 2 =? 1 then Z.rem (result * base) modulus else result in
        modPow_loop fuel' result' (Z.rem (base * base) modulus) (Z.quot exp 2) modulus
      else result
  end.

(** The loop of [modPow] once [base % mod] did not throw; the fuel is the
    number of bits of [exp], which the loop consumes one per turn. *)
Definition modPow_nz (base exp modulus : Z) : Z :=
  modPow_loop (S (Z.to_nat (Z.log2 exp))) 1 (Z.rem base modulus) exp modulus.

(** [RSA.modPow] (and its copy [BlumBlumShub.modPow]). *)
Definition modPow (base exp modulus : Z) : outcome Z :=
  if modulus =? 0 then Throw RangeError else Ok (modPow_nz base exp modulus).

Fixpoint gcd_loop (fuel : nat) (a b : Z) : outcome Z :=
  if b =? 0 then Ok a
  else match fuel with
       | O => OutOfFuel
       | S fuel' => gcd_loop fuel' b (Z.rem a b)
       end.

(** [RSA.gcd]. *)
Definition gcd (a b : Z) : outcome Z :=
  gcd_loop (2 * Z.to_nat (Z.log2 (Z.abs a) + Z.log2 (Z.abs b)) + 4) a b.

Fixpoint modInverse_loop (fuel : nat) (a m x0 x1 : Z) : outcome Z :=
  if 1 <? a then
    match fuel with
    | O => OutOfFuel
    | S fuel' =>
        if m =? 0 then Throw RangeError
        else
          let q := Z.quot a m in
          modInverse_loop fuel' m (Z.rem a m) (x1 - q * x0) x0
    end
  else Ok x1.

(** [RSA.modInverse]. *)
Definition modInverse (a m : Z) : outcome Z :=
  if m =? 1 then Ok 0
  else
    let* x1 := modInverse_loop
                 (2 * Z.to_nat (Z.log2 (Z.abs a) + Z.log2 (Z.abs m)) + 4) a m 0 1 in
    Ok (if x1 <? 0 then x1 + m else x1).

Fixpoint pow_loop (fuel : nat) (result base exp : Z) : Z :=
  match fuel with
  | O => result
  | S fuel' =>
      if 0 <? exp then
        pow_loop fuel' (if Z.rem exp 2 =? 1 then result * base else result)
                 (base * base) (Z.shiftr exp 1)
      else result
  end.

(** [RSA.pow]. *)
Definition pow (base exp : Z) : Z :=
  pow_loop (S (Z.to_nat (Z.log2 exp))) 1 base exp.

Fixpoint integerRoot_loop (fuel : nat) (n k low high : Z) : outcome Z :=
  if low <? high then
    match fuel with
    | O => OutOfFuel
    | S fuel' =>
        let mid := Z.shiftr (low + high + 1) 1 in
        if pow mid k <=? n
        then integerRoot_loop fuel' n k mid high
        else integerRoot_loop fuel' n k low (mid - 1)
    end
  else Ok low.

(** [RSA.integerRoot]. *)
Definition integerRoot (n k : Z) : outcome Z :=
  if n <? 0 then Throw NegativeRoot
  else if n =? 0 then Ok 0
  else if k <=? 0 then Throw BadRootExponent
  else integerRoot_loop (S (S (Z.to_nat (Z.log2 n)))) n k 1 n.

(** ** Miller-Rabin

    [MillerRabin.isPrime], [BlumBlumShub.isPrimeMillerRabin] and
    [RSA.isPrimeMillerRabin] are three copies of the same text; all of them
    call [RSA.modPow] with the modulus [n >= 5], which cannot throw. *)

(** [while (d % 2n === 0n) { d /= 2n; r++; }] *)
Fixpoint splitTwos (fuel : nat) (d r : Z) : Z * Z :=
  match fuel with
  | O => (d, r)
  | S fuel' => if Z.rem d 2 =? 0 then splitTwos fuel' (Z.quot d 2) (r + 1) else (d, r)
  end.

Definition bases : list Z := [2; 3; 5; 7; 11; 13; 17; 19; 23].

(** The inner loop [for (let j = 0n; j < r - 1n; j++)]: [true] when a square
    of [x] reaches [n - 1]; [turns] is the number of turns left. *)
Fixpoint squareLoop (turns : nat) (x n : Z) : bool :=
  match turns with
  | O => false
  | S turns' =>
      let x' := modPow_nz x 2 n in
      if x' =? n - 1 then true else squareLoop turns' x' n
  end.

(** One turn of the loop over the bases: [true] for "continue". *)
Definition millerRabinRound (a d r n : Z) : bool :=
  if n - 2 <=? a then true
  else
    let x := modPow_nz a d n in
    if (x =? 1) || (x =? n - 1) then true
    else squareLoop (Z.to_nat (r - 1)) x n.

(** [for (let i = 0; i < k; i++)], counting [i] up from its current value. *)
Fixpoint millerRabinRounds (k : nat) (i : nat) (d r n : Z) : bool :=
  match k with
  | O => true
  | S k' =>
      if millerRabinRound (nth (i mod 9) bases 0) d r n
      then millerRabinRounds k' (S i) d r n
      else false
  end.

Definition isPrimeMillerRabin (n : Z) (k : nat) : bool :=
  if (n =? 2) || (n =? 3) then true
  else if (n <? 2) || (Z.rem n 2 =? 0) then false
  else
    let '(d, r) := splitTwos (S (Z.to_nat (Z.log2 n))) (n - 1) 0 in
    millerRabinRounds k 0 d r n.

(** ** Numbers used as bit widths *)

(** A JavaScript number that serves as a bit width: an integer, or a number
    with a fractional part, of which the integer part below it is kept.
    The widths of the program are integers and quotients of integers. *)
Inductive number : Type :=
| Integer (n : Z)
| Fractional (floor : Z).

Coercion Integer : Z >-> number.

(** [a / b] on two numbers that hold integers, [b] not zero. *)
Definition divide (a b : Z) : number :=
  if Z.rem a b =? 0 then Integer (Z.quot a b) else Fractional (a / b).

(** ** Blum Blum Shub *)

Module BlumBlumShub.

Record t : Type := mk { p : Z; q : Z; m : Z; bits : number; state : Z }.

(** The constructor; [seed % this.m] throws when [p * q] is zero. *)
Definition new (seed p q : Z) (bits : number) : outcome t :=
  let m := p * q in
  if m =? 0 then Throw RangeError
  else
    let state := Z.rem seed m in
    Ok (mk p q m bits (if state =? 0 then 1 else state)).

Definition nextBit (g : t) : outcome (Z * t) :=
  if m g =? 0 then Throw RangeError
  else
    let state := Z.rem (state g * state g) (m g) in
    Ok (Z.land state 1, mk (p g) (q g) (m g) (bits g) state).

(** [for (let i = 0; i < n; i++) result = (result << 1n) | this.nextBit()] *)
Fixpoint drawBits (turns : nat) (result : Z) (g : t) : outcome (Z * t) :=
  match turns with
  | O => Ok (result, g)
  | S turns' =>
      let* (b, g') := nextBit g in
      drawBits turns' (Z.lor (Z.shiftl result 1) b) g'
  end.

(** [nextBits(n)].  For an integer [n] a BigInt shift by a negative amount
    shifts the other way, as [Z.shiftl] does.  For a number with a
    fractional part the loop runs while [i < n], and [BigInt(n - 1)] then
    throws a RangeError. *)
Definition nextBits (g : t) (n : number) : outcome (Z * t) :=
  match n with
  | Integer n =>
      let* (result, g') := drawBits (Z.to_nat n) 0 g in
      let result := Z.lor result (Z.shiftl 1 (n - 1)) in
      let result := Z.lor result 1 in
      let result := result - Z.rem result 4 + 3 in
      Ok (result, g')
  | Fractional floor =>
      let* (_, _) := drawBits (Z.to_nat (floor + 1)) 0 g in
      Throw RangeError
  end.

(** [for (let tries = 0; tries < maxTries; tries++)], counting [tries] up. *)
Fixpoint primeSearch (turns : nat) (tries : Z) (seed : Z) (bits : number) : outcome Z :=
  match turns with
  | O => Throw PrimeGenerationFailed
  | S turns' =>
      let* prng := new (seed + tries) 499 547 bits in
      let* (candidate, _) := nextBits prng bits in
      if isPrimeMillerRabin candidate 16 && (Z.rem candidate 4 =? 3)
      then Ok candidate
      else primeSearch turns' (tries + 1) seed bits
  end.

Definition generatePrime3Mod4 (seed : Z) (bits : number) (maxTries : nat) : outcome Z :=
  primeSearch maxTries 0 seed bits.

Definition generatePrimes3Mod4 (seed : Z) (bits : number) : outcome Z :=
  generatePrime3Mod4 seed bits (Z.to_nat 1000).

End BlumBlumShub.

(** ** The entropy source *)

(** [generateSecureSeedNode(bytes)]: the oracle's next answer, read as the
    big-endian integer of [bytes] random bytes. *)
Definition generateSecureSeedNode (bytes : Z) : M Z :=
  fun w => Ok (oracle w (calls w) mod 256 ^ bytes, mkWorld (oracle w) (S (calls w))).

(** [BigInt("0x" + generateSecureSeedNode(bytes))]: the callers concatenate
    "0x" with a BigInt, that is with its decimal digits, and read the digits
    back as hexadecimal. *)
Definition freshSeed (bytes : Z) : M Z :=
  v <- generateSecureSeedNode bytes ;;
  lift (BigInt_0x (toStringRadix 10 v)).

Module GenerateCryptoRandomNumber.

Record t : Type := mk { prop_bbs_factor : Z; bits : Z; prng : BlumBlumShub.t }.

(** [new GenerateCryptoRandomNumber()] followed by [initPRNG(bits)]. *)
Definition initPRNG (bits : Z) : M t :=
  let prop_bbs_factor := 2 in
  seed <- freshSeed 59 ;;
  p <- lift (BlumBlumShub.generatePrimes3Mod4 seed (divide bits prop_bbs_factor)) ;;
  seed <- freshSeed 47 ;;
  q <- lift (BlumBlumShub.generatePrimes3Mod4 seed (divide bits prop_bbs_factor)) ;;
  seed <- freshSeed 31 ;;
  prng <- lift (BlumBlumShub.new seed p q bits) ;;
  ret (mk prop_bbs_factor bits prng).

Definition nextNumber (rng : t) : outcome (Z * t) :=
  let* (v, prng') := BlumBlumShub.nextBits (prng rng) (bits rng) in
  Ok (v, mk (prop_bbs_factor rng) (bits rng) prng').

End GenerateCryptoRandomNumber.

(** ** Keys *)

Record PublicKey : Type := mkPublicKey { pub_e : Z; pub_n : Z }.

Record PrivateKey : Type := mkPrivateKey {
  p : Z; q : Z; e : Z; d : Z; n : Z; phi : Z; dp : Z; dq : Z; qinv : Z
}.

Definition publicOf (key : PrivateKey) : PublicKey := mkPublicKey (e key) (n key).

(** ** Key generation *)

(** [RSA.initPRNG()] with [this.bits = bits] and [this.prop_bbs_factor = 8]. *)
Definition initPRNG (bits : Z) : M BlumBlumShub.t :=
  let prop_bbs_factor := 8 in
  seed <- freshSeed 59 ;;
  p <- lift (BlumBlumShub.generatePrimes3Mod4 seed (divide bits prop_bbs_factor)) ;;
  seed <- freshSeed 47 ;;
  q <- lift (BlumBlumShub.generatePrimes3Mod4 seed (divide bits prop_bbs_factor)) ;;
  seed <- freshSeed 31 ;;
  lift (BlumBlumShub.new seed p q bits).

(** The loop of [findPrimeRSA]; [this.prng] is passed in and handed back. *)
Fixpoint findPrimeRSA_loop (turns : nat) (format2pAdd1 : bool) (bits : Z)
    (prng : BlumBlumShub.t) : outcome (Z * BlumBlumShub.t) :=
  match turns with
  | O => Throw RSAPrimeNotFound
  | S turns' =>
      let* (candidate, prng') := BlumBlumShub.nextBits prng bits in
      if format2pAdd1 then
        if isPrimeMillerRabin (2 * candidate + 1) 16
        then Ok (2 * candidate + 1, prng')
        else findPrimeRSA_loop turns' format2pAdd1 bits prng'
      else
        if isPrimeMillerRabin candidate 16
        then Ok (candidate, prng')
        else findPrimeRSA_loop turns' format2pAdd1 bits prng'
  end.

Definition findPrimeRSA (format2pAdd1 : bool) (maxTries : nat) (bits : Z)
    (prng : BlumBlumShub.t) : outcome (Z * BlumBlumShub.t) :=
  findPrimeRSA_loop maxTries format2pAdd1 bits prng.

(** The default [maxTries = 10000] of [findPrimeRSA]. *)
Definition maxTriesDefault : nat := Z.to_nat 10000.

(** [2n ** BigInt(x)]: a negative exponent throws. *)
Definition pow2 (x : Z) : outcome Z :=
  if x <? 0 then Throw RangeError else Ok (2 ^ x).

(** The [do { q = this.findPrimeRSA(true) } while (...)] loop of
    [generateKeys]; [bits / 4 | 0] is the truncated quotient. *)
Fixpoint drawQ (fuel : nat) (bits p : Z) (prng : BlumBlumShub.t) : outcome Z :=
  match fuel with
  | O => OutOfFuel
  | S fuel' =>
      let* (q, prng') := findPrimeRSA true maxTriesDefault bits prng in
      if q =? p then drawQ fuel' bits p prng'
      else
        let* bound := pow2 (Z.quot bits 4) in
        if (if q <? p then p - q else q - p) <? bound
        then drawQ fuel' bits p prng'
        else Ok q
  end.

Fixpoint startsWith (s prefix : jsstring) : bool :=
  match prefix, s with
  | [], _ => true
  | c :: prefix', c' :: s' => (c =? c') && startsWith s' prefix'
  | _ :: _, [] => false
  end.

Definition jsstring_eqb (s t : jsstring) : bool :=
  (length s =? length t)%nat && startsWith s t.

(** [for (let len = minLength; len <= str.length / minRepeats; len++)] of
    [hasRepeatingPattern] with [minRepeats = 3]. *)
Fixpoint patternLoop (turns len : nat) (str : jsstring) : bool :=
  match turns with
  | O => false
  | S turns' =>
      if (3 * len <=? length str)%nat then
        let pattern := firstn len str in
        if startsWith (pattern ++ pattern ++ pattern) str then true
        else patternLoop turns' (S len) str
      else false
  end.

Definition hasRepeatingPattern (str : jsstring) : bool :=
  patternLoop (length str) 2 str.

Definition nearestPowerOf2 (x : Z) : Z :=
  let bits := bitLength x in
  let lower := 2 ^ (bits - 1) in
  let upper := 2 ^ bits in
  if x - lower <=? upper - x then lower else upper.

(** [/^0+$/.test(tail)] and [/^1+$/.test(tail)]. *)
Definition allChar (c : Z) (s : jsstring) : bool :=
  negb (Nat.eqb (length s) 0) && forallb (Z.eqb c) s.

(** The eight tests of [generateKeys] on the private exponent; [true] when
    the source reaches [break], [false] when it reaches a [continue]. *)
Definition acceptD (n d : Z) : outcome bool :=
  let* nRoot4 := integerRoot n 4 in
  if d <=? Z.quot nRoot4 3 then Ok false else
  let minD := 2 ^ (bitLength n / 2) in
  if d <=? minD then Ok false else
  let dBin := toStringRadix 2 d in
  let hammingWeight := Z.of_nat (length (filter (Z.eqb 49) dBin)) in
  if 4 * hammingWeight <? Z.of_nat (length dBin) then Ok false else
  let* nRoot10 := integerRoot n 10 in
  let nPow03 := nRoot10 ^ 3 in
  if d <=? nPow03 then Ok false else
  let dDec := toStringRadix 10 d in
  if jsstring_eqb dDec (rev dDec) || jsstring_eqb dBin (rev dBin) then Ok false else
  if hasRepeatingPattern dDec || hasRepeatingPattern dBin then Ok false else
  let nearestPow2 := nearestPowerOf2 d in
  let diff := if nearestPow2 <? d then d - nearestPow2 else nearestPow2 - d in
  if diff <? 2 ^ 16 then Ok false else
  let tail := skipn (length dBin - 16) dBin in
  if allChar 48 tail || allChar 49 tail then Ok false else
  Ok true.

(** The [while (true)] loop of [generateKeys] and what follows it. *)
Fixpoint generateKeys_loop (fuel innerFuel : nat) (bits : Z) : M (PublicKey * PrivateKey) :=
  match fuel with
  | O => fun _ => OutOfFuel
  | S fuel' =>
      let e := 65537 in
      _ <- freshSeed 64 ;;
      prng <- initPRNG bits ;;
      pr <- lift (findPrimeRSA true maxTriesDefault bits prng) ;;
      let p := fst pr in
      _ <- freshSeed 64 ;;
      prng <- initPRNG bits ;;
      q <- lift (drawQ innerFuel bits p prng) ;;
      let n := p * q in
      let phi := (p - 1) * (q - 1) in
      g <- lift (gcd e phi) ;;
      if negb (g =? 1) then generateKeys_loop fuel' innerFuel bits else
      d <- lift (modInverse e phi) ;;
      ok <- lift (acceptD n d) ;;
      if negb ok then generateKeys_loop fuel' innerFuel bits else
      qinv <- lift (modInverse q p) ;;
      ret (mkPublicKey e n,
           mkPrivateKey p q e d n phi (Z.rem d (p - 1)) (Z.rem d (q - 1)) qinv)
  end.

(** [RSA.generateKeys(bits)]; the pair it returns is the pair of objects it
    serialises.  [fuel] bounds the turns of each of its two open loops. *)
Definition generateKeys (fuel : nat) (bits : Z) : M (PublicKey * PrivateKey) :=
  _ <- initPRNG bits ;;
  generateKeys_loop fuel fuel bits.

(** ** SHA-256 *)

Module Hash.

(** JavaScript's 32-bit integer operators on numbers that are integers. *)
Definition toInt32 (x : Z) : Z := (x + 2 ^ 31) mod 2 ^ 32 - 2 ^ 31.
Definition toUint32 (x : Z) : Z := x mod 2 ^ 32.
(** [x << s], [x >>> s], [x >> s]: the shift count is taken modulo 32. *)
Definition shl (x s : Z) : Z := toInt32 (Z.shiftl (toInt32 x) (s mod 32)).
Definition shru (x s : Z) : Z := Z.shiftr (toUint32 x) (s mod 32).
Definition shr (x s : Z) : Z := Z.shiftr (toInt32 x) (s mod 32).
Definition bor (x y : Z) : Z := Z.lor (toInt32 x) (toInt32 y).
Definition band (x y : Z) : Z := Z.land (toInt32 x) (toInt32 y).
Definition bxor (x y : Z) : Z := Z.lxor (toInt32 x) (toInt32 y).
Definition bnot (x : Z) : Z := Z.lnot (toInt32 x).

(** Reading [l[i]]; an index out of range reads [undefined], which the
    integer operators that consume it here turn into [0]. *)
Definition at_ (l : list Z) (i : Z) : Z :=
  if i <? 0 then 0 else nth (Z.to_nat i) l 0.

(** Writing [l[i] = v] for [0 <= i <= l.length]. *)
Definition setAt (l : list Z) (i : Z) (v : Z) : list Z :=
  let n := Z.to_nat i in
  firstn n l ++ repeat 0 (n - length l) ++ [v] ++ skipn (S n) l.

Definition rightRotate (value amount : Z) : Z :=
  bor (shru value amount) (shl value (32 - amount)).

Definition maxWord : Z := 2 ^ 32.

(** [for (i = 0; i < 313; i += candidate) isComposite[i] = candidate] *)
Definition markMultiples (candidate : Z) (isComposite : list bool) : list bool :=
  map (fun '(i, c) => (Z.of_nat i mod candidate =? 0) || c)
      (combine (seq 0 313) isComposite).

(** [for (var candidate = 2; primeCounter < 64; candidate++)]: the primes
    the sieve keeps, in order. *)
Fixpoint sieve (fuel : nat) (candidate : Z) (isComposite : list bool)
    (primes : list Z) : list Z :=
  match fuel with
  | O => primes
  | S fuel' =>
      if (length primes <? 64)%nat then
        if negb (nth (Z.to_nat candidate) isComposite false)
        then sieve fuel' (candidate + 1) (markMultiples candidate isComposite)
                   (primes ++ [candidate])
        else sieve fuel' (candidate + 1) isComposite primes
      else primes
  end.

Definition primes64 : list Z :=
  Eval vm_compute in sieve 400 2 (repeat false 313) [].

(** The two tables.  The source computes them in double precision,
    [(Math.pow(candidate, .5) * maxWord) | 0] and
    [(Math.pow(candidate, 1 / 3) * maxWord) | 0]; the embedding takes the
    integer part of the exact root, which is the value of the floating
    point expression for each of the 64 primes. *)
Definition sqrtWord (candidate : Z) : Z := toInt32 (Z.sqrt (candidate * 2 ^ 64)).

Definition cbrtWord (candidate : Z) : Z :=
  toInt32 (match integerRoot (candidate * 2 ^ 96) 3 with Ok r => r | _ => 0 end).

(** [Hash.sha256.h] and [Hash.sha256.k], 64 entries each. *)
Definition h : list Z := Eval vm_compute in map sqrtWord primes64.
Definition k : list Z := Eval vm_compute in map cbrtWord primes64.

(** [while (ascii.length % 64 - 56) ascii += "\x00"] *)
Fixpoint padLoop (fuel : nat) (ascii : jsstring) : jsstring :=
  match fuel with
  | O => ascii
  | S fuel' =>
      if Z.of_nat (length ascii) mod 64 - 56 =? 0 then ascii
      else padLoop fuel' (ascii ++ [0])
  end.

(** [words[idx] |= v] *)
Definition orAt (words : list Z) (idx v : Z) : list Z :=
  setAt words idx (bor (at_ words idx) v).

(** [for (i = 0; i < ascii.length; i++)]: [None] is the bare [return] of
    the range check. *)
Fixpoint fillWords (chars : jsstring) (i : Z) (words : list Z) : option (list Z) :=
  match chars with
  | [] => Some words
  | j :: chars' =>
      if negb (shr j 8 =? 0) then None
      else fillWords chars' (i + 1)
             (orAt words (Z.shiftr i 2) (shl j (Z.rem (3 - i) 4 * 8)))
  end.

(** One turn of [for (i = 0; i < 64; i++)] on the pair [(w, hash)]. *)
Definition round (i : Z) (st : list Z * list Z) : list Z * list Z :=
  let '(w, hash) := st in
  let w15 := at_ w (i - 15) in
  let w2 := at_ w (i - 2) in
  let a := at_ hash 0 in
  let e := at_ hash 4 in
  let wi :=
    if i <? 16 then at_ w i
    else toInt32 (at_ w (i - 16)
                  + bxor (bxor (rightRotate w15 7) (rightRotate w15 18)) (shru w15 3)
                  + at_ w (i - 7)
                  + bxor (bxor (rightRotate w2 17) (rightRotate w2 19)) (shru w2 10)) in
  let w := setAt w i wi in
  let temp1 :=
    at_ hash 7
    + bxor (bxor (rightRotate e 6) (rightRotate e 11)) (rightRotate e 25)
    + bxor (band e (at_ hash 5)) (band (bnot e) (at_ hash 6))
    + at_ k i
    + wi in
  let temp2 :=
    bxor (bxor (rightRotate a 2) (rightRotate a 13)) (rightRotate a 22)
    + bxor (bxor (band a (at_ hash 1)) (band a (at_ hash 2)))
           (band (at_ hash 1) (at_ hash 2)) in
  let hash := toInt32 (temp1 + temp2) :: hash in
  let hash := setAt hash 4 (toInt32 (at_ hash 4 + temp1)) in
  (w, hash).

(** The body of [for (j = 0; j < words.length;)] on one slice [w]. *)
Definition chunk (w : list Z) (hash : list Z) : list Z :=
  let oldHash := hash in
  let hash := firstn 8 hash in
  let '(_, hash) :=
    fold_left (fun st i => round (Z.of_nat i) st) (seq 0 64) (w, hash) in
  fold_left (fun hash i => setAt hash (Z.of_nat i)
                             (toInt32 (at_ hash (Z.of_nat i) + at_ oldHash (Z.of_nat i))))
            (seq 0 8) hash.

Fixpoint chunks (fuel : nat) (words : list Z) (hash : list Z) : list Z :=
  match fuel with
  | O => hash
  | S fuel' =>
      match words with
      | [] => hash
      | _ => chunks fuel' (skipn 16 words) (chunk (firstn 16 words) hash)
      end
  end.

(** The two digits [((b < 16) ? 0 : "") + b.toString(16)] of one byte. *)
Definition byteHex (b : Z) : jsstring :=
  (if b <? 16 then [48] else []) ++ toStringRadix 16 b.

(** The closing double loop, [i] over the eight words and [j] from 3 down. *)
Definition digest (hash : list Z) : jsstring :=
  flat_map (fun i =>
    flat_map (fun j => byteHex (Z.land (shr (at_ hash i) (j * 8)) 255)) [3; 2; 1; 0])
    [0; 1; 2; 3; 4; 5; 6; 7].

(** [Hash.sha256(ascii)]; [None] is [undefined]. *)
Definition sha256 (ascii : jsstring) : option jsstring :=
  let asciiBitLength := Z.of_nat (length ascii) * 8 in
  let ascii := ascii ++ [128] in
  let ascii := padLoop 64 ascii in
  match fillWords ascii 0 [] with
  | None => None
  | Some words =>
      let words := words ++ [toInt32 (asciiBitLength / maxWord)] in
      let words := words ++ [asciiBitLength] in
      Some (digest (chunks (length words) words h))
  end.

End Hash.

(** ** Padding helpers *)

(** [Buffer.from(hashHex, "hex")] on what [Hash.sha256] returned: a
    [TypeError] on [undefined]. *)
Definition hashToBuffer (hashHex : option jsstring) : outcome Buffer :=
  match hashHex with
  | Some s => Ok (Buffer_from_hex s)
  | None => Throw TypeError
  end.

Fixpoint I2OSP_loop (turns : nat) (value : Z) (result : Buffer) : Buffer :=
  match turns with
  | O => result
  | S turns' => I2OSP_loop turns' (Z.shiftr value 8) (Z.land value 255 :: result)
  end.

(** [RSA.I2OSP]: the buffer is filled from its last byte to its first. *)
Definition I2OSP (value length : Z) : Buffer :=
  I2OSP_loop (Z.to_nat length) value [].

(** [for (let i = 0; i < count; i++)] of [MGF1]: the hashes pushed on [T],
    concatenated. *)
Fixpoint MGF1_loop (turns : nat) (i : Z) (seed : Buffer) : outcome Buffer :=
  match turns with
  | O => Ok []
  | S turns' =>
      let c := I2OSP i 4 in
      let input := seed ++ c in
      let* hash := hashToBuffer (Hash.sha256 (Buffer_toString_hex input)) in
      let* T := MGF1_loop turns' (i + 1) seed in
      Ok (hash ++ T)
  end.

(** [RSA.MGF1]; [Math.ceil(maskLen / hLen)] with [hLen = 32]. *)
Definition MGF1 (seed : Buffer) (maskLen : Z) : outcome Buffer :=
  let count := (maskLen + 31) / 32 in
  let* T := MGF1_loop (Z.to_nat count) 0 seed in
  Ok (firstn (Z.to_nat maskLen) T).

(** [for (let i = 0; i < len; i++) out[i] = a[i] ^ b[i]]; a read past the
    end of a buffer is [undefined], which [^] takes for [0]. *)
Definition xorBytes (len : nat) (a b : Buffer) : Buffer :=
  map (fun i => Z.lxor (nth i a 0) (nth i b 0)) (seq 0 len).

Fixpoint getSeed_loop (fuel : nat) (rng : GenerateCryptoRandomNumber.t)
    (seedBytes : Buffer) (hLen : Z) : outcome Buffer :=
  if Z.of_nat (length seedBytes) <? hLen then
    match fuel with
    | O => OutOfFuel
    | S fuel' =>
        let* (rand, rng') := GenerateCryptoRandomNumber.nextNumber rng in
        getSeed_loop fuel' rng' (seedBytes ++ bigintToBuffer rand) hLen
    end
  else Ok (firstn (Z.to_nat hLen) seedBytes).

(** [RSA.getSeedFromBBS]. *)
Definition getSeedFromBBS (rng : GenerateCryptoRandomNumber.t) (hLen : Z) : outcome Buffer :=
  getSeed_loop (Z.to_nat hLen) rng [] hLen.

(** ** OAEP *)

(** [RSA.OAEPEncode(message, label, k)] for a message that is a Buffer
    [mBuf], of which [Buffer.from(message)] is a copy; a message that is a
    string [s] comes as [Buffer_from_utf8 s].  [label] is the string
    [Hash.sha256] receives (the empty string for the default
    [Buffer.alloc(0)]). *)
Definition OAEPEncode (mBuf : Buffer) (label : jsstring) (k : Z) : M Buffer :=
  let mLen := Z.of_nat (length mBuf) in
  let hLen := 32 in
  let psLen := k - mLen - 2 * hLen - 2 in
  if psLen <? 0 then raise MessageTooLong else
  lHash <- lift (hashToBuffer (Hash.sha256 label)) ;;
  let PS := Buffer_alloc psLen in
  let DB := lHash ++ PS ++ [1] ++ mBuf in
  rng <- GenerateCryptoRandomNumber.initPRNG 64 ;;
  seed <- lift (getSeedFromBBS rng hLen) ;;
  dbMask <- lift (MGF1 seed (k - hLen - 1)) ;;
  let maskedDB := xorBytes (length DB) DB dbMask in
  seedMask <- lift (MGF1 maskedDB hLen) ;;
  let maskedSeed := xorBytes (Z.to_nat hLen) seed seedMask in
  ret ([0] ++ maskedSeed ++ maskedDB).

(** [while (i < DB.length && DB[i] === 0x00) i++], on the bytes from [i] on. *)
Fixpoint skipZeros (rest : Buffer) : Buffer :=
  match rest with
  | 0 :: rest' => skipZeros rest'
  | _ => rest
  end.

(** [RSA.OAEPDecode(encoded, label)]; the answer is
    [DB.subarray(i + 1).toString("utf8")]. *)
Definition OAEPDecode (encoded : Buffer) (label : jsstring) : outcome jsstring :=
  let hLen := 32%nat in
  match encoded with
  | 0 :: _ =>
      let maskedSeed := firstn hLen (skipn 1 encoded) in
      let maskedDB := skipn (1 + hLen) encoded in
      let* seedMask := MGF1 maskedDB (Z.of_nat hLen) in
      let seed := xorBytes hLen maskedSeed seedMask in
      let* dbMask := MGF1 seed (Z.of_nat (length maskedDB)) in
      let DB := xorBytes (length maskedDB) maskedDB dbMask in
      let* lHash := hashToBuffer (Hash.sha256 label) in
      if negb (jsstring_eqb (firstn hLen DB) lHash) then Throw OAEPErrorLHash else
      match skipZeros (skipn hLen DB) with
      | 1 :: message => Ok (Buffer_toString_utf8 message)
      | _ => Throw OAEPErrorSeparator
      end
  | _ => Throw OAEPErrorY
  end.

(** ** PSS *)

(** [for (let i = 0; i < hLen; i++) salt[i] = Number(rngq.nextNumber() & 0xFFn)] *)
Fixpoint drawSalt (turns : nat) (rng : GenerateCryptoRandomNumber.t) : outcome Buffer :=
  match turns with
  | O => Ok []
  | S turns' =>
      let* (v, rng') := GenerateCryptoRandomNumber.nextNumber rng in
      let* salt := drawSalt turns' rng' in
      Ok (Z.land v 255 :: salt)
  end.

(** [buf[0] &= mask]; nothing happens on an empty buffer. *)
Definition maskFirst (buf : Buffer) (mask : Z) : Buffer :=
  match buf with
  | [] => []
  | x :: buf' => Z.land x mask :: buf'
  end.

(** [0xFF >> unusedBits]. *)
Definition topMask (unusedBits : Z) : Z := Z.shiftr 255 (unusedBits mod 32).

(** [emsaPSSencode(mHashHex, emLen, emBits)]. *)
Definition emsaPSSencode (mHashHex : option jsstring) (emLen emBits : Z) : M Buffer :=
  let hLen := 32 in
  if emLen <? hLen + hLen + 2 then raise PSSEncodingTooShort else
  mHash <- lift (hashToBuffer mHashHex) ;;
  rngq <- GenerateCryptoRandomNumber.initPRNG (hLen * 8) ;;
  salt <- lift (drawSalt (Z.to_nat hLen) rngq) ;;
  let M := Buffer_alloc 8 ++ mHash ++ salt in
  H <- lift (hashToBuffer (Hash.sha256 (Buffer_toString_latin1 M))) ;;
  let psLen := emLen - hLen - hLen - 2 in
  if psLen <? 0 then raise PSSEncodingTooShort else
  let PS := Buffer_alloc psLen in
  let DB := PS ++ [1] ++ salt in
  dbMask <- lift (MGF1 H (Z.of_nat (length DB))) ;;
  let maskedDB := xorBytes (length DB) DB dbMask in
  let unusedBits := 8 * emLen - emBits in
  let maskedDB := if 0 <? unusedBits then maskFirst maskedDB (topMask unusedBits)
                  else maskedDB in
  let EM := maskedDB ++ H ++ [188] in
  if negb (Z.of_nat (length EM) =? emLen) then raise PSSLengthIncorrect else
  ret EM.

(** The search for the byte 0x01 in [emsaPSSverify]: its index. *)
Fixpoint findSeparator (DB : Buffer) (i : nat) : outcome nat :=
  match DB with
  | [] => Throw PSSNoSeparator
  | x :: DB' =>
      if x =? 1 then Ok i
      else if negb (x =? 0) then Throw PSSInvalidDB
      else findSeparator DB' (S i)
  end.

(** [emsaPSSverify(mHashHex, EM, emBits)]. *)
Definition emsaPSSverify (mHashHex : option jsstring) (EM : Buffer) (emBits : Z) : outcome bool :=
  let hLen := 32%nat in
  let emLen := length EM in
  if (emLen <? hLen + 2)%nat then Throw PSSEncodedTooShort else
  if negb (nth (emLen - 1) EM 0 =? 188) then Throw PSSInvalidTrailer else
  let* mHash := hashToBuffer mHashHex in
  let maskedDB := firstn (emLen - hLen - 1) EM in
  let H := firstn hLen (skipn (emLen - hLen - 1) EM) in
  let* dbMask := MGF1 H (Z.of_nat (length maskedDB)) in
  let DB := xorBytes (length maskedDB) maskedDB dbMask in
  let unusedBits := 8 * Z.of_nat emLen - emBits in
  let DB := if 0 <? unusedBits then maskFirst DB (topMask unusedBits) else DB in
  let* idx := findSeparator DB 0 in
  let salt := skipn (idx + 1) DB in
  if negb (length salt =? hLen)%nat then Throw PSSSaltLength else
  let M_ := Buffer_alloc 8 ++ mHash ++ salt in
  let* Hprime := hashToBuffer (Hash.sha256 (Buffer_toString_latin1 M_)) in
  if negb (jsstring_eqb H Hprime) then Throw PSSHashMismatch else
  Ok true.

(** [signPSS(message, privateKey)] on the decoded key. *)
Definition signPSS (message : jsstring) (privateKey : PrivateKey) : M Z :=
  let emBits := bitLength (n privateKey) - 1 in
  let emLen := ceilDiv8 emBits in
  let mHashHex := Hash.sha256 message in
  EM <- emsaPSSencode mHashHex emLen emBits ;;
  EM <- (if negb (Z.of_nat (length EM) =? emLen) then
           if Z.of_nat (length EM) <? emLen
           then ret (Buffer_alloc (emLen - Z.of_nat (length EM)) ++ EM)
           else raise PSSLengthIncorrect
         else ret EM) ;;
  m <- lift (BigInt_0x (Buffer_toString_hex EM)) ;;
  if n privateKey <=? m then raise MessageTooLarge else
  lift (modPow m (d privateKey) (n privateKey)).

(** [verifyPSS(signature, publicKey, message)] on the decoded key; the
    [try]/[catch] turns every exception of [emsaPSSverify] into [false]. *)
Definition verifyPSS (signature : Z) (publicKey : PublicKey) (message : jsstring) : outcome bool :=
  let emBits := bitLength (pub_n publicKey) - 1 in
  let k := ceilDiv8 emBits in
  let* m := modPow signature (pub_e publicKey) (pub_n publicKey) in
  let mBuf := bigintToBuffer m in
  if k <? Z.of_nat (length mBuf) then Throw PSSTooLongInVerify else
  let EMbuf := Buffer_alloc (k - Z.of_nat (length mBuf)) ++ mBuf in
  let mHashHex := Hash.sha256 message in
  match emsaPSSverify mHashHex EMbuf emBits with
  | Ok result => Ok result
  | Throw _ => Ok false
  | OutOfFuel => OutOfFuel
  end.

(** ** Encryption and the four private operations *)

(** [encryptOAEP(message, publicKey)] on the decoded key; the message is a
    string. *)
Definition encryptOAEP (message : jsstring) (publicKey : PublicKey) : M Z :=
  let n := pub_n publicKey in
  let e := pub_e publicKey in
  let k := ceilDiv8 (bitLength n) in
  EM <- OAEPEncode (Buffer_from_utf8 message) [] k ;;
  m <- lift (BigInt_0x (Buffer_toString_hex EM)) ;;
  if n <=? m then raise MessageTooLarge else
  lift (modPow m e n).

(** The tail shared by the four [decryptOAEP...] methods: the integer to
    bytes, left padded to [k], then decoded. *)
Definition decodeInteger (m : Z) (privateKey : PrivateKey) : outcome jsstring :=
  let EM := bigintToBuffer m in
  let k := ceilDiv8 (bitLength (n privateKey)) in
  OAEPDecode (leftPad EM k) [].

Definition decryptOAEP (cipherBigInt : Z) (privateKey : PrivateKey) : outcome jsstring :=
  let* m := modPow cipherBigInt (d privateKey) (n privateKey) in
  decodeInteger m privateKey.

(** The private operation of [decryptBlinding] and [decryptOAEPBlinding]:
    [r = rng.nextNumber() & 0xFFFFn], then [modPow(c, d + r * phi, n)]. *)
Definition blindedPower (cipherBigInt : Z) (privateKey : PrivateKey) : M Z :=
  rng <- GenerateCryptoRandomNumber.initPRNG 64 ;;
  x <- lift (GenerateCryptoRandomNumber.nextNumber rng) ;;
  let r := Z.land (fst x) 65535 in
  lift (modPow cipherBigInt (d privateKey + r * phi privateKey) (n privateKey)).

Definition decryptOAEPBlinding (cipherBigInt : Z) (privateKey : PrivateKey) : M jsstring :=
  mBigInt <- blindedPower cipherBigInt privateKey ;;
  lift (decodeInteger mBigInt privateKey).

(** The recombination shared by the CRT variants. *)
Definition crtCombine (mp mq : Z) (privateKey : PrivateKey) : Z :=
  let h := Z.rem ((mp - mq) * qinv privateKey) (p privateKey) in
  let h := if h <? 0 then h + p privateKey else h in
  mq + h * q privateKey.

Definition decryptOAEPCRT (cipherBigInt : Z) (privateKey : PrivateKey) : outcome jsstring :=
  let* mp := modPow cipherBigInt (dp privateKey) (p privateKey) in
  let* mq := modPow cipherBigInt (dq privateKey) (q privateKey) in
  decodeInteger (crtCombine mp mq privateKey) privateKey.

(** [let rp = rngp.nextNumber(); if (rp === 0n) rp = 1n] of
    [decryptOAEPBlindingCRT], which does not mask the draw. *)
Definition blindingFactor : M Z :=
  rng <- GenerateCryptoRandomNumber.initPRNG 64 ;;
  x <- lift (GenerateCryptoRandomNumber.nextNumber rng) ;;
  ret (if fst x =? 0 then 1 else fst x).

Definition decryptOAEPBlindingCRT (cipherBigInt : Z) (privateKey : PrivateKey) : M jsstring :=
  rp <- blindingFactor ;;
  rq <- blindingFactor ;;
  let dp_ := dp privateKey + rp * (p privateKey - 1) in
  let dq_ := dq privateKey + rq * (q privateKey - 1) in
  mp <- lift (modPow cipherBigInt dp_ (p privateKey)) ;;
  mq <- lift (modPow cipherBigInt dq_ (q privateKey)) ;;
  lift (decodeInteger (crtCombine mp mq privateKey) privateKey).

(** The integer computed by [decrypt], and by [decryptBlinding], before it is
    turned into text. *)
Definition decrypt (cipherBigInt : Z) (privateKey : PrivateKey) : outcome Z :=
  modPow cipherBigInt (d privateKey) (n privateKey).

Definition decryptBlinding (cipherBigInt : Z) (privateKey : PrivateKey) : M Z :=
  blindedPower cipherBigInt privateKey.

(** [RSA.encrypt(message, publicKey)] on the decoded key and the bytes
    [Buffer.from(message)]. *)
Definition encrypt (mBuf : Buffer) (publicKey : PublicKey) : outcome Z :=
  let* mBigInt := BigInt_0x (Buffer_toString_hex mBuf) in
  if pub_n publicKey <=? mBigInt then Throw PlainMessageTooLong
  else modPow mBigInt (pub_e publicKey) (pub_n publicKey).

(** The integer computed by [decryptCRT]. *)
Definition decryptCRT (cipherBigInt : Z) (privateKey : PrivateKey) : outcome Z :=
  let* mp := modPow cipherBigInt (dp privateKey) (p privateKey) in
  let* mq := modPow cipherBigInt (dq privateKey) (q privateKey) in
  Ok (crtCombine mp mq privateKey).

(** [let rp = rngp.nextNumber() & 0xFFFFn; if (rp === 0n) rp = 1n] of
    [decryptBlindingCRT]. *)
Definition blindingFactor16 : M Z :=
  rng <- GenerateCryptoRandomNumber.initPRNG 64 ;;
  x <- lift (GenerateCryptoRandomNumber.nextNumber rng) ;;
  let r := Z.land (fst x) 65535 in
  ret (if r =? 0 then 1 else r).

(** The integer computed by [decryptBlindingCRT]. *)
Definition decryptBlindingCRT (cipherBigInt : Z) (privateKey : PrivateKey) : M Z :=
  rp <- blindingFactor16 ;;
  rq <- blindingFactor16 ;;
  let dp_ := dp privateKey + rp * (p privateKey - 1) in
  let dq_ := dq privateKey + rq * (q privateKey - 1) in
  mp <- lift (modPow cipherBigInt dp_ (p privateKey)) ;;
  mq <- lift (modPow cipherBigInt dq_ (q privateKey)) ;;
  ret (crtCombine mp mq privateKey).

(** The bytes the four [decrypt...] methods hand to [toString("utf8")]:
    [hex = mBigInt.toString(16)], padded to an even length, read back by
    [Buffer.from(hex, "hex")]. *)
Definition decryptedBytes (mBigInt : Z) : Buffer := bigintToBuffer mBigInt.

(** ** The key codec *)

(** JavaScript values as far as the codec meets them: what [JSON.parse]
    builds, and BigInts. *)
#[warnings="-register-all"]
Inductive jsval : Type :=
| JNull
| JBool (b : bool)
| JNumber (x : Z)
| JString (s : jsstring)
| JBigInt (v : Z)
| JArray (l : list jsval)
| JObject (l : list (jsstring * jsval)).

(** The walk of [JSON.parse(text, reviver)] over the parsed document: the
    reviver is applied to the members first and to the value that holds them
    afterwards.  The revivers of the source do not look at the key. *)
Fixpoint revive (reviver : jsval -> jsval) (v : jsval) : jsval :=
  reviver
    match v with
    | JArray l => JArray (map (revive reviver) l)
    | JObject l => JObject (map (fun kv => (fst kv, revive reviver (snd kv))) l)
    | _ => v
    end.

Definition isDigit (c : Z) : bool := (48 <=? c) && (c <=? 57).

(** [/^\d+$/.test(s)] *)
Definition matchesDigits (s : jsstring) : bool :=
  negb (Nat.eqb (length s) 0) && forallb isDigit s.

(** [/^\d+n$/.test(s)] *)
Definition matchesDigitsN (s : jsstring) : bool :=
  match rev s with
  | 110 :: _ => matchesDigits (removelast s)
  | _ => false
  end.

(** [BigInt(s)] on a string of decimal digits. *)
Definition BigInt_dec (s : jsstring) : Z :=
  fold_left (fun acc c => 10 * acc + (c - 48)) s 0.

(** The reviver of [decodeKeyBase64]. *)
Definition reviverTagged (value : jsval) : jsval :=
  match value with
  | JString s => if matchesDigitsN s then JBigInt (BigInt_dec (removelast s)) else value
  | _ => value
  end.

(** The reviver of [parseWithBigInt]. *)
Definition reviverBoth (value : jsval) : jsval :=
  match value with
  | JString s =>
      if matchesDigitsN s then JBigInt (BigInt_dec (removelast s))
      else if matchesDigits s then JBigInt (BigInt_dec s)
      else value
  | _ => value
  end.

(** [RSA.decodeKeyBase64] on the document that the base64 text holds. *)
Definition decodeKeyBase64 (document : jsval) : jsval := revive reviverTagged document.

(** [RSA.parseWithBigInt] on the document that the JSON text holds. *)
Definition parseWithBigInt (document : jsval) : jsval := revive reviverBoth document.

(** [RSA.stringifyWithBigInt]: the document that the JSON text holds. *)
Fixpoint stringifyWithBigInt (obj : jsval) : jsval :=
  match obj with
  | JBigInt v => JString (toStringRadix 10 v ++ [110])
  | JArray l => JArray (map stringifyWithBigInt l)
  | JObject l => JObject (map (fun kv => (fst kv, stringifyWithBigInt (snd kv))) l)
  | _ => obj
  end.

(** The same document with every BigInt as its bare decimal digits. *)
Fixpoint stringifyPlain (obj : jsval) : jsval :=
  match obj with
  | JBigInt v => JString (toStringRadix 10 v)
  | JArray l => JArray (map stringifyPlain l)
  | JObject l => JObject (map (fun kv => (fst kv, stringifyPlain (snd kv))) l)
  | _ => obj
  end.

(** An object whose properties all hold BigInts. *)
Definition bigintObject (fields : list (jsstring * Z)) : jsval :=
  JObject (map (fun kv => (fst kv, JBigInt (snd kv))) fields).

(** The objects [generateKeys] serialises; the property names are "e", "n",
    "p", "q", "d", "phi", "dp", "dq" and "qinv". *)
Definition publicKeyObject (k : PublicKey) : jsval :=
  bigintObject [([101], pub_e k); ([110], pub_n k)].

Definition privateKeyObject (k : PrivateKey) : jsval :=
  bigintObject [([112], p k); ([113], q k); ([101], e k); ([100], d k); ([110], n k);
                ([112; 104; 105], phi k); ([100; 112], dp k); ([100; 113], dq k);
                ([113; 105; 110; 118], qinv k)].

(** ** Number formats *)

(** [RSA.formatBigInt(value, "hex")]: ["0x" + value.toString(16)]. *)
Definition formatBigInt_hex (value : Z) : jsstring := [48; 120] ++ toStringRadix 16 value.

(** [RSA.parse(str, "hex")]: a leading "0x" or "0X" is removed and put back
    before [BigInt] reads the digits. *)
Definition parse_hex (str : jsstring) : outcome Z :=
  let str := if startsWith str [48; 120] || startsWith str [48; 88] then skipn 2 str else str in
  BigInt_0x str.

(* ================================================================== *)
(** * Part II: the vocabulary of the properties                        *)
(* ================================================================== *)

(** The digit a code unit written by [digitChar] stands for. *)
Definition undigit (c : Z) : Z := if c <? 58 then c - 48 else c - 87.

(** The number a string of digits denotes in a radix. *)
Definition valueOf (radix : Z) (s : jsstring) : Z :=
  fold_left (fun acc c => radix * acc + undigit c) s 0.

(** [c] is the code unit of a digit below [radix]. *)
Definition isDigitOf (radix c : Z) : Prop :=
  exists d, 0 <= d < radix /\ c = digitChar d.

(** A lower case hexadecimal digit, as a boolean test. *)
Definition isHexDigit (c : Z) : bool :=
  ((48 <=? c) && (c <=? 57)) || ((97 <=? c) && (c <=? 102)).

Definition isByte (x : Z) : Prop := 0 <= x < 256.

(** A UTF-16 code unit. *)
Definition isCodeUnit (c : Z) : Prop := 0 <= c < 65536.

(** [String.prototype.isWellFormed]: every surrogate has its partner. *)
Fixpoint isWellFormed (s : jsstring) : bool :=
  match s with
  | [] => true
  | c :: rest =>
      if isHighSurrogate c then
        match rest with
        | d :: rest' => isLowSurrogate d && isWellFormed rest'
        | [] => false
        end
      else negb (isLowSurrogate c) && isWellFormed rest
  end.

(** The big-endian value of a buffer. *)
Definition bytesValue (b : Buffer) : Z := fold_left (fun acc x => 256 * acc + x) b 0.

(** What the loop of [modInverse a0 m0] keeps true of [(a, m, x0, x1)]. *)
Definition euclid_inv (a0 m0 a m x0 x1 : Z) : Prop :=
  0 < a /\ 0 <= m /\
  (x1 * a0) mod m0 = a mod m0 /\
  (x0 * a0) mod m0 = m mod m0 /\
  a * Z.abs x0 + m * Z.abs x1 = m0 /\
  x0 * x1 <= 0 /\
  Z.abs x1 < m0.

(** What [findPrimeRSA(true)] promises of its answer: it passed sixteen
    rounds of Miller-Rabin and it is [2c + 1] for a draw [c] of [nextBits],
    which is congruent to 3 modulo 4.  Nothing is promised of [c] itself. *)
Definition probablePrime2c1 (v : Z) : Prop :=
  isPrimeMillerRabin v 16 = true /\ exists c, v = 2 * c + 1 /\ c mod 4 = 3.

(** The invariants of a private key and its public half. *)
Definition keyInvariants (pub : PublicKey) (priv : PrivateKey) : Prop :=
  pub = publicOf priv /\
  e priv = 65537 /\
  n priv = p priv * q priv /\
  phi priv = (p priv - 1) * (q priv - 1) /\
  (e priv * d priv) mod phi priv = 1 /\
  0 < d priv < phi priv /\
  dp priv = d priv mod (p priv - 1) /\
  dq priv = d priv mod (q priv - 1) /\
  (q priv * qinv priv) mod p priv = 1 /\
  0 < qinv priv < p priv.

(** A key whose two factors are odd primes and different, and which keeps
    the invariants [generateKeys] establishes. *)
Definition validKey (key : PrivateKey) : Prop :=
  Z.prime (p key) /\ Z.prime (q key) /\ 2 < p key /\ 2 < q key /\ p key <> q key /\
  keyInvariants (publicOf key) key.

(** ** A concrete key for the examples

    The primes are certified by a chain: the first by trial division, each
    next one [N = q * R + 1] from its predecessor [q] by Pocklington's
    criterion.  The two factors are safe primes [2 * c + 1] with
    [c mod 4 = 3], the shape [findPrimeRSA] looks for. *)

(** Trial division by [d, d + 1, ...] up to the square root. *)
Fixpoint trialDivision (fuel : nat) (d n : Z) : bool :=
  match fuel with
  | O => false
  | S fuel' =>
      if n <? d * d then true
      else if n mod d =? 0 then false
      else trialDivision fuel' (d + 1) n
  end.

(** Pocklington's test of [N = q * R + 1] with the base [a], run with the
    program's own [modPow_nz]. *)
Definition pocklington (N q R a : Z) : bool :=
  (0 <? R) && (N =? q * R + 1) && (N <? (q + 1) * (q + 1)) && (1 <? a) &&
  (modPow_nz a (N - 1) N =? 1) && (Z.gcd (modPow_nz a R N - 1) N =? 1).

Definition chain0 : Z := 262151.
Definition chain1 : Z := 58446565451.
Definition chain2 : Z := 1085761059575562898639.
Definition chain3 : Z := 179487002156536678326069656009921832135817.
Definition halfP : Z :=
  10278528762906782353634930151242605909993176168680029343262077201930642219536065911.
Definition halfQ : Z :=
  10609239354025593220361217564829640053324287199987708154740930218917020157440925951.

Definition exampleKey : PrivateKey :=
  mkPrivateKey
    (2 * halfP + 1)
    (2 * halfQ + 1)
    65537
    240101557263463101996409683394666705636855366501955157342437026718749791526562799998485549974341779915629532201052482108115416401581875901813250678812158410296431373
    436189487411658525725258528638566095282677481758520724788670697714946779966080283437499652343869941177946908096326793241106445648228653124270325575924359424379409169
    436189487411658525725258528638566095282677481758520724788670697714946779966080283395724116110005190029954612664182301314471518910893178128264310734229034670425425444
    3350633817396897908098580157028045724721824552049684100423440458703423110276157165
    13484419788998945085518847379574581643374070756741628604812701304230433878183533727
    13380564859384115336842721364202808219990659741769712547375488492397482457783875187.

(** ** Concrete runs for the examples *)

(** An entropy source under which [generateKeys] with 16-bit candidates
    returns at once. *)
Definition oracle16 (i : nat) : Z := match i with 10%nat => 3 | _ => 0 end.
Definition world16 : world := mkWorld oracle16 0.
Definition key16 : PrivateKey :=
  mkPrivateKey 131071 65543 65537 3006713033 8590786553 8590589940 98303 39325 113595.

(** An entropy source under which three 64-bit generators start, each
    finding its two Blum primes at the first candidate. *)
Definition oracle64 (i : nat) : Z :=
  match i with
  | 0%nat => 1003 | 1%nat => 1009 | 2%nat => 7777
  | 3%nat => 1011 | 4%nat => 1031 | 5%nat => 8888
  | 6%nat => 1038 | 7%nat => 1042 | _ => 9999
  end.
Definition world64 (calls : nat) : world := mkWorld oracle64 calls.
Definition rng64a : GenerateCryptoRandomNumber.t :=
  GenerateCryptoRandomNumber.mk 2 64
    (BlumBlumShub.mk 3966362663 3377424251
       13396089446277140413 64 30583).
Definition rng64b : GenerateCryptoRandomNumber.t :=
  GenerateCryptoRandomNumber.mk 2 64
    (BlumBlumShub.mk 3559062179 4199048131
       14944673390842737449 64 34952).
Definition rng64c : GenerateCryptoRandomNumber.t :=
  GenerateCryptoRandomNumber.mk 2 64
    (BlumBlumShub.mk 4090676923 2783102471
       11384773052463976733 64 39321).

(** The same for the 256-bit generator of the PSS salt. *)
Definition oracle256 (i : nat) : Z :=
  match i with 0%nat => 1051 | 1%nat => 1068 | _ => 5555 end.
Definition world256 (calls : nat) : world := mkWorld oracle256 calls.
Definition rng256 : GenerateCryptoRandomNumber.t :=
  GenerateCryptoRandomNumber.mk 2 256
    (BlumBlumShub.mk 208457025845797252698401565412009252139 223577983617902213003346907532002978819
       46606401509588276371463934900424379852671289785727613856090385246936447443841 256 21845).

(** A generator state for the examples of [nextBits]. *)
Definition bbs8 : BlumBlumShub.t := BlumBlumShub.mk 499 547 272953 8 5.

(* ================================================================== *)
(** * Part III: the properties                                         *)
(* ================================================================== *)

(** ** Truncating division on non-negative numbers *)

Lemma rem_nonneg (a b : Z) : 0 <= a -> 0 < b -> Z.rem a b = a mod b.
Proof. intros. apply Z.rem_mod_nonneg; lia. Qed.

Lemma quot_nonneg (a b : Z) : 0 <= a -> 0 < b -> Z.quot a b = a / b.
Proof. intros. apply Z.quot_div_nonneg; lia. Qed.

Lemma rem_range (a b : Z) : 0 <= a -> 0 < b -> 0 <= Z.rem a b < b.
Proof. intros. rewrite rem_nonneg by lia. apply Z.mod_pos_bound. lia. Qed.

(** ** [modPow] computes the modular power *)

Lemma mul_pow_mod (a b c m : Z) :
  0 < m -> (a * (b mod m) ^ c) mod m = (a * b ^ c) mod m.
Proof.
  intros Hm.
  rewrite <- (Z.mul_mod_idemp_r a ((b mod m) ^ c)) by lia.
  rewrite Z.mod_pow_l.
  rewrite Z.mul_mod_idemp_r by lia. reflexivity.
Qed.

Lemma modPow_loop_spec (fuel : nat) :
  forall result base exp m,
    0 < m -> 0 <= result -> 0 <= base -> 0 < exp < 2 ^ Z.of_nat fuel ->
    modPow_loop fuel result base exp m = (result * base ^ exp) mod m.
Proof.
  induction fuel as [|fuel IH]; intros result base exp m Hm Hr Hb He.
  - simpl in He. lia.
  - cbn [modPow_loop].
    destruct (Z.ltb_spec 0 exp) as [_|]; [|lia].
    rewrite (rem_nonneg exp 2), (quot_nonneg exp 2) by lia.
    rewrite (rem_nonneg (base * base) m) by nia.
    assert (Hsplit : exp = 2 * (exp / 2) + exp mod 2) by (apply Z.div_mod; lia).
    assert (Hbit : exp mod 2 = 0 \/ exp mod 2 = 1)
      by (pose proof (Z.mod_pos_bound exp 2); lia).
    assert (Hsq : (base * base) ^ (exp / 2) = base ^ (2 * (exp / 2))).
    { rewrite Z.pow_mul_r by (try apply Z.div_pos; lia). f_equal. lia. }
    assert (Hodd : base * base ^ (2 * (exp / 2)) = base ^ (2 * (exp / 2) + 1)).
    { rewrite Z.pow_add_r by (try apply Z.mul_nonneg_nonneg; try apply Z.div_pos; lia).
      rewrite Z.pow_1_r. ring. }
    destruct (Z.eq_dec (exp / 2) 0) as [Hz|Hnz].
    + (* the last turn: exp = 1 *)
      assert (exp = 1) by lia. subst exp.
      change (1 mod 2 =? 1) with true. cbn match. rewrite Hz.
      destruct fuel; cbn [modPow_loop]; rewrite ?Z.ltb_irrefl;
        rewrite rem_nonneg by nia; f_equal; lia.
    + assert (0 < exp / 2) by (pose proof (Z.div_pos exp 2); lia).
      assert (exp / 2 < 2 ^ Z.of_nat fuel).
      { apply Z.div_lt_upper_bound; [lia|].
        rewrite Nat2Z.inj_succ, Z.pow_succ_r in He by lia. lia. }
      destruct Hbit as [Hb0|Hb1].
      * rewrite Hb0. change (0 =? 1) with false. cbn match.
        rewrite IH by (try apply Z.mod_pos_bound; lia).
        rewrite mul_pow_mod, Hsq by lia.
        do 2 f_equal. f_equal. lia.
      * rewrite Hb1. change (1 =? 1) with true. cbn match.
        rewrite rem_nonneg by nia.
        rewrite IH by (try apply Z.mod_pos_bound; lia).
        rewrite mul_pow_mod, Hsq by lia.
        rewrite Z.mul_mod_idemp_l by lia.
        rewrite <- Z.mul_assoc, Hodd. do 2 f_equal. f_equal. lia.
Qed.

Lemma modPow_nz_spec (base exp m : Z) :
  0 <= base -> 0 < m -> 0 < exp -> modPow_nz base exp m = base ^ exp mod m.
Proof.
  intros Hb Hm He. unfold modPow_nz.
  rewrite modPow_loop_spec.
  - rewrite rem_nonneg by lia. rewrite Z.mul_1_l. apply Z.mod_pow_l.
  - lia.
  - lia.
  - apply rem_range; lia.
  - split; [lia|].
    rewrite Nat2Z.inj_succ, Z2Nat.id by apply Z.log2_nonneg.
    apply Z.log2_spec. lia.
Qed.

Lemma modPow_nz_nonpos (base exp m : Z) : exp <= 0 -> modPow_nz base exp m = 1.
Proof.
  intros He. unfold modPow_nz. cbn [modPow_loop].
  destruct (Z.ltb_spec 0 exp); [lia|reflexivity].
Qed.

Lemma modPow_nz_range (base exp m : Z) :
  0 <= base -> 1 < m -> 0 <= modPow_nz base exp m < m.
Proof.
  intros Hb Hm. destruct (Z.le_gt_cases exp 0).
  - rewrite modPow_nz_nonpos by lia. lia.
  - rewrite modPow_nz_spec by lia. apply Z.mod_pos_bound. lia.
Qed.

(** ** Bits *)

Lemma land_1_mod (x : Z) : Z.land x 1 = x mod 2.
Proof. exact (Z.land_ones x 1 ltac:(discriminate)). Qed.

Lemma land_1_bit (x : Z) : Z.land x 1 = 0 \/ Z.land x 1 = 1.
Proof. rewrite land_1_mod. pose proof (Z.mod_pos_bound x 2). lia. Qed.

Lemma lor_double_bit (a b : Z) : b = 0 \/ b = 1 -> Z.lor (Z.shiftl a 1) b = 2 * a + b.
Proof.
  intros Hb. rewrite Z.shiftl_mul_pow2 by lia. change (2 ^ 1) with 2.
  pose proof (Z.add_lor_land (a * 2) b) as H.
  assert (Z.land (a * 2) b = 0).
  { destruct Hb; subst b; [apply Z.land_0_r|].
    rewrite land_1_mod. apply Z_mod_mult. }
  lia.
Qed.

Lemma lor_pow2_bounds (x n : Z) :
  0 <= n -> 0 <= x < 2 ^ (n + 1) -> 2 ^ n <= Z.lor x (2 ^ n) < 2 ^ (n + 1).
Proof.
  intros Hn Hx.
  assert (Hpos : 0 < 2 ^ n) by (apply Z.pow_pos_nonneg; lia).
  assert (Hnn : 0 <= Z.lor x (2 ^ n)) by (apply Z.lor_nonneg; lia).
  assert (Hlog : Z.log2 (Z.lor x (2 ^ n)) = n).
  { rewrite Z.log2_lor by lia. rewrite Z.log2_pow2 by lia.
    destruct (Z.eq_dec x 0) as [->|Hx0]; [simpl; lia|].
    assert (Z.log2 x < n + 1) by (apply Z.log2_lt_pow2; lia). lia. }
  assert (Hne : 0 < Z.lor x (2 ^ n)).
  { destruct (Z.eq_dec (Z.lor x (2 ^ n)) 0) as [E|]; [|lia].
    apply Z.lor_eq_0_iff in E. lia. }
  pose proof (Z.log2_spec _ Hne) as Hs. rewrite Hlog in Hs.
  replace (Z.succ n) with (n + 1) in Hs by lia. lia.
Qed.

(** ** The shape of [nextBits] *)

Lemma nextBit_ok (g : BlumBlumShub.t) :
  BlumBlumShub.m g <> 0 ->
  exists b g', BlumBlumShub.nextBit g = Ok (b, g') /\ (b = 0 \/ b = 1) /\
               BlumBlumShub.m g' = BlumBlumShub.m g.
Proof.
  intros Hm. unfold BlumBlumShub.nextBit.
  destruct (Z.eqb_spec (BlumBlumShub.m g) 0); [contradiction|].
  eexists _, _. split; [reflexivity|]. split; [apply land_1_bit|reflexivity].
Qed.

Lemma drawBits_ok (turns : nat) :
  forall acc g,
    BlumBlumShub.m g <> 0 -> 0 <= acc ->
    exists r g', BlumBlumShub.drawBits turns acc g = Ok (r, g') /\
                 BlumBlumShub.m g' = BlumBlumShub.m g /\
                 acc * 2 ^ Z.of_nat turns <= r < (acc + 1) * 2 ^ Z.of_nat turns.
Proof.
  induction turns as [|turns IH]; intros acc g Hm Hacc.
  - exists acc, g. cbn. repeat split; lia.
  - cbn [BlumBlumShub.drawBits].
    destruct (nextBit_ok g Hm) as (b & g1 & -> & Hb & Hm1). cbn [bindR].
    rewrite lor_double_bit by assumption.
    destruct (IH (2 * acc + b) g1) as (r & g' & -> & Hm' & Hr); [congruence|lia|].
    exists r, g'. split; [reflexivity|]. split; [congruence|].
    rewrite Nat2Z.inj_succ, Z.pow_succ_r by lia. nia.
Qed.

Lemma nextBits_shape (g : BlumBlumShub.t) (n : Z) :
  BlumBlumShub.m g <> 0 -> 2 <= n ->
  exists r g',
    BlumBlumShub.nextBits g n = Ok (r, g') /\
    BlumBlumShub.m g' = BlumBlumShub.m g /\
    Z.odd r = true /\ Z.rem r 4 = 3 /\
    2 ^ (n - 1) <= r < 2 ^ n /\ Z.testbit r (n - 1) = true.
Proof.
  intros Hm Hn. unfold BlumBlumShub.nextBits.
  destruct (drawBits_ok (Z.to_nat n) 0 g Hm) as (r0 & g' & -> & Hm' & Hr0); [lia|].
  cbn [bindR]. rewrite Z2Nat.id in Hr0 by lia.
  rewrite Z.shiftl_mul_pow2, Z.mul_1_l by lia.
  set (r1 := Z.lor r0 (2 ^ (n - 1))).
  assert (Hr1 : 2 ^ (n - 1) <= r1 < 2 ^ n).
  { replace n with (n - 1 + 1) at 2 by lia. apply lor_pow2_bounds; [lia|].
    replace (n - 1 + 1) with n by lia. lia. }
  assert (Hp1 : 2 <= 2 ^ (n - 1)).
  { change 2 with (2 ^ 1) at 1. apply Z.pow_le_mono_r; lia. }
  set (r2 := Z.lor r1 1).
  assert (Hodd2 : Z.odd r2 = true).
  { rewrite <- Z.bit0_odd. unfold r2. rewrite Z.lor_spec.
    change (Z.testbit 1 0) with true. apply orb_true_r. }
  assert (Hr2 : 2 ^ (n - 1) <= r2 < 2 ^ n).
  { pose proof (Z.add_lor_land r1 1) as Hadd. fold r2 in Hadd.
    destruct (land_1_bit r1) as [H0|H1].
    - (* bit 0 of r1 is clear, r2 = r1 + 1 and r1 is even *)
      assert (Heven : r1 mod 2 = 0).
      { rewrite land_1_mod in H0. exact H0. }
      assert (Hpe : (2 ^ n) mod 2 = 0).
      { replace n with (Z.succ (n - 1)) by lia. rewrite Z.pow_succ_r by lia.
        rewrite Z.mul_comm. apply Z_mod_mult. }
      assert (r1 = 2 * (r1 / 2)) by (pose proof (Z.div_mod r1 2); lia).
      assert (2 ^ n = 2 * (2 ^ n / 2)) by (pose proof (Z.div_mod (2 ^ n) 2); lia).
      lia.
    - lia. }
  assert (Hmod2 : r2 mod 2 = 1).
  { rewrite Zodd_mod in Hodd2. apply Z.eqb_eq in Hodd2. exact Hodd2. }
  rewrite (rem_nonneg r2 4) by lia.
  assert (Hq : r2 = 4 * (r2 / 4) + r2 mod 4) by (apply Z.div_mod; lia).
  assert (Hm4 : r2 mod 4 = 1 \/ r2 mod 4 = 3).
  { pose proof (Z.mod_pos_bound r2 4). pose proof (Z.div_mod r2 2). lia. }
  set (r3 := r2 - r2 mod 4 + 3).
  assert (H4 : 2 ^ n = 4 * 2 ^ (n - 2)).
  { replace n with (2 + (n - 2)) at 1 by lia. rewrite Z.pow_add_r by lia. reflexivity. }
  assert (Hr3 : 2 ^ (n - 1) <= r3 < 2 ^ n).
  { unfold r3. split; [lia|].
    assert (r2 / 4 < 2 ^ (n - 2)) by (apply Z.div_lt_upper_bound; lia).
    lia. }
  assert (Hr3m : r3 mod 4 = 3).
  { unfold r3. replace (r2 - r2 mod 4 + 3) with (3 + (r2 / 4) * 4) by lia.
    rewrite Z_mod_plus_full. reflexivity. }
  exists r3, g'. split; [reflexivity|]. split; [exact Hm'|].
  split.
  { rewrite Zodd_mod. apply Z.eqb_eq.
    replace r3 with (1 + (2 * (r2 / 4) + 1) * 2) by (unfold r3; lia).
    rewrite Z_mod_plus_full. reflexivity. }
  split.
  { rewrite rem_nonneg by lia. exact Hr3m. }
  split; [exact Hr3|].
  assert (Hlog : Z.log2 r3 = n - 1).
  { apply Z.log2_unique; [lia|]. replace (Z.succ (n - 1)) with n by lia. exact Hr3. }
  rewrite <- Hlog. apply Z.bit_log2. lia.
Qed.

(** ** Digits *)

Lemma undigit_digitChar (d : Z) : 0 <= d < 16 -> undigit (digitChar d) = d.
Proof.
  intros Hd. unfold undigit, digitChar.
  destruct (Z.ltb_spec d 10).
  - destruct (Z.ltb_spec (48 + d) 58); lia.
  - destruct (Z.ltb_spec (87 + d) 58); lia.
Qed.

Lemma hexValue_digitChar (d : Z) : 0 <= d < 16 -> hexValue (digitChar d) = Some d.
Proof.
  intros Hd. unfold hexValue, digitChar.
  destruct (Z.ltb_spec d 10).
  - replace (48 <=? 48 + d) with true by (symmetry; apply Z.leb_le; lia).
    replace (48 + d <=? 57) with true by (symmetry; apply Z.leb_le; lia).
    cbn [andb]. f_equal. lia.
  - replace (87 + d <=? 57) with false by (symmetry; apply Z.leb_gt; lia).
    rewrite andb_false_r.
    replace (97 <=? 87 + d) with true by (symmetry; apply Z.leb_le; lia).
    replace (87 + d <=? 102) with true by (symmetry; apply Z.leb_le; lia).
    cbn [andb]. f_equal. lia.
Qed.

Lemma valueOf_app (radix : Z) (s : jsstring) (c : Z) :
  valueOf radix (s ++ [c]) = radix * valueOf radix s + undigit c.
Proof. unfold valueOf. rewrite fold_left_app. reflexivity. Qed.

Lemma digits_loop_spec (radix : Z) (Hradix : 2 <= radix <= 16) (fuel : nat) :
  forall v acc,
    0 <= v < 2 ^ Z.of_nat fuel ->
    exists D,
      digits_loop fuel radix v acc = D ++ acc /\
      Forall (isDigitOf radix) D /\
      valueOf radix D = v /\
      (v = 0 -> D = []) /\
      (0 < v -> radix ^ (Z.of_nat (length D) - 1) <= v < radix ^ Z.of_nat (length D)).
Proof.
  induction fuel as [|fuel IH]; intros v acc Hv.
  - cbn in Hv. assert (v = 0) by lia. subst v.
    exists []. cbn. repeat split; auto; lia.
  - cbn [digits_loop]. destruct (Z.eqb_spec v 0) as [->|Hnz].
    + exists []. cbn. repeat split; auto; lia.
    + rewrite quot_nonneg, rem_nonneg by lia.
      assert (Hq : 0 <= v / radix < 2 ^ Z.of_nat fuel).
      { split; [apply Z.div_pos; lia|].
        apply Z.div_lt_upper_bound; [lia|].
        rewrite Nat2Z.inj_succ, Z.pow_succ_r in Hv by lia.
        assert (0 < 2 ^ Z.of_nat fuel) by (apply Z.pow_pos_nonneg; lia). nia. }
      destruct (IH (v / radix) (digitChar (v mod radix) :: acc) Hq)
        as (D & HD & Hall & Hval & Hz & Hb).
      pose proof (Z.mod_pos_bound v radix ltac:(lia)) as Hm.
      pose proof (Z.div_mod v radix ltac:(lia)) as Hdm.
      exists (D ++ [digitChar (v mod radix)]).
      split; [rewrite HD, <- app_assoc; reflexivity|].
      split.
      { apply Forall_app. split; [exact Hall|].
        constructor; [|constructor]. exists (v mod radix). split; [lia|reflexivity]. }
      split.
      { rewrite valueOf_app, Hval, undigit_digitChar by lia. lia. }
      split; [lia|].
      intros _. rewrite length_app, Nat2Z.inj_add. cbn [length].
      replace (Z.of_nat (length D) + Z.of_nat 1 - 1) with (Z.of_nat (length D)) by lia.
      replace (Z.of_nat (length D) + Z.of_nat 1) with (Z.succ (Z.of_nat (length D))) by lia.
      rewrite Z.pow_succ_r by lia.
      destruct (Z.eq_dec (v / radix) 0) as [Hq0|Hq0].
      * rewrite (Hz Hq0). cbn [length]. cbn. lia.
      * specialize (Hb ltac:(lia)).
        replace (Z.of_nat (length D)) with (Z.succ (Z.of_nat (length D) - 1)) at 1 by lia.
        rewrite Z.pow_succ_r.
        -- nia.
        -- destruct D; [cbn in Hval; lia|cbn [length]; lia].
Qed.

(** The digits of a positive number. *)
Lemma toStringRadix_pos (radix v : Z) :
  2 <= radix <= 16 -> 0 < v ->
  let D := toStringRadix radix v in
  Forall (isDigitOf radix) D /\ valueOf radix D = v /\
  radix ^ (Z.of_nat (length D) - 1) <= v < radix ^ Z.of_nat (length D).
Proof.
  intros Hr Hv. unfold toStringRadix.
  destruct (Z.eqb_spec v 0); [lia|]. destruct (Z.ltb_spec v 0); [lia|].
  destruct (digits_loop_spec radix Hr (S (Z.to_nat (Z.log2 v))) v [])
    as (D & HD & Hall & Hval & _ & Hb).
  { split; [lia|]. rewrite Nat2Z.inj_succ, Z2Nat.id by apply Z.log2_nonneg.
    apply Z.log2_spec. lia. }
  rewrite HD, app_nil_r. cbn zeta. auto.
Qed.

Lemma toStringRadix_nonneg (radix v : Z) :
  2 <= radix <= 16 -> 0 <= v ->
  let D := toStringRadix radix v in
  D <> [] /\ Forall (isDigitOf radix) D /\ valueOf radix D = v.
Proof.
  intros Hr Hv. destruct (Z.eq_dec v 0) as [->|Hnz].
  - cbn. split; [discriminate|]. split; [|unfold undigit; cbn; lia].
    constructor; [|constructor]. exists 0. split; [lia|reflexivity].
  - destruct (toStringRadix_pos radix v Hr ltac:(lia)) as (Hall & Hval & Hb).
    cbn zeta. split; [|auto].
    intros E. rewrite E in Hval. cbn in Hval. lia.
Qed.

(** [x.toString(2).length] is the position of the top bit plus one. *)
Lemma bitLength_pos (v : Z) : 0 < v -> bitLength v = Z.log2 v + 1.
Proof.
  intros Hv. unfold bitLength.
  destruct (toStringRadix_pos 2 v ltac:(lia) Hv) as (_ & _ & Hb).
  symmetry. apply Z.add_move_r. apply Z.log2_unique.
  - destruct (toStringRadix 2 v); cbn [length] in *; [cbn in Hb|]; lia.
  - replace (Z.succ (Z.of_nat (length (toStringRadix 2 v)) - 1))
      with (Z.of_nat (length (toStringRadix 2 v))) by lia.
    exact Hb.
Qed.

Lemma bitLength_bounds (v : Z) :
  0 < v -> 2 ^ (bitLength v - 1) <= v < 2 ^ bitLength v.
Proof.
  intros Hv. rewrite bitLength_pos by lia.
  replace (Z.log2 v + 1 - 1) with (Z.log2 v) by lia.
  apply Z.log2_spec. lia.
Qed.

(** ** SHA-256: where it answers and what its answer looks like *)

Lemma land_255_range (x : Z) : 0 <= Z.land x 255 < 256.
Proof.
  change 255 with (Z.ones 8). rewrite Z.land_ones by lia.
  apply Z.mod_pos_bound. reflexivity.
Qed.

(** Every byte is checked by evaluation. *)
Lemma byteHex_all_bytes :
  forallb (fun b => (length (Hash.byteHex (Z.of_nat b)) =? 2)%nat &&
                    forallb isHexDigit (Hash.byteHex (Z.of_nat b))) (seq 0 256) = true.
Proof. vm_compute. reflexivity. Qed.

Lemma byteHex_shape (b : Z) :
  0 <= b < 256 ->
  length (Hash.byteHex b) = 2%nat /\ forallb isHexDigit (Hash.byteHex b) = true.
Proof.
  intros Hb. pose proof byteHex_all_bytes as H.
  rewrite forallb_forall in H. specialize (H (Z.to_nat b)).
  rewrite Z2Nat.id in H by lia.
  assert (Hin : In (Z.to_nat b) (seq 0 256)) by (apply in_seq; lia).
  apply H in Hin. apply andb_prop in Hin. destruct Hin as [Hl Hd].
  apply Nat.eqb_eq in Hl. auto.
Qed.

Lemma digest_shape (hash : list Z) :
  length (Hash.digest hash) = 64%nat /\ forallb isHexDigit (Hash.digest hash) = true.
Proof.
  unfold Hash.digest. cbn [flat_map].
  repeat rewrite length_app. repeat rewrite forallb_app.
  repeat match goal with
         | |- context [Hash.byteHex (Z.land ?x 255)] =>
             let Hl := fresh "Hl" in
             let Hd := fresh "Hd" in
             destruct (byteHex_shape (Z.land x 255) (land_255_range x)) as [Hl Hd];
             rewrite Hl, Hd; clear Hl Hd
         end.
  cbn. auto.
Qed.

(** [j >> 8] on a UTF-16 code unit is zero exactly below 256. *)
Lemma shr_8_code_unit (j : Z) : 0 <= j <= 65535 -> (Hash.shr j 8 =? 0) = (j <=? 255).
Proof.
  intros Hj. unfold Hash.shr, Hash.toInt32.
  change (8 mod 32) with 8. change (2 ^ 31) with 2147483648. change (2 ^ 32) with 4294967296.
  rewrite Z.mod_small by lia.
  replace (j + 2147483648 - 2147483648) with j by lia.
  rewrite Z.shiftr_div_pow2 by lia. change (2 ^ 8) with 256.
  destruct (Z.leb_spec j 255).
  - apply Z.eqb_eq. apply Z.div_small. lia.
  - apply Z.eqb_neq. intros E.
    pose proof (Z.div_mod j 256 ltac:(lia)). pose proof (Z.mod_pos_bound j 256 ltac:(lia)). lia.
Qed.

Lemma fillWords_some (chars : jsstring) :
  Forall (fun c => 0 <= c <= 255) chars ->
  forall i words, exists words', Hash.fillWords chars i words = Some words'.
Proof.
  induction 1 as [|c chars Hc _ IH]; intros i words; cbn [Hash.fillWords].
  - eauto.
  - rewrite shr_8_code_unit by lia.
    destruct (Z.leb_spec c 255); [|lia]. cbn [negb]. apply IH.
Qed.

Lemma fillWords_none (chars : jsstring) :
  Forall (fun c => 0 <= c <= 65535) chars ->
  Exists (fun c => 255 < c) chars ->
  forall i words, Hash.fillWords chars i words = None.
Proof.
  intros Hall Hex. induction Hex as [c chars Hc|c chars Hex IH]; intros i words;
    cbn [Hash.fillWords]; inversion Hall as [|? ? Hrange Hall']; subst.
  - rewrite shr_8_code_unit by lia. destruct (Z.leb_spec c 255); [lia|]. reflexivity.
  - destruct (negb (Hash.shr c 8 =? 0)); [reflexivity|]. apply IH. exact Hall'.
Qed.

Lemma padLoop_zeros (fuel : nat) :
  forall ascii, exists z, Hash.padLoop fuel ascii = ascii ++ repeat 0 z.
Proof.
  induction fuel as [|fuel IH]; intros ascii; cbn [Hash.padLoop].
  - exists 0%nat. cbn. symmetry. apply app_nil_r.
  - destruct (_ =? 0).
    + exists 0%nat. cbn. symmetry. apply app_nil_r.
    + destruct (IH (ascii ++ [0])) as (z & ->). exists (S z).
      rewrite <- app_assoc. reflexivity.
Qed.

Lemma sha256_cases (ascii : jsstring) :
  match Hash.fillWords (Hash.padLoop 64 (ascii ++ [128])) 0 [] with
  | Some _ => exists hashHex, Hash.sha256 ascii = Some hashHex /\
                  length hashHex = 64%nat /\ forallb isHexDigit hashHex = true
  | None => Hash.sha256 ascii = None
  end.
Proof.
  unfold Hash.sha256. cbv zeta.
  destruct (Hash.fillWords (Hash.padLoop 64 (ascii ++ [128])) 0 []) as [words|].
  - eexists. split; [reflexivity|]. apply digest_shape.
  - reflexivity.
Qed.

Lemma padded_latin1 (ascii : jsstring) :
  Forall (fun c => 0 <= c <= 255) ascii ->
  Forall (fun c => 0 <= c <= 255) (Hash.padLoop 64 (ascii ++ [128])).
Proof.
  intros Hall. destruct (padLoop_zeros 64 (ascii ++ [128])) as (z & E).
  rewrite E. apply Forall_app. split; [apply Forall_app; split|].
  - exact Hall.
  - constructor; [lia|constructor].
  - apply Forall_forall. intros x Hx. apply repeat_spec in Hx. lia.
Qed.

(** Claim C10, first half: on code units up to 255 the digest is there and
    is 64 lower case hexadecimal digits. *)
Lemma sha256_latin1 (ascii : jsstring) :
  Forall (fun c => 0 <= c <= 255) ascii ->
  exists hashHex, Hash.sha256 ascii = Some hashHex /\
                  length hashHex = 64%nat /\ forallb isHexDigit hashHex = true.
Proof.
  intros Hall. pose proof (sha256_cases ascii) as H.
  destruct (fillWords_some _ (padded_latin1 ascii Hall) 0 []) as (words & E).
  rewrite E in H. exact H.
Qed.

(** Claim C10, second half: one code unit above 255 and the answer is
    [undefined]. *)
Lemma sha256_undefined (ascii : jsstring) :
  Forall (fun c => 0 <= c <= 65535) ascii ->
  Exists (fun c => 255 < c) ascii ->
  Hash.sha256 ascii = None.
Proof.
  intros Hall Hex. pose proof (sha256_cases ascii) as H.
  rewrite fillWords_none in H; [exact H| |].
  - destruct (padLoop_zeros 64 (ascii ++ [128])) as (z & E).
    rewrite E. apply Forall_app. split; [apply Forall_app; split|].
    + exact Hall.
    + constructor; [lia|constructor].
    + apply Forall_forall. intros x Hx. apply repeat_spec in Hx. lia.
  - destruct (padLoop_zeros 64 (ascii ++ [128])) as (z & E).
    rewrite E. apply Exists_app. left. apply Exists_app. left. exact Hex.
Qed.

(** ** The key codec *)

Lemma decimal_digit (c : Z) :
  isDigitOf 10 c -> isDigit c = true /\ c <> 110 /\ undigit c = c - 48.
Proof.
  intros (d0 & Hd & ->). unfold digitChar, isDigit, undigit.
  destruct (Z.ltb_spec d0 10); [|lia].
  destruct (Z.ltb_spec (48 + d0) 58); [|lia].
  split; [|lia].
  apply andb_true_intro. split; apply Z.leb_le; lia.
Qed.

Lemma BigInt_dec_valueOf (s : jsstring) :
  Forall (isDigitOf 10) s -> BigInt_dec s = valueOf 10 s.
Proof.
  unfold BigInt_dec, valueOf. generalize 0.
  induction s as [|c s IH]; intros acc Hall; cbn [fold_left]; [reflexivity|].
  inversion Hall as [|? ? Hc Hs]; subst.
  destruct (decimal_digit c Hc) as (_ & _ & ->). apply IH. exact Hs.
Qed.

Lemma decimal_string (v : Z) :
  0 <= v ->
  let s := toStringRadix 10 v in
  matchesDigits s = true /\ BigInt_dec s = v /\ matchesDigitsN s = false /\
  matchesDigitsN (s ++ [110]) = true /\ removelast (s ++ [110]) = s.
Proof.
  intros Hv. destruct (toStringRadix_nonneg 10 v ltac:(lia) Hv) as (Hne & Hall & Hval).
  cbn zeta. set (s := toStringRadix 10 v) in *.
  assert (Hdig : forallb isDigit s = true).
  { apply forallb_forall. intros c Hc. rewrite Forall_forall in Hall.
    apply decimal_digit. auto. }
  assert (Hm : matchesDigits s = true).
  { unfold matchesDigits. rewrite Hdig. destruct s; [contradiction|reflexivity]. }
  split; [exact Hm|]. split; [rewrite BigInt_dec_valueOf; assumption|].
  split.
  - unfold matchesDigitsN.
    destruct (rev s) as [|c r] eqn:E; [reflexivity|].
    assert (Hin : In c s) by (apply in_rev; rewrite E; left; reflexivity).
    rewrite Forall_forall in Hall. destruct (decimal_digit c (Hall c Hin)) as (_ & Hc & _).
    destruct (Z.eq_dec c 110); [contradiction|].
    destruct c as [|c|c]; try reflexivity.
    repeat (destruct c as [c|c|]; try reflexivity). contradiction.
  - unfold matchesDigitsN. rewrite rev_app_distr. cbn [rev app].
    rewrite removelast_last. auto.
Qed.

(** What each reviver makes of the tagged and of the bare rendering. *)
Lemma revivers_on_decimal (v : Z) :
  0 <= v ->
  reviverTagged (JString (toStringRadix 10 v ++ [110])) = JBigInt v /\
  reviverBoth (JString (toStringRadix 10 v ++ [110])) = JBigInt v /\
  reviverBoth (JString (toStringRadix 10 v)) = JBigInt v /\
  reviverTagged (JString (toStringRadix 10 v)) = JString (toStringRadix 10 v).
Proof.
  intros Hv. destruct (decimal_string v Hv) as (Hd & Hval & Hn & Hdn & Hrl).
  unfold reviverTagged, reviverBoth. rewrite Hdn, Hrl, Hval, Hn, Hd. auto.
Qed.

Section Objects.

Variable fields : list (jsstring * Z).
Hypothesis fields_nonneg : Forall (fun kv => 0 <= snd kv) fields.

(** [decodeKeyBase64] restores what [stringifyWithBigInt] wrote. *)
Lemma decodeKeyBase64_tagged :
  decodeKeyBase64 (stringifyWithBigInt (bigintObject fields)) = bigintObject fields.
Proof.
  unfold decodeKeyBase64, bigintObject. cbn [stringifyWithBigInt revive reviverTagged].
  f_equal. rewrite !map_map. apply map_ext_Forall.
  eapply Forall_impl; [|exact fields_nonneg]. intros [k v] Hv. cbn [fst snd] in *.
  cbn [stringifyWithBigInt revive]. f_equal. apply revivers_on_decimal. exact Hv.
Qed.

(** [parseWithBigInt] restores the tagged and the bare rendering alike. *)
Lemma parseWithBigInt_tagged :
  parseWithBigInt (stringifyWithBigInt (bigintObject fields)) = bigintObject fields.
Proof.
  unfold parseWithBigInt, bigintObject. cbn [stringifyWithBigInt revive reviverBoth].
  f_equal. rewrite !map_map. apply map_ext_Forall.
  eapply Forall_impl; [|exact fields_nonneg]. intros [k v] Hv. cbn [fst snd] in *.
  cbn [stringifyWithBigInt revive]. f_equal. apply revivers_on_decimal. exact Hv.
Qed.

Lemma parseWithBigInt_plain :
  parseWithBigInt (stringifyPlain (bigintObject fields)) = bigintObject fields.
Proof.
  unfold parseWithBigInt, bigintObject. cbn [stringifyPlain revive reviverBoth].
  f_equal. rewrite !map_map. apply map_ext_Forall.
  eapply Forall_impl; [|exact fields_nonneg]. intros [k v] Hv. cbn [fst snd] in *.
  cbn [stringifyPlain revive]. f_equal. apply revivers_on_decimal. exact Hv.
Qed.

(** [decodeKeyBase64] leaves the bare rendering as it is: strings. *)
Lemma decodeKeyBase64_plain :
  decodeKeyBase64 (stringifyPlain (bigintObject fields)) = stringifyPlain (bigintObject fields).
Proof.
  unfold decodeKeyBase64, bigintObject. cbn [stringifyPlain revive reviverTagged].
  f_equal. rewrite !map_map. apply map_ext_Forall.
  eapply Forall_impl; [|exact fields_nonneg]. intros [k v] Hv. cbn [fst snd] in *.
  cbn [stringifyPlain revive]. f_equal. apply revivers_on_decimal. exact Hv.
Qed.

End Objects.

(** Claim C5 as stated fails on [decodeKeyBase64]: the public key
    (e = 65537, n = 8590786553) rendered with plain decimal strings comes
    back with its two fields still strings, while the tagged rendering
    comes back with BigInts; [parseWithBigInt] restores both. *)
Lemma decodeKeyBase64_rejects_plain_decimal :
  let key := mkPublicKey 65537 8590786553 in
  decodeKeyBase64 (stringifyWithBigInt (publicKeyObject key)) = publicKeyObject key /\
  decodeKeyBase64 (stringifyPlain (publicKeyObject key))
    = JObject [([101], JString [54; 53; 53; 51; 55]);
               ([110], JString [56; 53; 57; 48; 55; 56; 54; 53; 53; 51])] /\
  decodeKeyBase64 (stringifyPlain (publicKeyObject key)) <> publicKeyObject key /\
  parseWithBigInt (stringifyPlain (publicKeyObject key)) = publicKeyObject key /\
  parseWithBigInt (stringifyWithBigInt (publicKeyObject key)) = publicKeyObject key.
Proof.
  cbv zeta. repeat split; try (vm_compute; reflexivity).
  vm_compute. discriminate.
Qed.

(** ** [modInverse] is the extended Euclidean algorithm *)

Section ModInverse.

Variables a0 m0 : Z.
Hypothesis a0_pos : 0 < a0.
Hypothesis m0_big : 1 < m0.

Lemma euclid_inv_init : euclid_inv a0 m0 a0 m0 0 1.
Proof.
  unfold euclid_inv. repeat split; try lia.
  - f_equal. lia.
  - rewrite Z.mul_0_l, Z_mod_same_full. apply Z.mod_0_l. lia.
Qed.

Lemma euclid_inv_step (a m x0 x1 : Z) :
  euclid_inv a0 m0 a m x0 x1 -> 1 < a -> m <> 0 ->
  euclid_inv a0 m0 m (Z.rem a m) (x1 - Z.quot a m * x0) x0.
Proof.
  intros (Ha & Hm & H1 & H0 & Hsum & Hsign & Hb) Ha1 Hm0.
  rewrite rem_nonneg, quot_nonneg by lia.
  pose proof (Z.div_mod a m Hm0) as Hdm.
  pose proof (Z.mod_pos_bound a m ltac:(lia)) as Hmb.
  assert (Hq : 0 <= a / m) by (apply Z.div_pos; lia).
  unfold euclid_inv.
  split; [lia|]. split; [lia|]. split; [exact H0|].
  split.
  { replace (a mod m) with (a - a / m * m) by lia.
    rewrite Z.mul_sub_distr_r, <- Z.mul_assoc.
    rewrite Zminus_mod, H1.
    rewrite (Zmult_mod (a / m) (x0 * a0)), H0.
    rewrite <- Zmult_mod, <- Zminus_mod. reflexivity. }
  assert (Habs : Z.abs (x1 - a / m * x0) = Z.abs x1 + a / m * Z.abs x0) by nia.
  split; [rewrite Habs; nia|].
  split; [nia|].
  (* |x0| <= m0 / a and 2 <= a *)
  assert (a * Z.abs x0 <= m0) by nia.
  nia.
Qed.

Lemma modInverse_loop_spec (fuel : nat) :
  forall a m x0 x1 r,
    euclid_inv a0 m0 a m x0 x1 ->
    modInverse_loop fuel a m x0 x1 = Ok r ->
    (r * a0) mod m0 = 1 /\ Z.abs r < m0.
Proof.
  induction fuel as [|fuel IH]; intros a m x0 x1 r Hinv Hrun.
  - cbn [modInverse_loop] in Hrun.
    destruct (Z.ltb_spec 1 a); [discriminate|].
    injection Hrun as <-. destruct Hinv as (Ha & _ & H1 & _ & _ & _ & Hb).
    assert (a = 1) by lia. subst a. rewrite H1. split; [|exact Hb].
    apply Z.mod_small. lia.
  - cbn [modInverse_loop] in Hrun.
    destruct (Z.ltb_spec 1 a) as [Ha1|Ha1].
    + destruct (Z.eqb_spec m 0) as [|Hm0]; [discriminate|].
      eapply IH; [|exact Hrun]. apply euclid_inv_step; assumption.
    + injection Hrun as <-. destruct Hinv as (Ha & _ & H1 & _ & _ & _ & Hb).
      assert (a = 1) by lia. subst a. rewrite H1. split; [|exact Hb].
      apply Z.mod_small. lia.
Qed.

(** When [modInverse] returns, it returns the inverse, strictly between
    [0] and the modulus. *)
Lemma modInverse_spec (x : Z) :
  modInverse a0 m0 = Ok x -> (a0 * x) mod m0 = 1 /\ 0 < x < m0.
Proof.
  unfold modInverse. destruct (Z.eqb_spec m0 1); [lia|].
  destruct (modInverse_loop _ a0 m0 0 1) as [r| |] eqn:Hrun; cbn [bindR]; try discriminate.
  intros [= <-].
  destruct (modInverse_loop_spec _ _ _ _ _ _ euclid_inv_init Hrun) as [Hmod Habs].
  assert (Hnz : r <> 0).
  { intros ->. rewrite Z.mul_0_l, Z.mod_0_l in Hmod by lia. discriminate. }
  destruct (Z.ltb_spec r 0).
  - split; [|lia].
    rewrite Z.mul_add_distr_l, Z_mod_plus_full, Z.mul_comm. exact Hmod.
  - split; [|lia]. rewrite Z.mul_comm. exact Hmod.
Qed.

End ModInverse.

(** ** Reading a run of the oracle monad backwards *)

Lemma bind_Ok {A B : Type} (c : M A) (k : A -> M B) (w : world) (r : B * world) :
  bind c k w = Ok r -> exists a w', c w = Ok (a, w') /\ k a w' = Ok r.
Proof.
  unfold bind. destruct (c w) as [[a w']| |]; try discriminate. eauto.
Qed.

Lemma lift_Ok {A : Type} (c : outcome A) (w : world) (a : A) (w' : world) :
  lift c w = Ok (a, w') -> c = Ok a /\ w' = w.
Proof.
  unfold lift. destruct c; try discriminate. intros [= -> ->]. auto.
Qed.

Lemma bindR_Ok {A B : Type} (c : outcome A) (k : A -> outcome B) (r : B) :
  bindR c k = Ok r -> exists a, c = Ok a /\ k a = Ok r.
Proof. destruct c; try discriminate. cbn. eauto. Qed.

Ltac run_inv H :=
  repeat
    (first
       [ apply bind_Ok in H; let a := fresh "a" in let w := fresh "w" in
                             let E := fresh "E" in destruct H as (a & w & E & H)
       | apply bindR_Ok in H; let a := fresh "a" in let E := fresh "E" in
                              destruct H as (a & E & H) ]).

Ltac lift_inv :=
  repeat match goal with
         | H : lift _ _ = Ok (_, _) |- _ => apply lift_Ok in H; destruct H as [H ->]
         end.

(** ** Probable primes of the form [2c + 1] *)

Lemma isPrimeMillerRabin_ge_2 (v : Z) (k : nat) : isPrimeMillerRabin v k = true -> 2 <= v.
Proof.
  unfold isPrimeMillerRabin.
  destruct (Z.eqb_spec v 2); [lia|]. destruct (Z.eqb_spec v 3); [lia|]. cbn [orb].
  destruct (Z.ltb_spec v 2); [discriminate|]. lia.
Qed.

Lemma drawBits_nonneg (turns : nat) :
  forall acc g r g',
    BlumBlumShub.drawBits turns acc g = Ok (r, g') -> 0 <= acc -> 0 <= r.
Proof.
  induction turns as [|turns IH]; intros acc g r g' Hrun Hacc.
  - cbn in Hrun. injection Hrun as <- _. exact Hacc.
  - cbn [BlumBlumShub.drawBits] in Hrun. run_inv Hrun. destruct a as [b g1].
    eapply IH; [exact Hrun|].
    unfold BlumBlumShub.nextBit in E. destruct (_ =? 0); [discriminate|].
    injection E as <- _.
    apply Z.lor_nonneg. split; [apply Z.shiftl_nonneg; lia|].
    apply Z.land_nonneg. right. lia.
Qed.

Lemma nextBits_3mod4 (g g' : BlumBlumShub.t) (n r : Z) :
  BlumBlumShub.nextBits g n = Ok (r, g') -> r mod 4 = 3 /\ 3 <= r.
Proof.
  unfold BlumBlumShub.nextBits. intros H. run_inv H. destruct a as [r0 g0].
  injection H as <- <-.
  apply drawBits_nonneg in E; [|lia].
  set (r2 := Z.lor (Z.lor r0 (Z.shiftl 1 (n - 1))) 1).
  assert (Hodd : Z.odd r2 = true).
  { rewrite <- Z.bit0_odd. unfold r2. rewrite Z.lor_spec.
    change (Z.testbit 1 0) with true. apply orb_true_r. }
  assert (Hmod2 : r2 mod 2 = 1).
  { rewrite Zodd_mod in Hodd. apply Z.eqb_eq in Hodd. exact Hodd. }
  assert (Hpos : 0 <= r2).
  { apply Z.lor_nonneg. split; [|lia].
    apply Z.lor_nonneg. split; [lia|]. apply Z.shiftl_nonneg. lia. }
  rewrite rem_nonneg by lia.
  pose proof (Z.mod_pos_bound r2 4 ltac:(lia)). pose proof (Z.div_mod r2 4 ltac:(lia)).
  pose proof (Z.div_mod r2 2 ltac:(lia)).
  split.
  - replace (r2 - r2 mod 4 + 3) with (3 + (r2 / 4) * 4) by lia.
    rewrite Z_mod_plus_full. reflexivity.
  - lia.
Qed.

Lemma findPrimeRSA_loop_spec (turns : nat) :
  forall bits prng v prng',
    findPrimeRSA_loop turns true bits prng = Ok (v, prng') -> probablePrime2c1 v.
Proof.
  induction turns as [|turns IH]; intros bits prng v prng' H; cbn [findPrimeRSA_loop] in H.
  - discriminate.
  - run_inv H. destruct a as [candidate prng1].
    destruct (isPrimeMillerRabin (2 * candidate + 1) 16) eqn:Hmr.
    + injection H as <- <-. split; [exact Hmr|].
      exists candidate. split; [reflexivity|]. eapply nextBits_3mod4. exact E.
    + eapply IH. exact H.
Qed.

Lemma drawQ_spec (fuel : nat) :
  forall bits p prng q,
    drawQ fuel bits p prng = Ok q -> probablePrime2c1 q /\ q <> p.
Proof.
  induction fuel as [|fuel IH]; intros bits p prng q H; cbn [drawQ] in H.
  - discriminate.
  - run_inv H. destruct a as [q1 prng1].
    destruct (Z.eqb_spec q1 p) as [|Hne].
    + eapply IH. exact H.
    + run_inv H. destruct (_ <? a).
      * eapply IH. exact H.
      * injection H as <-. split; [|exact Hne].
        eapply findPrimeRSA_loop_spec. exact E.
Qed.

Lemma probablePrime2c1_ge_3 (v : Z) : probablePrime2c1 v -> 3 <= v.
Proof.
  intros (Hmr & c & -> & _). apply isPrimeMillerRabin_ge_2 in Hmr. lia.
Qed.

(** ** The key pair [generateKeys] assembles *)

Lemma generateKeys_loop_spec (fuel innerFuel : nat) :
  forall bits w pub priv w',
    generateKeys_loop fuel innerFuel bits w = Ok ((pub, priv), w') ->
    keyInvariants pub priv /\
    probablePrime2c1 (p priv) /\ probablePrime2c1 (q priv) /\ p priv <> q priv.
Proof.
  induction fuel as [|fuel IH]; intros bits w pub priv w' H; cbn [generateKeys_loop] in H.
  - discriminate.
  - run_inv H. lift_inv.
    destruct a1 as [p0 prng0]. cbn [fst] in *.
    apply findPrimeRSA_loop_spec in E1.
    apply drawQ_spec in E4. destruct E4 as [Hq Hne].
    pose proof (probablePrime2c1_ge_3 _ E1). pose proof (probablePrime2c1_ge_3 _ Hq).
    destruct (negb (a5 =? 1)); [eapply IH; exact H|].
    run_inv H. lift_inv.
    destruct (negb a6); [eapply IH; exact H|].
    run_inv H. lift_inv.
    unfold ret in H. injection H as <- <- <-.
    match goal with
    | Hd : modInverse 65537 _ = Ok _, Hi : modInverse a4 p0 = Ok _ |- _ =>
        apply modInverse_spec in Hd; [|lia|nia];
        apply modInverse_spec in Hi; [|lia|lia];
        destruct Hd as [Hd1 Hd2]; destruct Hi as [Hq1 Hq2]
    end.
    unfold keyInvariants, publicOf. cbn [p q e d n phi dp dq qinv].
    split; [|split; [exact E1|split; [exact Hq|congruence]]].
    repeat split; auto; try lia.
    + apply rem_nonneg; lia.
    + apply rem_nonneg; lia.
Qed.

Lemma generateKeys_spec (fuel : nat) (bits : Z) (w w' : world)
    (pub : PublicKey) (priv : PrivateKey) :
  generateKeys fuel bits w = Ok ((pub, priv), w') ->
  keyInvariants pub priv /\
  probablePrime2c1 (p priv) /\ probablePrime2c1 (q priv) /\ p priv <> q priv.
Proof.
  unfold generateKeys. intros H. run_inv H. eapply generateKeys_loop_spec. exact H.
Qed.

(** ** The arithmetic of RSA *)

Lemma pow_mod_one (a t m : Z) : 1 < m -> 0 <= t -> a mod m = 1 -> (a ^ t) mod m = 1.
Proof.
  intros Hm Ht Ha. rewrite <- Z.mod_pow_l, Ha, Z.pow_1_l by lia.
  apply Z.mod_small. lia.
Qed.

(** Fermat: exponents may be moved by multiples of [p - 1]. *)
Lemma fermat_power (p m t : Z) :
  Z.prime p -> 0 <= t -> (m ^ (1 + t * (p - 1))) mod p = m mod p.
Proof.
  intros Hp Ht. pose proof (Z.prime_ge_2 _ Hp) as Hp2.
  assert (0 <= t * (p - 1)) by nia.
  rewrite Z.pow_add_r, Z.pow_1_r by lia.
  destruct (Z.eq_dec (m mod p) 0) as [Hz|Hnz].
  - rewrite <- Z.mul_mod_idemp_l, Hz by lia. reflexivity.
  - replace (m ^ (t * (p - 1))) with ((m ^ (p - 1)) ^ t)
      by (rewrite <- Z.pow_mul_r by lia; f_equal; lia).
    rewrite <- Z.mul_mod_idemp_r by lia.
    rewrite (pow_mod_one (m ^ (p - 1)) t p) by (try apply Z.fermat_nz; auto; lia).
    f_equal. lia.
Qed.

Lemma fermat_shift (p c a b : Z) :
  Z.prime p -> 1 <= a -> 0 <= b -> (c ^ (a + b * (p - 1))) mod p = (c ^ a) mod p.
Proof.
  intros Hp Ha Hb. pose proof (Z.prime_ge_2 _ Hp) as Hp2.
  replace (a + b * (p - 1)) with ((a - 1) + (1 + b * (p - 1))) by lia.
  rewrite Z.pow_add_r by nia.
  rewrite <- Z.mul_mod_idemp_r, fermat_power, Z.mul_mod_idemp_r by (auto; lia).
  f_equal. replace a with ((a - 1) + 1) at 2 by lia.
  rewrite Z.pow_add_r, Z.pow_1_r by lia. reflexivity.
Qed.

Lemma divide_two_primes (p q x : Z) :
  Z.prime p -> Z.prime q -> p <> q -> (p | x) -> (q | x) -> (p * q | x).
Proof.
  intros Hp Hq Hne [a ->] Hqx.
  apply Z.divide_prime_mul in Hqx; [|exact Hq].
  destruct Hqx as [[b ->]|Hqp].
  - exists b. ring.
  - apply Z.divide_prime_prime in Hqp; auto. congruence.
Qed.

(** Two residues below [p * q] that agree modulo [p] and modulo [q]. *)
Lemma crt_unique (p q x y : Z) :
  Z.prime p -> Z.prime q -> p <> q ->
  0 <= x < p * q -> 0 <= y < p * q ->
  x mod p = y mod p -> x mod q = y mod q -> x = y.
Proof.
  intros Hp Hq Hne Hx Hy Hmp Hmq.
  pose proof (Z.prime_ge_2 _ Hp). pose proof (Z.prime_ge_2 _ Hq).
  assert (Hdp : (p | x - y)).
  { apply Z.mod_divide; [lia|].
    rewrite Zminus_mod, Hmp, Z.sub_diag. reflexivity. }
  assert (Hdq : (q | x - y)).
  { apply Z.mod_divide; [lia|].
    rewrite Zminus_mod, Hmq, Z.sub_diag. reflexivity. }
  destruct (divide_two_primes p q (x - y) Hp Hq Hne Hdp Hdq) as [k Hk].
  assert (k = 0) by nia. subst k. lia.
Qed.

Section RSA.

Variables p q : Z.
Hypothesis p_prime : Z.prime p.
Hypothesis q_prime : Z.prime q.
Hypothesis p_neq_q : p <> q.

Let n := p * q.
Let phi := (p - 1) * (q - 1).

Lemma modulus_facts : 2 <= p /\ 2 <= q /\ 4 <= n /\ 1 <= phi.
Proof.
  pose proof (Z.prime_ge_2 _ p_prime). pose proof (Z.prime_ge_2 _ q_prime).
  subst n phi. nia.
Qed.

(** Exponents may be moved by multiples of [phi], for every base. *)
Lemma rsa_shift (c a b : Z) :
  0 <= c -> 1 <= a -> 0 <= b -> (c ^ (a + b * phi)) mod n = (c ^ a) mod n.
Proof.
  intros Hc Ha Hb. destruct modulus_facts as (Hp2 & Hq2 & Hn & Hphi).
  apply (crt_unique p q); auto; try (apply Z.mod_pos_bound; subst n; nia).
  - subst n. rewrite !Z.mod_mod_divide by (exists q; ring).
    replace (a + b * phi) with (a + (b * (q - 1)) * (p - 1)) by (subst phi; ring).
    apply fermat_shift; auto. nia.
  - subst n. rewrite !Z.mod_mod_divide by (exists p; ring).
    replace (a + b * phi) with (a + (b * (p - 1)) * (q - 1)) by (subst phi; ring).
    apply fermat_shift; auto. nia.
Qed.

(** The private exponent undoes the public one. *)
Lemma rsa_inverse (e d m : Z) :
  0 < e -> 0 < d -> (e * d) mod phi = 1 -> 0 <= m < n ->
  ((m ^ e) ^ d) mod n = m.
Proof.
  intros He Hd Hed Hm. destruct modulus_facts as (Hp2 & Hq2 & Hn & Hphi).
  rewrite <- Z.pow_mul_r by lia.
  pose proof (Z.div_mod (e * d) phi ltac:(lia)) as Hdm. rewrite Hed in Hdm.
  assert (0 <= e * d / phi) by (apply Z.div_pos; nia).
  replace (e * d) with (1 + (e * d / phi) * phi) by lia.
  rewrite rsa_shift, Z.pow_1_r by lia. apply Z.mod_small. exact Hm.
Qed.

End RSA.

(** ** Buffers and the integers they spell *)

Lemma fold_bytes_from (b : Buffer) :
  forall acc, fold_left (fun acc x => 256 * acc + x) b acc
              = acc * 256 ^ Z.of_nat (length b) + bytesValue b.
Proof.
  unfold bytesValue. induction b as [|x b IH]; intros acc; cbn [fold_left length].
  - cbn. lia.
  - rewrite IH, (IH (256 * 0 + x)), Nat2Z.inj_succ, Z.pow_succ_r by lia. ring.
Qed.

Lemma bytesValue_cons (x : Z) (b : Buffer) :
  bytesValue (x :: b) = x * 256 ^ Z.of_nat (length b) + bytesValue b.
Proof.
  unfold bytesValue at 1. cbn [fold_left]. rewrite fold_bytes_from. f_equal.
Qed.

Lemma bytesValue_app (a b : Buffer) :
  bytesValue (a ++ b) = bytesValue a * 256 ^ Z.of_nat (length b) + bytesValue b.
Proof. unfold bytesValue at 1. rewrite fold_left_app. apply fold_bytes_from. Qed.

Lemma bytesValue_range (b : Buffer) :
  Forall isByte b -> 0 <= bytesValue b < 256 ^ Z.of_nat (length b).
Proof.
  induction 1 as [|x b Hx _ IH].
  - cbn. lia.
  - rewrite bytesValue_cons. cbn [length]. rewrite Nat2Z.inj_succ, Z.pow_succ_r by lia.
    unfold isByte in Hx. nia.
Qed.

Lemma bytesValue_zeros (k : nat) (b : Buffer) : bytesValue (repeat 0 k ++ b) = bytesValue b.
Proof.
  induction k as [|k IH]; [reflexivity|].
  cbn [repeat app]. rewrite bytesValue_cons, IH. lia.
Qed.

(** Buffers of one length that spell one integer are one buffer. *)
Lemma bytesValue_inj (a : Buffer) :
  forall b, Forall isByte a -> Forall isByte b -> length a = length b ->
            bytesValue a = bytesValue b -> a = b.
Proof.
  induction a as [|x a IH]; intros [|y b] Ha Hb Hlen Hval; try discriminate; [reflexivity|].
  inversion Ha as [|? ? Hx Ha']; inversion Hb as [|? ? Hy Hb']; subst.
  injection Hlen as Hlen. rewrite !bytesValue_cons, Hlen in Hval.
  pose proof (bytesValue_range a Ha') as Ra. pose proof (bytesValue_range b Hb') as Rb.
  rewrite Hlen in Ra. unfold isByte in *.
  assert (x = y) by nia. subst y. f_equal. apply IH; auto. lia.
Qed.

Lemma parseHex_toString_hex (b : Buffer) :
  Forall isByte b ->
  forall acc, parseHex_loop (Buffer_toString_hex b) acc
              = Some (acc * 256 ^ Z.of_nat (length b) + bytesValue b).
Proof.
  induction 1 as [|x b Hx _ IH]; intros acc.
  - cbn. f_equal. lia.
  - unfold Buffer_toString_hex. cbn [flat_map app]. fold (Buffer_toString_hex b).
    unfold isByte in Hx. rewrite quot_nonneg, rem_nonneg by lia.
    pose proof (Z.mod_pos_bound x 16 ltac:(lia)).
    assert (0 <= x / 16 < 16) by (split; [apply Z.div_pos|apply Z.div_lt_upper_bound]; lia).
    cbn [parseHex_loop]. rewrite !hexValue_digitChar by lia.
    rewrite IH, bytesValue_cons. cbn [length]. rewrite Nat2Z.inj_succ, Z.pow_succ_r by lia.
    f_equal. pose proof (Z.div_mod x 16 ltac:(lia)). nia.
Qed.

(** [BigInt("0x" + buf.toString("hex"))] is the value of the buffer. *)
Lemma BigInt_of_buffer (b : Buffer) :
  Forall isByte b -> b <> [] -> BigInt_0x (Buffer_toString_hex b) = Ok (bytesValue b).
Proof.
  intros Hb Hne. unfold BigInt_0x. rewrite parseHex_toString_hex by assumption.
  destruct b as [|x b]; [contradiction|].
  unfold Buffer_toString_hex. cbn [flat_map app]. f_equal; try lia.
Qed.

Lemma valueOf_cons (radix c : Z) (s : jsstring) :
  valueOf radix (c :: s) = undigit c * radix ^ Z.of_nat (length s) + valueOf radix s.
Proof.
  revert c. induction s as [|c' s IH] using rev_ind; intros c.
  - unfold valueOf. cbn. lia.
  - rewrite app_comm_cons, !valueOf_app, IH, length_app, Nat2Z.inj_add. cbn [length].
    rewrite Z.add_1_r at 1. rewrite Z.pow_succ_r by lia. ring.
Qed.

(** Decoding an even number of hexadecimal digits. *)
Lemma Buffer_from_hex_spec (k : nat) :
  forall s, length s = (2 * k)%nat -> Forall (isDigitOf 16) s ->
            let b := Buffer_from_hex s in
            length b = k /\ Forall isByte b /\ bytesValue b = valueOf 16 s.
Proof.
  induction k as [|k IH]; intros s Hlen Hall.
  - destruct s; [|discriminate]. cbn. auto.
  - destruct s as [|c1 [|c2 s]]; cbn in Hlen; try lia.
    inversion Hall as [|? ? (h & Hh & ->) Hall1]; subst.
    inversion Hall1 as [|? ? (l & Hl & ->) Hall2]; subst.
    cbn [Buffer_from_hex]. rewrite !hexValue_digitChar by lia.
    destruct (IH s ltac:(lia) Hall2) as (IHl & IHb & IHv).
    cbn zeta. cbn [length]. split; [lia|]. split.
    + constructor; [unfold isByte; lia|exact IHb].
    + rewrite bytesValue_cons, IHv, !valueOf_cons, !undigit_digitChar, IHl by lia.
      cbn [length]. replace (length s) with (2 * k)%nat by lia.
      rewrite Nat2Z.inj_succ, Z.pow_succ_r, Nat2Z.inj_mul by lia.
      rewrite (Z.pow_mul_r 16 (Z.of_nat 2)) by lia. change (16 ^ Z.of_nat 2) with 256. ring.
Qed.

(** The bytes of a non-negative BigInt: at least one byte, no more than the
    number needs, and spelling the number. *)
Lemma bigintToBuffer_spec (v : Z) :
  0 <= v ->
  let b := bigintToBuffer v in
  Forall isByte b /\ bytesValue b = v /\ (1 <= length b)%nat /\
  (0 < v -> 256 ^ (Z.of_nat (length b) - 1) <= v).
Proof.
  intros Hv. destruct (Z.eq_dec v 0) as [->|Hnz].
  { cbn. repeat split; try lia. constructor; [unfold isByte; lia|constructor]. }
  destruct (toStringRadix_pos 16 v ltac:(lia) ltac:(lia)) as (Hall & Hval & Hb).
  unfold bigintToBuffer. set (D := toStringRadix 16 v) in *.
  assert (Hzero : isDigitOf 16 48) by (exists 0; split; [lia|reflexivity]).
  assert (HD : (1 <= length D)%nat).
  { destruct D; [cbn in Hval; lia|cbn; lia]. }
  destruct (Nat.odd (length D)) eqn:Hodd.
  - apply Nat.odd_spec in Hodd. destruct Hodd as [k Hk].
    destruct (Buffer_from_hex_spec (S k) (48 :: D)) as (Hl & Hby & Hvv).
    { cbn [length]. lia. }
    { constructor; assumption. }
    cbn zeta. rewrite Hl. split; [exact Hby|]. split.
    + rewrite Hvv, valueOf_cons. unfold undigit at 1. cbn. exact Hval.
    + split; [lia|]. intros _.
      replace (Z.of_nat (S k) - 1) with (Z.of_nat k) by lia.
      replace (256 ^ Z.of_nat k) with (16 ^ (Z.of_nat (length D) - 1)); [lia|].
      rewrite Hk. replace (Z.of_nat (2 * k + 1) - 1) with (2 * Z.of_nat k) by lia.
      rewrite Z.pow_mul_r by lia. reflexivity.
  - assert (Heven : Nat.even (length D) = true).
    { rewrite <- Nat.negb_odd, Hodd. reflexivity. }
    apply Nat.even_spec in Heven. destruct Heven as [k Hk].
    destruct (Buffer_from_hex_spec k D Hk Hall) as (Hl & Hby & Hvv).
    cbn zeta. rewrite Hl. split; [exact Hby|]. split; [congruence|].
    split; [lia|]. intros _.
    assert (256 ^ (Z.of_nat k - 1) <= 16 ^ (Z.of_nat (length D) - 1)); [|lia].
    rewrite Hk. replace 256 with (16 ^ 2) by reflexivity.
    rewrite <- Z.pow_mul_r by lia. apply Z.pow_le_mono_r; lia.
Qed.

Lemma bigintToBuffer_length (v : Z) (k : nat) :
  0 <= v < 256 ^ Z.of_nat k -> (1 <= k)%nat -> (length (bigintToBuffer v) <= k)%nat.
Proof.
  intros Hv Hk. destruct (bigintToBuffer_spec v ltac:(lia)) as (_ & _ & _ & Hlow).
  destruct (Z.eq_dec v 0) as [->|Hnz]; [cbn; lia|].
  specialize (Hlow ltac:(lia)).
  destruct (Nat.le_gt_cases (length (bigintToBuffer v)) k) as [|Hgt]; [assumption|].
  exfalso.
  assert (256 ^ Z.of_nat k <= 256 ^ (Z.of_nat (length (bigintToBuffer v)) - 1))
    by (apply Z.pow_le_mono_r; lia).
  lia.
Qed.

(** Writing a buffer as an integer and the integer as a buffer again, left
    padded with zeros to the old length, gives the buffer back. *)
Lemma buffer_roundtrip (EM : Buffer) :
  Forall isByte EM -> EM <> [] ->
  let mBuf := bigintToBuffer (bytesValue EM) in
  (length mBuf <= length EM)%nat /\
  repeat 0 (length EM - length mBuf) ++ mBuf = EM.
Proof.
  intros HEM Hne. pose proof (bytesValue_range EM HEM) as Hr.
  destruct (bigintToBuffer_spec (bytesValue EM) ltac:(lia)) as (Hby & Hval & Hlen & _).
  assert (Hk : (1 <= length EM)%nat) by (destruct EM; [contradiction|cbn; lia]).
  pose proof (bigintToBuffer_length (bytesValue EM) (length EM) Hr Hk) as Hle.
  cbn zeta. split; [exact Hle|].
  apply bytesValue_inj.
  - apply Forall_app. split; [|exact Hby].
    apply Forall_forall. intros x Hx. apply repeat_spec in Hx. unfold isByte. lia.
  - exact HEM.
  - rewrite length_app, repeat_length. lia.
  - rewrite bytesValue_zeros. exact Hval.
Qed.

Lemma leftPad_roundtrip (EM : Buffer) :
  Forall isByte EM -> EM <> [] ->
  leftPad (bigintToBuffer (bytesValue EM)) (Z.of_nat (length EM)) = EM.
Proof.
  intros HEM Hne. destruct (buffer_roundtrip EM HEM Hne) as [Hle Heq].
  unfold leftPad, Buffer_alloc.
  destruct (Z.ltb_spec (Z.of_nat (length (bigintToBuffer (bytesValue EM))))
                       (Z.of_nat (length EM))) as [Hlt|Hge].
  - rewrite <- Nat2Z.inj_sub, Nat2Z.id by lia. exact Heq.
  - assert (E : (length EM - length (bigintToBuffer (bytesValue EM)) = 0)%nat) by lia.
    rewrite E in Heq. exact Heq.
Qed.

(** ** Hashes as buffers, masks, exclusive or *)

Lemma isHexDigit_digit (c : Z) : isHexDigit c = true -> isDigitOf 16 c.
Proof.
  unfold isHexDigit, isDigitOf, digitChar. intros H.
  apply orb_prop in H. destruct H as [H|H]; apply andb_prop in H; destruct H as [H1 H2];
    apply Z.leb_le in H1; apply Z.leb_le in H2.
  - exists (c - 48). split; [lia|]. destruct (Z.ltb_spec (c - 48) 10); lia.
  - exists (c - 87). split; [lia|]. destruct (Z.ltb_spec (c - 87) 10); lia.
Qed.

Lemma digit_latin1 (c : Z) : isDigitOf 16 c -> 0 <= c <= 255.
Proof.
  intros (d0 & Hd & ->). unfold digitChar. destruct (Z.ltb_spec d0 10); lia.
Qed.

Lemma toString_hex_digits (b : Buffer) :
  Forall isByte b -> Forall (isDigitOf 16) (Buffer_toString_hex b).
Proof.
  induction 1 as [|x b Hx _ IH]; [constructor|].
  unfold Buffer_toString_hex. cbn [flat_map app]. fold (Buffer_toString_hex b).
  unfold isByte in Hx. rewrite quot_nonneg, rem_nonneg by lia.
  pose proof (Z.mod_pos_bound x 16 ltac:(lia)).
  assert (0 <= x / 16 < 16) by (split; [apply Z.div_pos|apply Z.div_lt_upper_bound]; lia).
  constructor; [eexists; split; [|reflexivity]; lia|].
  constructor; [eexists; split; [|reflexivity]; lia|]. exact IH.
Qed.

(** A defined digest decodes to 32 bytes. *)
Lemma hash_of_latin1 (s : jsstring) :
  Forall (fun c => 0 <= c <= 255) s ->
  exists hash, hashToBuffer (Hash.sha256 s) = Ok hash /\
               length hash = 32%nat /\ Forall isByte hash.
Proof.
  intros Hs. destruct (sha256_latin1 s Hs) as (hashHex & -> & Hlen & Hdig).
  cbn [hashToBuffer]. eexists. split; [reflexivity|].
  destruct (Buffer_from_hex_spec 32 hashHex Hlen) as (Hl & Hb & _).
  - apply Forall_forall. intros c Hc. apply isHexDigit_digit.
    rewrite forallb_forall in Hdig. auto.
  - auto.
Qed.

Lemma I2OSP_loop_bytes (turns : nat) :
  forall value acc, Forall isByte acc ->
    Forall isByte (I2OSP_loop turns value acc) /\
    length (I2OSP_loop turns value acc) = (turns + length acc)%nat.
Proof.
  induction turns as [|turns IH]; intros value acc Hacc; cbn [I2OSP_loop].
  - auto.
  - destruct (IH (Z.shiftr value 8) (Z.land value 255 :: acc)) as [Hb Hl].
    + constructor; [apply land_255_range|exact Hacc].
    + split; [exact Hb|]. rewrite Hl. cbn [length]. lia.
Qed.

(** [I2OSP] fills exactly [length] bytes. *)
Lemma I2OSP_bytes (value length0 : Z) :
  Forall isByte (I2OSP value length0) /\ length (I2OSP value length0) = Z.to_nat length0.
Proof.
  unfold I2OSP. destruct (I2OSP_loop_bytes (Z.to_nat length0) value []) as [Hb Hl];
    [constructor|]. split; [exact Hb|]. rewrite Hl. cbn. lia.
Qed.

Lemma MGF1_loop_spec (turns : nat) :
  forall i seed, Forall isByte seed ->
    exists T, MGF1_loop turns i seed = Ok T /\
              length T = (32 * turns)%nat /\ Forall isByte T.
Proof.
  induction turns as [|turns IH]; intros i seed Hseed; cbn [MGF1_loop].
  - exists []. auto.
  - destruct (hash_of_latin1 (Buffer_toString_hex (seed ++ I2OSP i 4))) as (hash & -> & Hl & Hb).
    { apply Forall_forall. intros c Hc. apply digit_latin1.
      assert (Hall : Forall (isDigitOf 16) (Buffer_toString_hex (seed ++ I2OSP i 4))).
      { apply toString_hex_digits. apply Forall_app. split; [exact Hseed|apply I2OSP_bytes]. }
      rewrite Forall_forall in Hall. auto. }
    cbn [bindR]. destruct (IH (i + 1) seed Hseed) as (T & -> & HTl & HTb). cbn [bindR].
    eexists. split; [reflexivity|]. split.
    + rewrite length_app, Hl, HTl. lia.
    + apply Forall_app. auto.
Qed.

Lemma Forall_firstn_bytes (n : nat) (l : Buffer) :
  Forall isByte l -> Forall isByte (firstn n l).
Proof.
  revert l. induction n as [|n IH]; intros l Hl; cbn [firstn]; [constructor|].
  destruct Hl; constructor; auto.
Qed.

Lemma Forall_skipn_bytes (n : nat) (l : Buffer) :
  Forall isByte l -> Forall isByte (skipn n l).
Proof.
  revert l. induction n as [|n IH]; intros l Hl; cbn [skipn]; [exact Hl|].
  destruct Hl; [constructor|auto].
Qed.

(** [MGF1] always answers, with exactly [maskLen] bytes. *)
Lemma MGF1_spec (seed : Buffer) (maskLen : Z) :
  Forall isByte seed -> 0 <= maskLen ->
  exists mask, MGF1 seed maskLen = Ok mask /\
               length mask = Z.to_nat maskLen /\ Forall isByte mask.
Proof.
  intros Hseed Hlen. unfold MGF1.
  destruct (MGF1_loop_spec (Z.to_nat ((maskLen + 31) / 32)) 0 seed Hseed) as (T & -> & HTl & HTb).
  cbn [bindR]. eexists. split; [reflexivity|]. split.
  - rewrite length_firstn, HTl. apply Nat.min_l.
    assert (maskLen <= 32 * ((maskLen + 31) / 32)).
    { pose proof (Z.div_mod (maskLen + 31) 32 ltac:(lia)).
      pose proof (Z.mod_pos_bound (maskLen + 31) 32 ltac:(lia)). lia. }
    assert (0 <= (maskLen + 31) / 32) by (apply Z.div_pos; lia).
    lia.
  - apply Forall_firstn_bytes. exact HTb.
Qed.

Lemma lxor_byte (x y : Z) : isByte x -> isByte y -> isByte (Z.lxor x y).
Proof.
  unfold isByte. intros Hx Hy.
  assert (Hnn : 0 <= Z.lxor x y) by (apply Z.lxor_nonneg; lia).
  split; [exact Hnn|].
  destruct (Z.eq_dec (Z.lxor x y) 0) as [->|Hnz]; [lia|].
  change 256 with (2 ^ 8). apply Z.log2_lt_pow2; [lia|].
  pose proof (Z.log2_lxor x y ltac:(lia) ltac:(lia)) as Hl.
  assert (Z.log2 x < 8).
  { destruct (Z.eq_dec x 0) as [->|]; [cbn; lia|]. apply Z.log2_lt_pow2; lia. }
  assert (Z.log2 y < 8).
  { destruct (Z.eq_dec y 0) as [->|]; [cbn; lia|]. apply Z.log2_lt_pow2; lia. }
  lia.
Qed.

Lemma xorBytes_length (len : nat) (a b : Buffer) : length (xorBytes len a b) = len.
Proof. unfold xorBytes. rewrite length_map, length_seq. reflexivity. Qed.

Lemma xorBytes_bytes (len : nat) (a b : Buffer) :
  Forall isByte a -> Forall isByte b -> Forall isByte (xorBytes len a b).
Proof.
  intros Ha Hb. unfold xorBytes. apply Forall_map. apply Forall_forall. intros i _.
  assert (Hnth : forall l, Forall isByte l -> isByte (nth i l 0)).
  { intros l Hl. destruct (Nat.lt_ge_cases i (length l)).
    - rewrite Forall_forall in Hl. apply Hl. apply nth_In. assumption.
    - rewrite nth_overflow by assumption. unfold isByte. lia. }
  apply lxor_byte; auto.
Qed.

Lemma xorBytes_nth (len i : nat) (a b : Buffer) :
  (i < len)%nat -> nth i (xorBytes len a b) 0 = Z.lxor (nth i a 0) (nth i b 0).
Proof.
  intros Hi. unfold xorBytes.
  set (f := fun j : nat => Z.lxor (nth j a 0) (nth j b 0)).
  rewrite (nth_indep _ 0 (f 0%nat)) by (rewrite length_map, length_seq; exact Hi).
  rewrite map_nth, seq_nth by exact Hi. reflexivity.
Qed.

(** Masking twice with one mask restores the buffer. *)
Lemma xorBytes_involutive (a mask : Buffer) :
  xorBytes (length a) (xorBytes (length a) a mask) mask = a.
Proof.
  apply nth_ext with (d := 0) (d' := 0).
  - apply xorBytes_length.
  - intros i Hi. rewrite xorBytes_length in Hi.
    rewrite !xorBytes_nth by exact Hi.
    rewrite Z.lxor_assoc, Z.lxor_nilpotent, Z.lxor_0_r. reflexivity.
Qed.

Lemma startsWith_refl (s : jsstring) : startsWith s s = true.
Proof. induction s as [|c s IH]; cbn; [reflexivity|]. rewrite Z.eqb_refl. exact IH. Qed.

Lemma jsstring_eqb_refl (s : jsstring) : jsstring_eqb s s = true.
Proof. unfold jsstring_eqb. rewrite Nat.eqb_refl, startsWith_refl. reflexivity. Qed.

Lemma jsstring_eqb_eq (s t : jsstring) : jsstring_eqb s t = true -> s = t.
Proof.
  unfold jsstring_eqb. intros H. apply andb_prop in H. destruct H as [Hl Hs].
  apply Nat.eqb_eq in Hl. revert t Hl Hs.
  induction s as [|c s IH]; intros [|d t] Hl Hs; try discriminate; [reflexivity|].
  cbn in Hs. apply andb_prop in Hs. destruct Hs as [Hc Hs].
  apply Z.eqb_eq in Hc. subst. f_equal. apply IH; [cbn in Hl; lia|exact Hs].
Qed.

Lemma skipZeros_zeros (k : nat) (rest : Buffer) :
  skipZeros (repeat 0 k ++ 1 :: rest) = 1 :: rest.
Proof. induction k as [|k IH]; [reflexivity|exact IH]. Qed.

(** ** UTF-8 *)

(** Linear arithmetic with quotients and remainders by constants. *)
Ltac div_lia := Z.div_mod_to_equations; lia.

Lemma utf8Bytes_bytes (cp : Z) :
  0 <= cp < 1114112 -> Forall isByte (utf8Bytes cp).
Proof.
  intros H. unfold utf8Bytes.
  destruct (Z.ltb_spec cp 128); [|destruct (Z.ltb_spec cp 2048); [|destruct (Z.ltb_spec cp 65536)]];
    repeat (apply Forall_cons; [unfold isByte; div_lia|]); apply Forall_nil.
Qed.

Lemma replacementBytes_bytes : Forall isByte replacementBytes.
Proof. unfold replacementBytes, isByte. repeat constructor; lia. Qed.

Lemma surrogate_tests (c : Z) :
  (isHighSurrogate c = true <-> 55296 <= c <= 56319) /\
  (isLowSurrogate c = true <-> 56320 <= c <= 57343).
Proof.
  unfold isHighSurrogate, isLowSurrogate. rewrite !andb_true_iff, !Z.leb_le. tauto.
Qed.

Lemma Buffer_from_utf8_bytes_bounded (n : nat) :
  forall s, (length s <= n)%nat -> Forall isCodeUnit s -> Forall isByte (Buffer_from_utf8 s).
Proof.
  induction n as [|n IH]; intros s Hn Hs.
  - destruct s; [constructor|cbn in Hn; lia].
  - destruct s as [|c rest]; [constructor|]. cbn [length] in Hn.
    inversion Hs as [|? ? Hc Hrest]; subst. cbn [Buffer_from_utf8].
    destruct (isHighSurrogate c) eqn:Hh.
    + destruct rest as [|d rest']; [apply replacementBytes_bytes|].
      cbn [length] in Hn. inversion Hrest as [|? ? Hd Hrest']; subst.
      destruct (isLowSurrogate d) eqn:Hl.
      * apply Forall_app. split; [|apply IH; [lia|exact Hrest']].
        apply surrogate_tests in Hh. apply surrogate_tests in Hl.
        apply utf8Bytes_bytes. lia.
      * apply Forall_app. split; [apply replacementBytes_bytes|].
        apply IH; [cbn [length]; lia|exact Hrest].
    + destruct (isLowSurrogate c) eqn:Hl.
      * apply Forall_app. split; [apply replacementBytes_bytes|]. apply IH; [lia|exact Hrest].
      * apply Forall_app. split; [|apply IH; [lia|exact Hrest]].
        apply utf8Bytes_bytes. unfold isCodeUnit in Hc. lia.
Qed.

(** [Buffer.from(s)] holds bytes. *)
Lemma Buffer_from_utf8_bytes (s : jsstring) :
  Forall isCodeUnit s -> Forall isByte (Buffer_from_utf8 s).
Proof. apply (Buffer_from_utf8_bytes_bounded (length s)). lia. Qed.

(** The decoder reads the bytes of a code point that is not a surrogate
    back into its code units, and is then between two sequences again. *)
Lemma utf8Decode_utf8Bytes (cp : Z) (tail : Buffer) :
  0 <= cp < 1114112 -> ~ (55296 <= cp <= 57343) ->
  utf8Decode (utf8Bytes cp ++ tail) 0 0 128 191 = codeUnits cp ++ utf8Decode tail 0 0 128 191.
Proof.
  intros Hcp Hs. unfold utf8Bytes.
  destruct (Z.ltb_spec cp 128).
  { cbn [app utf8Decode]. change (0 =? 0) with true. cbv iota.
    destruct (Z.leb_spec cp 127); [|div_lia].
    unfold codeUnits. destruct (Z.ltb_spec cp 65536); [reflexivity|div_lia]. }
  destruct (Z.ltb_spec cp 2048).
  { cbn [app utf8Decode]. change (0 =? 0) with true. cbv iota.
    change (1 =? 0) with false. change (1 =? 1) with true. cbv iota.
    destruct (Z.leb_spec (192 + cp / 64) 127); [div_lia|].
    destruct (Z.leb_spec 194 (192 + cp / 64)); [|div_lia].
    destruct (Z.leb_spec (192 + cp / 64) 223); [|div_lia]. cbn [andb].
    destruct (Z.ltb_spec (128 + cp mod 64) 128); [div_lia|].
    destruct (Z.ltb_spec 191 (128 + cp mod 64)); [div_lia|]. cbn [orb].
    replace ((192 + cp / 64) mod 32 * 64 + (128 + cp mod 64) mod 64) with cp by div_lia.
    reflexivity. }
  destruct (Z.ltb_spec cp 65536).
  { cbn [app utf8Decode]. change (0 =? 0) with true. cbv iota.
    change (2 =? 0) with false. change (2 =? 1) with false. change (2 - 1) with 1.
    change (1 =? 0) with false. change (1 =? 1) with true. cbv iota.
    destruct (Z.leb_spec (224 + cp / 4096) 127); [div_lia|].
    destruct (Z.leb_spec 194 (224 + cp / 4096)); [|div_lia].
    destruct (Z.leb_spec (224 + cp / 4096) 223); [div_lia|]. cbn [andb].
    destruct (Z.leb_spec 224 (224 + cp / 4096)); [|div_lia].
    destruct (Z.leb_spec (224 + cp / 4096) 239); [|div_lia]. cbn [andb].
    assert (Hlow : (128 + cp / 64 mod 64 <?
                    (if 224 + cp / 4096 =? 224 then 160 else 128)) = false).
    { destruct (Z.eqb_spec (224 + cp / 4096) 224); apply Z.ltb_ge; div_lia. }
    assert (Hup : ((if 224 + cp / 4096 =? 237 then 159 else 191) <?
                   128 + cp / 64 mod 64) = false).
    { destruct (Z.eqb_spec (224 + cp / 4096) 237); apply Z.ltb_ge; div_lia. }
    rewrite Hlow, Hup. cbn [orb].
    destruct (Z.ltb_spec (128 + cp mod 64) 128); [div_lia|].
    destruct (Z.ltb_spec 191 (128 + cp mod 64)); [div_lia|]. cbn [orb].
    replace (((224 + cp / 4096) mod 16 * 64 + (128 + cp / 64 mod 64) mod 64) * 64 +
             (128 + cp mod 64) mod 64) with cp by div_lia.
    reflexivity. }
  cbn [app utf8Decode]. change (0 =? 0) with true. cbv iota.
  change (3 =? 0) with false. change (3 =? 1) with false. change (3 - 1) with 2.
  change (2 =? 0) with false. change (2 =? 1) with false. change (2 - 1) with 1.
  change (1 =? 0) with false. change (1 =? 1) with true. cbv iota.
  destruct (Z.leb_spec (240 + cp / 262144) 127); [div_lia|].
  destruct (Z.leb_spec 194 (240 + cp / 262144)); [|div_lia].
  destruct (Z.leb_spec (240 + cp / 262144) 223); [div_lia|]. cbn [andb].
  destruct (Z.leb_spec 224 (240 + cp / 262144)); [|div_lia].
  destruct (Z.leb_spec (240 + cp / 262144) 239); [div_lia|]. cbn [andb].
  destruct (Z.leb_spec 240 (240 + cp / 262144)); [|div_lia].
  destruct (Z.leb_spec (240 + cp / 262144) 244); [|div_lia]. cbn [andb].
  assert (Hlow : (128 + cp / 4096 mod 64 <?
                  (if 240 + cp / 262144 =? 240 then 144 else 128)) = false).
  { destruct (Z.eqb_spec (240 + cp / 262144) 240); apply Z.ltb_ge; div_lia. }
  assert (Hup : ((if 240 + cp / 262144 =? 244 then 143 else 191) <?
                 128 + cp / 4096 mod 64) = false).
  { destruct (Z.eqb_spec (240 + cp / 262144) 244); apply Z.ltb_ge; div_lia. }
  rewrite Hlow, Hup. cbn [orb].
  destruct (Z.ltb_spec (128 + cp / 64 mod 64) 128); [div_lia|].
  destruct (Z.ltb_spec 191 (128 + cp / 64 mod 64)); [div_lia|]. cbn [orb].
  destruct (Z.ltb_spec (128 + cp mod 64) 128); [div_lia|].
  destruct (Z.ltb_spec 191 (128 + cp mod 64)); [div_lia|]. cbn [orb].
  replace ((((240 + cp / 262144) mod 8 * 64 + (128 + cp / 4096 mod 64) mod 64) * 64 +
            (128 + cp / 64 mod 64) mod 64) * 64 + (128 + cp mod 64) mod 64) with cp by div_lia.
  reflexivity.
Qed.

(** The code units of the code point of a surrogate pair are the pair. *)
Lemma codeUnits_pair (c d : Z) :
  55296 <= c <= 56319 -> 56320 <= d <= 57343 ->
  codeUnits (65536 + (c - 55296) * 1024 + (d - 56320)) = [c; d].
Proof.
  intros Hc Hd. unfold codeUnits.
  destruct (Z.ltb_spec (65536 + (c - 55296) * 1024 + (d - 56320)) 65536); [lia|].
  f_equal; [div_lia|]. f_equal. div_lia.
Qed.

Lemma codeUnits_single (c : Z) : c < 65536 -> codeUnits c = [c].
Proof. intros H. unfold codeUnits. destruct (Z.ltb_spec c 65536); [reflexivity|lia]. Qed.

Lemma utf8_round_trip_bounded (n : nat) :
  forall s, (length s <= n)%nat -> Forall isCodeUnit s -> isWellFormed s = true ->
            utf8Decode (Buffer_from_utf8 s) 0 0 128 191 = s.
Proof.
  induction n as [|n IH]; intros s Hn Hs Hw.
  - destruct s; [reflexivity|cbn in Hn; lia].
  - destruct s as [|c rest]; [reflexivity|]. cbn [length] in Hn.
    inversion Hs as [|? ? Hc Hrest]; subst.
    cbn [Buffer_from_utf8 isWellFormed] in *.
    destruct (isHighSurrogate c) eqn:Hh.
    + destruct rest as [|d rest']; [discriminate|].
      cbn [length] in Hn. inversion Hrest as [|? ? Hd Hrest']; subst.
      apply andb_true_iff in Hw. destruct Hw as [Hl Hw]. rewrite Hl.
      apply surrogate_tests in Hh. apply surrogate_tests in Hl.
      rewrite utf8Decode_utf8Bytes by lia.
      rewrite codeUnits_pair by lia. cbn [app]. f_equal. f_equal.
      apply IH; [lia|exact Hrest'|exact Hw].
    + apply andb_true_iff in Hw. destruct Hw as [Hl Hw].
      apply negb_true_iff in Hl. rewrite Hl.
      assert (Hns : ~ (55296 <= c <= 57343)).
      { intros Hr. destruct (surrogate_tests c) as [[_ H1] [_ H2]].
        destruct (Z.le_gt_cases c 56319).
        - rewrite H1 in Hh by lia. discriminate.
        - rewrite H2 in Hl by lia. discriminate. }
      unfold isCodeUnit in Hc.
      rewrite utf8Decode_utf8Bytes by lia.
      rewrite codeUnits_single by lia. cbn [app]. f_equal.
      apply IH; [lia|exact Hrest|exact Hw].
Qed.

(** [Buffer.from(s).toString("utf8")] is [s] for a well-formed string. *)
Lemma utf8_round_trip (s : jsstring) :
  Forall isCodeUnit s -> isWellFormed s = true ->
  Buffer_toString_utf8 (Buffer_from_utf8 s) = s.
Proof. apply (utf8_round_trip_bounded (length s)). lia. Qed.

(** ** Running the oracle monad forwards *)

Lemma bind_run {A B : Type} (c : M A) (k : A -> M B) (w w' : world) (a : A) :
  c w = Ok (a, w') -> bind c k w = k a w'.
Proof. intros H. unfold bind. rewrite H. reflexivity. Qed.

Lemma bind_lift_run {A B : Type} (c : outcome A) (k : A -> M B) (w : world) (a : A) :
  c = Ok a -> bind (lift c) k w = k a w.
Proof. intros ->. reflexivity. Qed.

(** ** The random streams *)

Lemma nextNumber_ok (rng : GenerateCryptoRandomNumber.t) :
  BlumBlumShub.m (GenerateCryptoRandomNumber.prng rng) <> 0 ->
  exists v rng',
    GenerateCryptoRandomNumber.nextNumber rng = Ok (v, rng') /\
    3 <= v /\
    BlumBlumShub.m (GenerateCryptoRandomNumber.prng rng')
      = BlumBlumShub.m (GenerateCryptoRandomNumber.prng rng) /\
    GenerateCryptoRandomNumber.bits rng' = GenerateCryptoRandomNumber.bits rng.
Proof.
  intros Hm. unfold GenerateCryptoRandomNumber.nextNumber.
  destruct (BlumBlumShub.nextBits (GenerateCryptoRandomNumber.prng rng)
              (GenerateCryptoRandomNumber.bits rng)) as [[v g']| |] eqn:E.
  - cbn [bindR]. exists v, (GenerateCryptoRandomNumber.mk
                              (GenerateCryptoRandomNumber.prop_bbs_factor rng)
                              (GenerateCryptoRandomNumber.bits rng) g').
    split; [reflexivity|]. split; [eapply nextBits_3mod4; exact E|].
    cbn. split; [|reflexivity].
    unfold BlumBlumShub.nextBits in E.
    destruct (drawBits_ok (Z.to_nat (GenerateCryptoRandomNumber.bits rng)) 0 _ Hm ltac:(lia))
      as (r & g1 & Hd & Hm1 & _).
    rewrite Hd in E. cbn in E. injection E as _ <-. exact Hm1.
  - exfalso. unfold BlumBlumShub.nextBits in E.
    destruct (drawBits_ok (Z.to_nat (GenerateCryptoRandomNumber.bits rng)) 0 _ Hm ltac:(lia))
      as (r & g1 & Hd & _). rewrite Hd in E. discriminate.
  - exfalso. unfold BlumBlumShub.nextBits in E.
    destruct (drawBits_ok (Z.to_nat (GenerateCryptoRandomNumber.bits rng)) 0 _ Hm ltac:(lia))
      as (r & g1 & Hd & _). rewrite Hd in E. discriminate.
Qed.

(** A generator that [initPRNG] returned has a non-zero modulus. *)
Lemma initPRNG_modulus (bits : Z) (w w' : world) (rng : GenerateCryptoRandomNumber.t) :
  GenerateCryptoRandomNumber.initPRNG bits w = Ok (rng, w') ->
  BlumBlumShub.m (GenerateCryptoRandomNumber.prng rng) <> 0 /\
  GenerateCryptoRandomNumber.bits rng = bits.
Proof.
  unfold GenerateCryptoRandomNumber.initPRNG. intros H. run_inv H. lift_inv.
  unfold ret in H. injection H as <- <-. cbn.
  match goal with
  | Hn : BlumBlumShub.new _ _ _ _ = Ok _ |- _ =>
      unfold BlumBlumShub.new in Hn;
      destruct (Z.eqb_spec (a0 * a2) 0); [discriminate|];
      injection Hn as <-; cbn; auto
  end.
Qed.

Lemma getSeed_loop_spec (fuel : nat) :
  forall rng seedBytes hLen,
    BlumBlumShub.m (GenerateCryptoRandomNumber.prng rng) <> 0 ->
    Forall isByte seedBytes -> 0 <= hLen ->
    (Z.to_nat hLen <= length seedBytes + fuel)%nat ->
    exists seed, getSeed_loop fuel rng seedBytes hLen = Ok seed /\
                 length seed = Z.to_nat hLen /\ Forall isByte seed.
Proof.
  induction fuel as [|fuel IH]; intros rng seedBytes hLen Hm Hb Hh Hfuel.
  - cbn [getSeed_loop]. destruct (Z.ltb_spec (Z.of_nat (length seedBytes)) hLen); [lia|].
    eexists. split; [reflexivity|]. split.
    + rewrite length_firstn. lia.
    + apply Forall_firstn_bytes. exact Hb.
  - cbn [getSeed_loop]. destruct (Z.ltb_spec (Z.of_nat (length seedBytes)) hLen).
    + destruct (nextNumber_ok rng Hm) as (v & rng' & -> & Hv & Hm' & _). cbn [bindR].
      destruct (bigintToBuffer_spec v ltac:(lia)) as (Hvb & _ & Hvl & _).
      apply IH; auto.
      * congruence.
      * apply Forall_app. auto.
      * rewrite length_app. lia.
    + eexists. split; [reflexivity|]. split.
      * rewrite length_firstn. lia.
      * apply Forall_firstn_bytes. exact Hb.
Qed.

(** [getSeedFromBBS] always ends, with exactly [hLen] bytes. *)
Lemma getSeedFromBBS_spec (rng : GenerateCryptoRandomNumber.t) (hLen : Z) :
  BlumBlumShub.m (GenerateCryptoRandomNumber.prng rng) <> 0 -> 0 <= hLen ->
  exists seed, getSeedFromBBS rng hLen = Ok seed /\
               length seed = Z.to_nat hLen /\ Forall isByte seed.
Proof.
  intros Hm Hh. unfold getSeedFromBBS. apply getSeed_loop_spec; [exact Hm|constructor|exact Hh|cbn [length]; lia].
Qed.

(** ** OAEP *)

(** The block [OAEPEncode] builds from a seed: for a message that fits it has
    [k] bytes, starts with a zero byte, and [OAEPDecode] gives the message
    back, read as UTF-8. *)
Lemma OAEP_block (mBuf lHash seed : Buffer) (label : jsstring) (k : Z) :
  Forall isByte mBuf -> Forall isByte seed -> length seed = 32%nat ->
  hashToBuffer (Hash.sha256 label) = Ok lHash -> length lHash = 32%nat ->
  Forall isByte lHash ->
  0 <= k - Z.of_nat (length mBuf) - 2 * 32 - 2 ->
  let DB := lHash ++ Buffer_alloc (k - Z.of_nat (length mBuf) - 2 * 32 - 2) ++ [1] ++ mBuf in
  exists dbMask seedMask,
    MGF1 seed (k - 32 - 1) = Ok dbMask /\
    MGF1 (xorBytes (length DB) DB dbMask) 32 = Ok seedMask /\
    let EM := [0] ++ xorBytes 32 seed seedMask ++ xorBytes (length DB) DB dbMask in
    Z.of_nat (length EM) = k /\ Forall isByte EM /\
    OAEPDecode EM label = Ok (Buffer_toString_utf8 mBuf).
Proof.
  intros HM Hseed Hseedl HlH HlHl HlHb Hps DB.
  assert (HDBl : Z.of_nat (length DB) = k - 33).
  { unfold DB, Buffer_alloc. rewrite !length_app, repeat_length, HlHl. cbn [length]. lia. }
  assert (HDBb : Forall isByte DB).
  { unfold DB. apply Forall_app. split; [exact HlHb|]. apply Forall_app. split.
    - apply Forall_forall. intros x Hx. apply repeat_spec in Hx. unfold isByte. lia.
    - constructor; [unfold isByte; lia|exact HM]. }
  destruct (MGF1_spec seed (k - 32 - 1) Hseed ltac:(lia)) as (dbMask & HdbMask & Hdml & Hdmb).
  set (maskedDB := xorBytes (length DB) DB dbMask).
  assert (HmDBb : Forall isByte maskedDB) by (apply xorBytes_bytes; auto).
  assert (HmDBl : length maskedDB = length DB) by apply xorBytes_length.
  destruct (MGF1_spec maskedDB 32 HmDBb ltac:(lia)) as (seedMask & HseedMask & Hsml & Hsmb).
  exists dbMask, seedMask. split; [exact HdbMask|]. split; [exact HseedMask|].
  set (maskedSeed := xorBytes 32 seed seedMask).
  assert (HmSl : length maskedSeed = 32%nat) by apply xorBytes_length.
  cbn zeta. fold maskedDB. fold maskedSeed. split.
  { rewrite !length_app, HmSl, HmDBl. cbn [length]. lia. }
  split.
  { constructor; [unfold isByte; lia|]. apply Forall_app. split; [|exact HmDBb].
    apply xorBytes_bytes; auto. }
  unfold OAEPDecode. cbn [app].
  change (skipn 1 (0 :: maskedSeed ++ maskedDB)) with (maskedSeed ++ maskedDB).
  change (skipn (1 + 32) (0 :: maskedSeed ++ maskedDB)) with (skipn 32 (maskedSeed ++ maskedDB)).
  rewrite firstn_app, <- HmSl, firstn_all, Nat.sub_diag, firstn_O, app_nil_r.
  rewrite skipn_app, skipn_all, Nat.sub_diag, skipn_O. cbn [app].
  rewrite HmSl. change (Z.of_nat 32) with 32. rewrite HseedMask. cbn [bindR].
  replace (xorBytes 32 maskedSeed seedMask) with seed.
  2:{ unfold maskedSeed. rewrite <- Hseedl at 1 2. symmetry. apply xorBytes_involutive. }
  replace (Z.of_nat (length maskedDB)) with (k - 32 - 1) by lia.
  rewrite HdbMask. cbn [bindR].
  replace (xorBytes (length maskedDB) maskedDB dbMask) with DB.
  2:{ unfold maskedDB. rewrite xorBytes_length. symmetry. apply xorBytes_involutive. }
  rewrite HlH. cbn [bindR].
  unfold DB at 1. rewrite firstn_app, <- HlHl, firstn_all, Nat.sub_diag, firstn_O, app_nil_r.
  rewrite jsstring_eqb_refl. cbn [negb].
  unfold DB. rewrite skipn_app, skipn_all, Nat.sub_diag, skipn_O. cbn [app].
  unfold Buffer_alloc. rewrite skipZeros_zeros. reflexivity.
Qed.

(** ** The private operations *)

Lemma rem_adjust (a b : Z) :
  0 < b -> (if Z.rem a b <? 0 then Z.rem a b + b else Z.rem a b) = a mod b.
Proof.
  intros Hb. pose proof (Z.rem_bound_abs a b ltac:(lia)) as Habs.
  pose proof (Z.quot_rem' a b) as Hqr.
  destruct (Z.ltb_spec (Z.rem a b) 0).
  - apply Z.mod_unique_pos with (q := Z.quot a b - 1); lia.
  - apply Z.mod_unique_pos with (q := Z.quot a b); lia.
Qed.

Section PrivateOperations.

Variable key : PrivateKey.
Hypothesis key_valid : validKey key.

Local Abbreviation P := (p key).
Local Abbreviation Q := (q key).
Local Abbreviation N := (n key).

Lemma key_facts :
  Z.prime P /\ Z.prime Q /\ 2 < P /\ 2 < Q /\ P <> Q /\ N = P * Q /\
  phi key = (P - 1) * (Q - 1) /\ 0 < e key /\ 0 < d key /\
  (e key * d key) mod ((P - 1) * (Q - 1)) = 1 /\
  dp key = d key mod (P - 1) /\ dq key = d key mod (Q - 1) /\
  (Q * qinv key) mod P = 1 /\ 9 <= N.
Proof.
  destruct key_valid as (Hp & Hq & Hp2 & Hq2 & Hne & _ & He & Hn & Hphi & Hed & Hd & Hdp & Hdq & Hqi & _).
  split; [exact Hp|]. split; [exact Hq|]. split; [exact Hp2|]. split; [exact Hq2|].
  split; [exact Hne|]. split; [exact Hn|]. split; [exact Hphi|].
  split; [rewrite He; lia|]. split; [lia|]. split; [rewrite <- Hphi; exact Hed|].
  split; [exact Hdp|]. split; [exact Hdq|]. split; [exact Hqi|].
  rewrite Hn. nia.
Qed.

Lemma dp_positive : 1 <= dp key /\ 1 <= dq key.
Proof.
  destruct key_facts as (Hp & Hq & Hp2 & Hq2 & Hne & Hn & Hphi & He & Hd & Hed & Hdp & Hdq & _).
  assert (Hmodp : (e key * d key) mod (P - 1) = 1).
  { rewrite <- (Z.mod_mod_divide _ ((P - 1) * (Q - 1))) by (exists (Q - 1); ring).
    rewrite Hed. apply Z.mod_small. lia. }
  assert (Hmodq : (e key * d key) mod (Q - 1) = 1).
  { rewrite <- (Z.mod_mod_divide _ ((P - 1) * (Q - 1))) by (exists (P - 1); ring).
    rewrite Hed. apply Z.mod_small. lia. }
  pose proof (Z.mod_pos_bound (d key) (P - 1) ltac:(lia)).
  pose proof (Z.mod_pos_bound (d key) (Q - 1) ltac:(lia)).
  split.
  - destruct (Z.eq_dec (dp key) 0) as [E|]; [|lia]. exfalso.
    rewrite Hdp in E. rewrite <- Z.mul_mod_idemp_r, E, Z.mul_0_r, Z.mod_0_l in Hmodp by lia.
    discriminate.
  - destruct (Z.eq_dec (dq key) 0) as [E|]; [|lia]. exfalso.
    rewrite Hdq in E. rewrite <- Z.mul_mod_idemp_r, E, Z.mul_0_r, Z.mod_0_l in Hmodq by lia.
    discriminate.
Qed.

(** The naive private operation. *)
Lemma private_power (c : Z) :
  0 <= c -> modPow c (d key) N = Ok (c ^ d key mod N).
Proof.
  intros Hc. destruct key_facts as (_ & _ & _ & _ & _ & _ & _ & _ & Hd & _ & _ & _ & _ & HN).
  unfold modPow. destruct (Z.eqb_spec N 0) as [Ez|Ez]; [lia|].
  rewrite modPow_nz_spec by lia. reflexivity.
Qed.

(** Blinding the exponent with a multiple of [phi] changes nothing. *)
Lemma blinded_power (c r : Z) :
  0 <= c -> 0 <= r ->
  modPow c (d key + r * phi key) N = Ok (c ^ d key mod N).
Proof.
  intros Hc Hr.
  destruct key_facts as (Hp & Hq & Hp2 & Hq2 & Hne & Hn & Hphi & _ & Hd & _ & _ & _ & _ & HN).
  assert (0 <= phi key) by (rewrite Hphi; nia).
  assert (0 <= r * phi key) by nia.
  unfold modPow. destruct (Z.eqb_spec N 0) as [Ez|Ez]; [lia|].
  rewrite modPow_nz_spec by lia. f_equal.
  rewrite Hn, Hphi. apply rsa_shift; auto; lia.
Qed.

(** The two half-size powers of the CRT variants, blinded or not. *)
Lemma crt_power_p (c r : Z) :
  0 <= c -> 0 <= r ->
  modPow c (dp key + r * (P - 1)) P = Ok (c ^ d key mod P).
Proof.
  intros Hc Hr.
  destruct key_facts as (Hp & Hq & Hp2 & Hq2 & Hne & Hn & Hphi & _ & Hd & _ & Hdp & _).
  destruct dp_positive as [Hdp1 _].
  assert (0 <= r * (P - 1)) by nia.
  unfold modPow. destruct (Z.eqb_spec P 0) as [Ez|Ez]; [lia|].
  rewrite modPow_nz_spec by lia. f_equal.
  rewrite fermat_shift by (auto; lia).
  pose proof (Z.div_mod (d key) (P - 1) ltac:(lia)) as Hdm.
  assert (0 <= d key / (P - 1)) by (apply Z.div_pos; lia).
  rewrite <- (fermat_shift P c (dp key) (d key / (P - 1))) by (auto; lia).
  f_equal. f_equal. lia.
Qed.

Lemma crt_power_q (c r : Z) :
  0 <= c -> 0 <= r ->
  modPow c (dq key + r * (Q - 1)) Q = Ok (c ^ d key mod Q).
Proof.
  intros Hc Hr.
  destruct key_facts as (Hp & Hq & Hp2 & Hq2 & Hne & Hn & Hphi & _ & Hd & _ & _ & Hdq & _).
  destruct dp_positive as [_ Hdq1].
  assert (0 <= r * (Q - 1)) by nia.
  unfold modPow. destruct (Z.eqb_spec Q 0) as [Ez|Ez]; [lia|].
  rewrite modPow_nz_spec by lia. f_equal.
  rewrite fermat_shift by (auto; lia).
  pose proof (Z.div_mod (d key) (Q - 1) ltac:(lia)) as Hdm.
  assert (0 <= d key / (Q - 1)) by (apply Z.div_pos; lia).
  rewrite <- (fermat_shift Q c (dq key) (d key / (Q - 1))) by (auto; lia).
  f_equal. f_equal. lia.
Qed.

(** Garner's recombination gives the power modulo [n]. *)
Lemma crtCombine_spec (x : Z) :
  crtCombine (x mod P) (x mod Q) key = x mod N.
Proof.
  destruct key_facts as (Hp & Hq & Hp2 & Hq2 & Hne & Hn & _ & _ & _ & _ & _ & _ & Hqi & HN).
  unfold crtCombine. rewrite rem_adjust by lia.
  set (h := ((x mod P - x mod Q) * qinv key) mod P).
  pose proof (Z.mod_pos_bound x P ltac:(lia)). pose proof (Z.mod_pos_bound x Q ltac:(lia)).
  pose proof (Z.mod_pos_bound ((x mod P - x mod Q) * qinv key) P ltac:(lia)) as Hh. fold h in Hh.
  apply (crt_unique P Q); auto.
  - nia.
  - rewrite Hn. apply Z.mod_pos_bound. nia.
  - rewrite Hn, Z.mod_mod_divide by (exists Q; ring).
    unfold h. rewrite <- Z.add_mod_idemp_r, Z.mul_mod_idemp_l by lia.
    replace ((x mod P - x mod Q) * qinv key * Q)
      with ((x mod P - x mod Q) * (Q * qinv key)) by ring.
    rewrite <- Z.mul_mod_idemp_r, Hqi, Z.mul_1_r, Z.add_mod_idemp_r by lia.
    replace (x mod Q + (x mod P - x mod Q)) with (x mod P) by lia.
    apply Z.mod_mod. lia.
  - rewrite Hn, Z.mod_mod_divide by (exists P; ring).
    rewrite Z_mod_plus_full. apply Z.mod_mod. lia.
Qed.

(** The public and the private operation are inverse on [0, n). *)
Lemma public_private (m : Z) :
  0 <= m < N ->
  exists c, modPow m (e key) N = Ok c /\ 0 <= c < N /\ c ^ d key mod N = m.
Proof.
  intros Hm.
  destruct key_facts as (Hp & Hq & Hp2 & Hq2 & Hne & Hn & _ & He & Hd & Hed & _ & _ & _ & HN).
  exists (m ^ e key mod N). split.
  - unfold modPow. destruct (Z.eqb_spec N 0) as [Ez|Ez]; [lia|].
    rewrite modPow_nz_spec by lia. reflexivity.
  - split; [apply Z.mod_pos_bound; lia|].
    rewrite Z.mod_pow_l. rewrite Hn. apply rsa_inverse; auto. lia.
Qed.

(** Signing and verifying exchange the two exponents. *)
Lemma private_public (m : Z) :
  0 <= m < N ->
  exists s, modPow m (d key) N = Ok s /\ 0 <= s < N /\
            modPow s (e key) N = Ok m.
Proof.
  intros Hm.
  destruct key_facts as (Hp & Hq & Hp2 & Hq2 & Hne & Hn & _ & He & Hd & Hed & _ & _ & _ & HN).
  exists (m ^ d key mod N). split; [apply private_power; lia|].
  split; [apply Z.mod_pos_bound; lia|].
  unfold modPow. destruct (Z.eqb_spec N 0) as [Ez|Ez]; [lia|].
  rewrite modPow_nz_spec by (try apply Z.mod_pos_bound; lia). f_equal.
  rewrite Z.mod_pow_l. rewrite Hn. apply rsa_inverse; auto; try lia.
  rewrite Z.mul_comm. exact Hed.
Qed.

End PrivateOperations.

(** ** Encoded blocks and the modulus *)

Lemma ceilDiv8_bounds (x : Z) : 8 * (ceilDiv8 x - 1) < x <= 8 * ceilDiv8 x.
Proof.
  unfold ceilDiv8. pose proof (Z.div_mod (x + 7) 8 ltac:(lia)).
  pose proof (Z.mod_pos_bound (x + 7) 8 ltac:(lia)). lia.
Qed.

Lemma pow256 (x : Z) : 0 <= x -> 256 ^ x = 2 ^ (8 * x).
Proof. intros Hx. rewrite Z.pow_mul_r by lia. reflexivity. Qed.

(** A block of [k] bytes whose first byte is zero is below every modulus of
    [k] bytes. *)
Lemma block_below_modulus (rest : Buffer) (N : Z) :
  0 < N -> Forall isByte rest ->
  Z.of_nat (length (0 :: rest)) = ceilDiv8 (bitLength N) ->
  0 <= bytesValue (0 :: rest) < N.
Proof.
  intros HN Hb Hlen. rewrite bytesValue_cons, Z.mul_0_l, Z.add_0_l.
  pose proof (bytesValue_range rest Hb) as Hr.
  pose proof (bitLength_bounds N HN) as HL.
  pose proof (ceilDiv8_bounds (bitLength N)) as Hc.
  cbn [length] in Hlen. rewrite Nat2Z.inj_succ in Hlen.
  split; [lia|].
  rewrite pow256 in Hr by lia.
  assert (2 ^ (8 * Z.of_nat (length rest)) <= 2 ^ (bitLength N - 1))
    by (apply Z.pow_le_mono_r; lia).
  lia.
Qed.

(** ** [OAEPEncode] and [encryptOAEP], run *)

Lemma OAEPEncode_too_long (mBuf : Buffer) (label : jsstring) (k : Z) (w : world) :
  k - Z.of_nat (length mBuf) - 2 * 32 - 2 < 0 ->
  OAEPEncode mBuf label k w = Throw MessageTooLong.
Proof.
  intros H. unfold OAEPEncode.
  destruct (Z.ltb_spec (k - Z.of_nat (length mBuf) - 2 * 32 - 2) 0); [reflexivity|lia].
Qed.

Lemma OAEPEncode_bad_label (mBuf : Buffer) (label : jsstring) (k : Z) (w : world) :
  0 <= k - Z.of_nat (length mBuf) - 2 * 32 - 2 ->
  Hash.sha256 label = None ->
  OAEPEncode mBuf label k w = Throw TypeError.
Proof.
  intros H Hl. unfold OAEPEncode.
  destruct (Z.ltb_spec (k - Z.of_nat (length mBuf) - 2 * 32 - 2) 0); [lia|].
  rewrite Hl. reflexivity.
Qed.

Lemma OAEPEncode_run (mBuf : Buffer) (label : jsstring) (k : Z) (w w1 : world)
    (rng : GenerateCryptoRandomNumber.t) :
  Forall isByte mBuf ->
  Forall (fun c => 0 <= c <= 255) label ->
  0 <= k - Z.of_nat (length mBuf) - 2 * 32 - 2 ->
  GenerateCryptoRandomNumber.initPRNG 64 w = Ok (rng, w1) ->
  exists rest,
    OAEPEncode mBuf label k w = Ok (0 :: rest, w1) /\
    Z.of_nat (length (0 :: rest)) = k /\ Forall isByte rest /\
    OAEPDecode (0 :: rest) label = Ok (Buffer_toString_utf8 mBuf).
Proof.
  intros HM Hlabel Hps Hrng.
  destruct (hash_of_latin1 label Hlabel) as (lHash & HlH & HlHl & HlHb).
  destruct (initPRNG_modulus 64 w w1 rng Hrng) as [Hm _].
  destruct (getSeedFromBBS_spec rng 32 Hm ltac:(lia)) as (seed & Hseed & Hseedl & Hseedb).
  destruct (OAEP_block mBuf lHash seed label k HM Hseedb Hseedl HlH HlHl HlHb Hps)
    as (dbMask & seedMask & Hdb & Hsm & Hlen & Hbytes & Hdec).
  eexists. split; [|split; [exact Hlen|split; [|exact Hdec]]].
  - unfold OAEPEncode.
    destruct (Z.ltb_spec (k - Z.of_nat (length mBuf) - 2 * 32 - 2) 0); [lia|].
    rewrite (bind_lift_run _ _ _ _ HlH).
    rewrite (bind_run _ _ _ _ _ Hrng).
    rewrite (bind_lift_run _ _ _ _ Hseed).
    rewrite (bind_lift_run _ _ _ _ Hdb).
    rewrite (bind_lift_run _ _ _ _ Hsm).
    reflexivity.
  - inversion Hbytes; assumption.
Qed.

Section Encryption.

Variable key : PrivateKey.
Hypothesis key_valid : validKey key.

Local Abbreviation N := (n key).
Local Abbreviation K := (ceilDiv8 (bitLength (n key))).

Lemma decodeInteger_block (rest : Buffer) (text : jsstring) :
  Forall isByte rest -> Z.of_nat (length (0 :: rest)) = K ->
  OAEPDecode (0 :: rest) [] = Ok text ->
  decodeInteger (bytesValue (0 :: rest)) key = Ok text.
Proof.
  intros Hb Hlen Hdec. unfold decodeInteger. rewrite <- Hlen.
  rewrite leftPad_roundtrip; [exact Hdec| |discriminate].
  constructor; [unfold isByte; lia|exact Hb].
Qed.

(** What [encryptOAEP] returns once the seed generator has started. *)
Lemma encryptOAEP_run (message : jsstring) (w w1 : world) (rng : GenerateCryptoRandomNumber.t) :
  Forall isCodeUnit message ->
  Z.of_nat (length (Buffer_from_utf8 message)) <= K - 2 * 32 - 2 ->
  GenerateCryptoRandomNumber.initPRNG 64 w = Ok (rng, w1) ->
  exists rest c,
    encryptOAEP message (publicOf key) w = Ok (c, w1) /\
    Forall isByte rest /\ Z.of_nat (length (0 :: rest)) = K /\
    OAEPDecode (0 :: rest) [] = Ok (Buffer_toString_utf8 (Buffer_from_utf8 message)) /\
    0 <= c < N /\ c ^ d key mod N = bytesValue (0 :: rest).
Proof.
  intros HM Hfit Hrng. apply Buffer_from_utf8_bytes in HM.
  destruct (key_facts key key_valid) as (_ & _ & _ & _ & _ & _ & _ & _ & _ & _ & _ & _ & _ & HN).
  destruct (OAEPEncode_run (Buffer_from_utf8 message) [] K w w1 rng HM ltac:(constructor) ltac:(lia) Hrng)
    as (rest & Henc & Hlen & Hb & Hdec).
  pose proof (block_below_modulus rest N ltac:(lia) Hb Hlen) as Hm.
  destruct (public_private key key_valid _ Hm) as (c & Hc & Hcr & Hinv).
  exists rest, c. split; [|auto].
  unfold encryptOAEP. cbn [publicOf pub_n pub_e].
  rewrite (bind_run _ _ _ _ _ Henc).
  rewrite (bind_lift_run _ _ _ (bytesValue (0 :: rest))).
  - destruct (Z.leb_spec N (bytesValue (0 :: rest))); [lia|].
    rewrite Hc. reflexivity.
  - apply BigInt_of_buffer; [|discriminate].
    constructor; [unfold isByte; lia|exact Hb].
Qed.

Lemma blindingFactor_run (w w1 : world) (rng : GenerateCryptoRandomNumber.t) :
  GenerateCryptoRandomNumber.initPRNG 64 w = Ok (rng, w1) ->
  exists r, blindingFactor w = Ok (r, w1) /\ 3 <= r.
Proof.
  intros Hrng. destruct (initPRNG_modulus 64 w w1 rng Hrng) as [Hm _].
  destruct (nextNumber_ok rng Hm) as (v & rng' & Hv & Hv3 & _).
  exists v. unfold blindingFactor.
  rewrite (bind_run _ _ _ _ _ Hrng), (bind_lift_run _ _ _ _ Hv). cbn [fst].
  unfold ret. destruct (Z.eqb_spec v 0); [lia|]. auto.
Qed.

Lemma blindedPower_run (c : Z) (w w1 : world) (rng : GenerateCryptoRandomNumber.t) :
  0 <= c ->
  GenerateCryptoRandomNumber.initPRNG 64 w = Ok (rng, w1) ->
  blindedPower c key w = Ok (c ^ d key mod N, w1).
Proof.
  intros Hc Hrng. destruct (initPRNG_modulus 64 w w1 rng Hrng) as [Hm _].
  destruct (nextNumber_ok rng Hm) as (v & rng' & Hv & Hv3 & _).
  unfold blindedPower.
  rewrite (bind_run _ _ _ _ _ Hrng), (bind_lift_run _ _ _ _ Hv). cbn [fst].
  rewrite blinded_power; auto.
  apply Z.land_nonneg. right. lia.
Qed.

(** The four private operations on a ciphertext [c]. *)
Lemma four_decryptions (c : Z) (rest : Buffer) (text : jsstring) :
  0 <= c ->
  Forall isByte rest -> Z.of_nat (length (0 :: rest)) = K ->
  OAEPDecode (0 :: rest) [] = Ok text ->
  c ^ d key mod N = bytesValue (0 :: rest) ->
  decryptOAEP c key = Ok text /\
  decryptOAEPCRT c key = Ok text /\
  (forall w rng w1,
      GenerateCryptoRandomNumber.initPRNG 64 w = Ok (rng, w1) ->
      decryptOAEPBlinding c key w = Ok (text, w1)) /\
  (forall w rngp w1 rngq w2,
      GenerateCryptoRandomNumber.initPRNG 64 w = Ok (rngp, w1) ->
      GenerateCryptoRandomNumber.initPRNG 64 w1 = Ok (rngq, w2) ->
      decryptOAEPBlindingCRT c key w = Ok (text, w2)).
Proof.
  intros Hc Hb Hlen Hdec Hpow.
  pose proof (decodeInteger_block rest text Hb Hlen Hdec) as Hdi.
  split; [|split; [|split]].
  - unfold decryptOAEP. rewrite private_power by auto. cbn [bindR].
    rewrite Hpow. exact Hdi.
  - unfold decryptOAEPCRT.
    pose proof (crt_power_p key key_valid c 0 Hc ltac:(lia)) as Hp.
    pose proof (crt_power_q key key_valid c 0 Hc ltac:(lia)) as Hq.
    rewrite Z.mul_0_l, Z.add_0_r in Hp, Hq. rewrite Hp, Hq. cbn [bindR].
    rewrite crtCombine_spec by auto. rewrite Hpow. exact Hdi.
  - intros w rng w1 Hrng. unfold decryptOAEPBlinding.
    rewrite (bind_run _ _ _ _ _ (blindedPower_run c w w1 rng Hc Hrng)).
    rewrite Hpow, Hdi. reflexivity.
  - intros w rngp w1 rngq w2 Hrp Hrq. unfold decryptOAEPBlindingCRT.
    destruct (blindingFactor_run w w1 rngp Hrp) as (rp & Hbp & Hrp3).
    destruct (blindingFactor_run w1 w2 rngq Hrq) as (rq & Hbq & Hrq3).
    rewrite (bind_run _ _ _ _ _ Hbp), (bind_run _ _ _ _ _ Hbq).
    rewrite (crt_power_p key key_valid c rp Hc ltac:(lia)).
    rewrite (crt_power_q key key_valid c rq Hc ltac:(lia)).
    cbn [lift bind].
    rewrite crtCombine_spec by auto. rewrite Hpow, Hdi. reflexivity.
Qed.

(** Encryption followed by each of the four decryptions: the answer is
    the message as [Buffer.from] wrote it and [toString("utf8")] reads it. *)
Lemma encryptOAEP_then_decrypt (message : jsstring) (w w1 w2 w3 : world)
    (rng0 rng1 rng2 : GenerateCryptoRandomNumber.t) :
  Forall isCodeUnit message ->
  Z.of_nat (length (Buffer_from_utf8 message)) <= K - 2 * 32 - 2 ->
  GenerateCryptoRandomNumber.initPRNG 64 w = Ok (rng0, w1) ->
  GenerateCryptoRandomNumber.initPRNG 64 w1 = Ok (rng1, w2) ->
  GenerateCryptoRandomNumber.initPRNG 64 w2 = Ok (rng2, w3) ->
  let text := Buffer_toString_utf8 (Buffer_from_utf8 message) in
  exists c,
    encryptOAEP message (publicOf key) w = Ok (c, w1) /\
    decryptOAEP c key = Ok text /\
    decryptOAEPCRT c key = Ok text /\
    decryptOAEPBlinding c key w1 = Ok (text, w2) /\
    decryptOAEPBlindingCRT c key w1 = Ok (text, w3).
Proof.
  intros HM Hfit H0 H1 H2 text.
  destruct (encryptOAEP_run message w w1 rng0 HM Hfit H0)
    as (rest & c & Henc & Hb & Hlen & Hdec & Hc & Hpow).
  destruct (four_decryptions c rest text ltac:(lia) Hb Hlen Hdec Hpow)
    as (Hd1 & Hd2 & Hd3 & Hd4).
  exists c. split; [exact Henc|]. split; [exact Hd1|]. split; [exact Hd2|].
  split; [exact (Hd3 w1 rng1 w2 H1)|exact (Hd4 w1 rng1 w2 rng2 w3 H1 H2)].
Qed.

End Encryption.

(** ** PSS *)

Lemma mask_twice (a b m : Z) :
  Z.land (Z.lxor (Z.land (Z.lxor a b) m) b) m = Z.land a m.
Proof.
  apply Z.bits_inj'. intros i Hi.
  rewrite !Z.land_spec, !Z.lxor_spec, !Z.land_spec, !Z.lxor_spec.
  destruct (Z.testbit a i), (Z.testbit b i), (Z.testbit m i); reflexivity.
Qed.

(** [0xFF >> u] keeps the low [8 - u] bits. *)
Lemma topMask_ones (u : Z) : 0 < u <= 7 -> topMask u = Z.ones (8 - u).
Proof.
  intros Hu. unfold topMask.
  assert (H : u = 1 \/ u = 2 \/ u = 3 \/ u = 4 \/ u = 5 \/ u = 6 \/ u = 7) by lia.
  destruct H as [->|[->|[->|[->|[->|[->| ->]]]]]]; reflexivity.
Qed.

Lemma maskFirst_length (buf : Buffer) (mask : Z) : length (maskFirst buf mask) = length buf.
Proof. destruct buf; reflexivity. Qed.

Lemma maskFirst_bytes (buf : Buffer) (mask : Z) :
  0 <= mask -> Forall isByte buf -> Forall isByte (maskFirst buf mask).
Proof.
  intros Hm Hb. destruct Hb as [|x buf Hx Hb]; [constructor|].
  cbn [maskFirst]. constructor; [|exact Hb]. unfold isByte in *.
  split; [apply Z.land_nonneg; lia|].
  destruct (Z.eq_dec (Z.land x mask) 0) as [->|Hnz]; [lia|].
  assert (0 <= Z.land x mask) by (apply Z.land_nonneg; lia).
  change 256 with (2 ^ 8). apply Z.log2_lt_pow2; [lia|].
  pose proof (Z.log2_land x mask ltac:(lia) Hm).
  assert (Z.log2 x < 8).
  { destruct (Z.eq_dec x 0) as [->|]; [cbn; lia|]. apply Z.log2_lt_pow2; lia. }
  lia.
Qed.

(** Unmasking a masked data block whose first byte is 0 or 1 restores it,
    whether or not the top bits were cleared on the way. *)
Lemma unmask_block (DB dbMask : Buffer) (mask : Z) (x0 : Z) (tl0 : Buffer) :
  DB = x0 :: tl0 -> Z.land x0 mask = x0 ->
  maskFirst (xorBytes (length DB) (maskFirst (xorBytes (length DB) DB dbMask) mask) dbMask) mask
  = DB.
Proof.
  intros HDB Hx0.
  apply nth_ext with (d := 0) (d' := 0).
  - rewrite maskFirst_length, xorBytes_length. reflexivity.
  - intros i Hi. rewrite maskFirst_length, xorBytes_length in Hi.
    assert (Hlen : (0 < length DB)%nat) by lia.
    assert (Hnth_mask : forall (b : Buffer) (j : nat),
               nth j (maskFirst b mask) 0
               = if Nat.eqb j 0 then Z.land (nth 0 b 0) mask else nth j b 0).
    { intros [|y b] [|j]; cbn; try reflexivity. }
    rewrite Hnth_mask. destruct (Nat.eqb_spec i 0) as [->|Hi0].
    + rewrite xorBytes_nth by exact Hlen. rewrite Hnth_mask. cbn [Nat.eqb].
      rewrite xorBytes_nth by exact Hlen. rewrite mask_twice.
      rewrite HDB. cbn [nth]. exact Hx0.
    + rewrite xorBytes_nth by exact Hi. rewrite Hnth_mask.
      destruct (Nat.eqb_spec i 0); [contradiction|].
      rewrite xorBytes_nth by exact Hi.
      rewrite Z.lxor_assoc, Z.lxor_nilpotent, Z.lxor_0_r. reflexivity.
Qed.

Lemma masked_head (masked0 : Buffer) (u : Z) :
  0 <= u <= 7 -> Forall isByte masked0 -> (0 < length masked0)%nat ->
  exists x tl0,
    (if 0 <? u then maskFirst masked0 (topMask u) else masked0) = x :: tl0 /\
    0 <= x < 2 ^ (8 - u) /\ Forall isByte tl0.
Proof.
  intros Hu Hb Hl. destruct Hb as [|y m0 Hy Hm0]; [cbn in Hl; lia|].
  destruct (Z.ltb_spec 0 u) as [Hu'|Hu'].
  - exists (Z.land y (topMask u)), m0. split; [reflexivity|]. split; [|exact Hm0].
    rewrite topMask_ones by lia. rewrite Z.land_ones by lia.
    apply Z.mod_pos_bound. apply Z.pow_pos_nonneg; lia.
  - exists y, m0. split; [reflexivity|]. split; [|exact Hm0].
    replace (8 - u) with 8 by lia. exact Hy.
Qed.

Lemma findSeparator_zeros (k : nat) (rest : Buffer) (i : nat) :
  findSeparator (repeat 0 k ++ 1 :: rest) i = Ok (i + k)%nat.
Proof.
  revert i. induction k as [|k IH]; intros i.
  - cbn. f_equal. lia.
  - cbn [repeat app findSeparator]. change (0 =? 1) with false. change (0 =? 0) with true.
    cbn [negb]. rewrite IH. f_equal. lia.
Qed.

Lemma drawSalt_spec (turns : nat) :
  forall rng, BlumBlumShub.m (GenerateCryptoRandomNumber.prng rng) <> 0 ->
    exists salt, drawSalt turns rng = Ok salt /\ length salt = turns /\ Forall isByte salt.
Proof.
  induction turns as [|turns IH]; intros rng Hm; cbn [drawSalt].
  - exists []. auto.
  - destruct (nextNumber_ok rng Hm) as (v & rng' & -> & _ & Hm' & _). cbn [bindR].
    destruct (IH rng' ltac:(congruence)) as (salt & -> & Hl & Hb). cbn [bindR].
    eexists. split; [reflexivity|]. split; [cbn; lia|].
    constructor; [apply land_255_range|exact Hb].
Qed.

Lemma hex_digest_bytes (hashHex : jsstring) :
  length hashHex = 64%nat -> forallb isHexDigit hashHex = true ->
  length (Buffer_from_hex hashHex) = 32%nat /\ Forall isByte (Buffer_from_hex hashHex).
Proof.
  intros Hl Hd. destruct (Buffer_from_hex_spec 32 hashHex Hl) as (H1 & H2 & _); [|auto].
  apply Forall_forall. intros c Hc. apply isHexDigit_digit.
  rewrite forallb_forall in Hd. auto.
Qed.

(** The encoded message [emsaPSSencode] builds: [emLen] bytes, below
    [2 ^ emBits], and accepted by [emsaPSSverify] for the same hash. *)
Lemma emsaPSS_round_trip (hashHex : jsstring) (emLen emBits : Z) (w w1 : world)
    (rngq : GenerateCryptoRandomNumber.t) :
  length hashHex = 64%nat -> forallb isHexDigit hashHex = true ->
  66 <= emLen -> 0 <= 8 * emLen - emBits <= 7 ->
  GenerateCryptoRandomNumber.initPRNG (32 * 8) w = Ok (rngq, w1) ->
  exists EM,
    emsaPSSencode (Some hashHex) emLen emBits w = Ok (EM, w1) /\
    Z.of_nat (length EM) = emLen /\ Forall isByte EM /\
    bytesValue EM < 2 ^ emBits /\
    emsaPSSverify (Some hashHex) EM emBits = Ok true.
Proof.
  intros Hhl Hhd HemLen Hunused Hrng.
  destruct (hex_digest_bytes hashHex Hhl Hhd) as [HmHl HmHb].
  set (mHash := Buffer_from_hex hashHex) in *.
  destruct (initPRNG_modulus _ w w1 rngq Hrng) as [Hm _].
  destruct (drawSalt_spec 32 rngq Hm) as (salt & Hsalt & Hsl & Hsb).
  set (M := Buffer_alloc 8 ++ mHash ++ salt).
  assert (HMb : Forall (fun c => 0 <= c <= 255) (Buffer_toString_latin1 M)).
  { unfold Buffer_toString_latin1, M. apply Forall_app. split.
    - apply Forall_forall. intros x Hx. apply repeat_spec in Hx. lia.
    - apply Forall_app. split; (eapply Forall_impl; [|eassumption]);
        unfold isByte; intros; lia. }
  destruct (hash_of_latin1 _ HMb) as (H & HH & HHl & HHb).
  set (psLen := emLen - 32 - 32 - 2).
  set (DB := Buffer_alloc psLen ++ [1] ++ salt).
  assert (HDBl : Z.of_nat (length DB) = emLen - 33).
  { unfold DB, Buffer_alloc, psLen. rewrite !length_app, repeat_length, Hsl. cbn [length]. lia. }
  assert (HDBb : Forall isByte DB).
  { unfold DB. apply Forall_app. split.
    - apply Forall_forall. intros x Hx. apply repeat_spec in Hx. unfold isByte. lia.
    - constructor; [unfold isByte; lia|exact Hsb]. }
  destruct (MGF1_spec H (Z.of_nat (length DB)) HHb ltac:(lia)) as (dbMask & HdbMask & Hdml & Hdmb).
  set (masked0 := xorBytes (length DB) DB dbMask).
  set (u := 8 * emLen - emBits).
  assert (Hu7 : 0 <= u <= 7) by (unfold u; lia).
  assert (HemBits : emBits = 8 * emLen - u) by (unfold u; lia).
  set (maskedDB := if 0 <? u then maskFirst masked0 (topMask u) else masked0).
  assert (Hmask_nonneg : 0 <= topMask u).
  { unfold topMask. apply Z.shiftr_nonneg. lia. }
  assert (Hm0b : Forall isByte masked0) by (apply xorBytes_bytes; auto).
  assert (HmDBl : length maskedDB = length DB).
  { unfold maskedDB. destruct (0 <? u); rewrite ?maskFirst_length; apply xorBytes_length. }
  assert (HmDBb : Forall isByte maskedDB).
  { unfold maskedDB. destruct (0 <? u); [apply maskFirst_bytes|]; auto. }
  set (EM := maskedDB ++ H ++ [188]).
  assert (HEMl : Z.of_nat (length EM) = emLen).
  { unfold EM. rewrite !length_app, HmDBl, HHl. cbn [length]. lia. }
  assert (HEMb : Forall isByte EM).
  { unfold EM. apply Forall_app. split; [exact HmDBb|]. apply Forall_app. split; [exact HHb|].
    constructor; [unfold isByte; lia|constructor]. }
  exists EM. split; [|split; [exact HEMl|split; [exact HEMb|split]]].
  - (* the run of the encoder *)
    unfold emsaPSSencode.
    destruct (Z.ltb_spec emLen (32 + 32 + 2)); [lia|].
    cbn [hashToBuffer]. rewrite (bind_lift_run _ _ _ mHash eq_refl).
    rewrite (bind_run _ _ _ _ _ Hrng).
    change (Z.to_nat 32) with 32%nat. rewrite (bind_lift_run _ _ _ _ Hsalt).
    fold M. rewrite (bind_lift_run _ _ _ _ HH).
    fold psLen. destruct (Z.ltb_spec psLen 0); [unfold psLen in *; lia|].
    fold DB. rewrite (bind_lift_run _ _ _ _ HdbMask).
    fold masked0. fold u. fold maskedDB. fold EM.
    rewrite HEMl, Z.eqb_refl. reflexivity.
  - (* the integer it spells has at most emBits bits *)
    assert (Hne : exists x tl0, maskedDB = x :: tl0 /\ 0 <= x < 2 ^ (8 - u) /\ Forall isByte tl0).
    { apply masked_head; auto. unfold masked0. rewrite xorBytes_length. lia. }
    destruct Hne as (x & tl0 & E & Hx & Htl). unfold EM. rewrite E. cbn [app].
    rewrite bytesValue_cons.
    assert (Hrest : Forall isByte (tl0 ++ H ++ [188])).
    { apply Forall_app. split; [exact Htl|]. apply Forall_app. split; [exact HHb|].
      constructor; [unfold isByte; lia|constructor]. }
    pose proof (bytesValue_range _ Hrest) as Hr.
    assert (Hlen : Z.of_nat (length (tl0 ++ H ++ [188])) = emLen - 1).
    { unfold EM in HEMl. rewrite E in HEMl. cbn [app length] in HEMl. lia. }
    rewrite Hlen in *. rewrite pow256 in * by lia.
    replace emBits with ((8 - u) + 8 * (emLen - 1)) by lia.
    rewrite Z.pow_add_r by lia. nia.
  - (* the verifier accepts it *)
    unfold emsaPSSverify.
    assert (HEMn : length EM = (length DB + 32 + 1)%nat).
    { unfold EM. rewrite !length_app, HmDBl, HHl. cbn [length]. lia. }
    destruct (Nat.ltb_spec (length EM) (32 + 2)); [lia|].
    assert (Hlast : nth (length EM - 1) EM 0 = 188).
    { rewrite HEMn. unfold EM.
      rewrite app_nth2 by (rewrite HmDBl; lia).
      rewrite app_nth2 by (rewrite HmDBl, HHl; lia).
      rewrite HmDBl, HHl.
      replace (length DB + 32 + 1 - 1 - length DB - 32)%nat with 0%nat by lia.
      reflexivity. }
    rewrite Hlast.
    change (188 =? 188) with true. cbn [negb hashToBuffer bindR]. fold mHash.
    assert (Hcut : (length EM - 32 - 1)%nat = length maskedDB) by lia.
    assert (Hfirst : firstn (length maskedDB) EM = maskedDB).
    { unfold EM. rewrite firstn_app, firstn_all, Nat.sub_diag, firstn_O, app_nil_r. reflexivity. }
    assert (Hskip : firstn 32 (skipn (length maskedDB) EM) = H).
    { unfold EM. rewrite skipn_app, skipn_all, Nat.sub_diag, skipn_O. cbn [app].
      rewrite firstn_app, <- HHl, firstn_all, Nat.sub_diag, firstn_O, app_nil_r. reflexivity. }
    rewrite Hcut, Hfirst, Hskip, HmDBl, HdbMask. cbn [bindR].
    rewrite HEMl. fold u.
    set (DB' := if 0 <? u
                then maskFirst (xorBytes (length DB) maskedDB dbMask) (topMask u)
                else xorBytes (length DB) maskedDB dbMask).
    assert (HDB' : DB' = DB).
    { unfold DB', maskedDB. destruct (Z.ltb_spec 0 u) as [Hu|Hu].
      - unfold masked0.
        destruct DB as [|x0 tl0] eqn:EDB; [cbn in HDBl; lia|].
        rewrite <- EDB. apply (unmask_block DB dbMask (topMask u) x0 tl0 EDB).
        rewrite topMask_ones by lia.
        assert (Hx0 : x0 = 0 \/ x0 = 1).
        { unfold DB, Buffer_alloc in EDB.
          destruct (Z.to_nat psLen); cbn in EDB; injection EDB as <- _; auto. }
        rewrite Z.land_ones by lia.
        apply Z.mod_small. split; [lia|].
        assert (2 ^ 1 <= 2 ^ (8 - u)) by (apply Z.pow_le_mono_r; lia).
        change (2 ^ 1) with 2 in *. lia.
      - unfold masked0. apply xorBytes_involutive. }
    fold DB'. rewrite HDB'.
    assert (HDBeq : DB = repeat 0 (Z.to_nat psLen) ++ 1 :: salt) by reflexivity.
    rewrite HDBeq, findSeparator_zeros. cbn [bindR Nat.add].
    rewrite skipn_app, repeat_length.
    replace (skipn (Z.to_nat psLen + 1) (repeat 0 (Z.to_nat psLen))) with (@nil Z)
      by (symmetry; apply skipn_all2; rewrite repeat_length; lia).
    replace (Z.to_nat psLen + 1 - Z.to_nat psLen)%nat with 1%nat by lia.
    cbn [app skipn]. rewrite Hsl. cbn [Nat.eqb negb].
    fold M. rewrite HH. cbn [bindR]. rewrite jsstring_eqb_refl. reflexivity.
Qed.

(** ** Signatures *)

Lemma modPow_nonneg (base exp m : Z) :
  0 <= base -> 0 < m -> 0 <= modPow_nz base exp m.
Proof.
  intros Hb Hm. destruct (Z.le_gt_cases exp 0) as [He|He].
  - rewrite modPow_nz_nonpos by exact He. lia.
  - rewrite modPow_nz_spec by lia. apply Z.mod_pos_bound. exact Hm.
Qed.

Lemma Forall_zeros_bytes (k : nat) : Forall isByte (repeat 0 k).
Proof. apply Forall_forall. intros x Hx. apply repeat_spec in Hx. unfold isByte. lia. Qed.

Lemma firstn_skipn_bytes (b : Buffer) (i k : nat) :
  Forall isByte b -> Forall isByte (firstn k (skipn i b)).
Proof. intros Hb. apply Forall_firstn_bytes, Forall_skipn_bytes, Hb. Qed.

Lemma findSeparator_answers (DB : Buffer) :
  forall i, findSeparator DB i <> OutOfFuel.
Proof.
  induction DB as [|x DB IH]; intros i; cbn [findSeparator]; [discriminate|].
  destruct (x =? 1); [discriminate|]. destruct (negb (x =? 0)); [discriminate|]. apply IH.
Qed.

(** [emsaPSSverify] never runs out of fuel on a buffer of bytes: it
    answers or throws. *)
Lemma emsaPSSverify_answers (mHashHex : option jsstring) (EM : Buffer) (emBits : Z) :
  Forall isByte EM -> emsaPSSverify mHashHex EM emBits <> OutOfFuel.
Proof.
  intros HEM. unfold emsaPSSverify.
  destruct (length EM <? 32 + 2)%nat; [discriminate|].
  destruct (negb _); [discriminate|].
  destruct mHashHex as [hex|]; cbn [hashToBuffer bindR]; [|discriminate].
  destruct (MGF1_spec (firstn 32 (skipn (length EM - 32 - 1) EM))
              (Z.of_nat (length (firstn (length EM - 32 - 1) EM)))
              (firstn_skipn_bytes EM _ _ HEM) ltac:(lia)) as (dbMask & -> & _).
  cbn [bindR].
  destruct (findSeparator _ 0) as [idx|ex|] eqn:Hsep; cbn [bindR]; [|discriminate|].
  - destruct (negb _); [discriminate|].
    destruct (hashToBuffer _) as [Hp|ex|] eqn:Hh; cbn [bindR]; [|discriminate|].
    + destruct (negb _); discriminate.
    + exfalso. unfold hashToBuffer in Hh. destruct (Hash.sha256 _); discriminate.
  - exfalso. exact (findSeparator_answers _ _ Hsep).
Qed.

(** [verifyPSS] on a non-negative signature and a positive modulus: the
    only exception that escapes is the one thrown before the [try]. *)
Lemma verifyPSS_outcome (signature : Z) (publicKey : PublicKey) (message : jsstring) :
  0 <= signature -> 0 < pub_n publicKey ->
  let k := ceilDiv8 (bitLength (pub_n publicKey) - 1) in
  let m := modPow_nz signature (pub_e publicKey) (pub_n publicKey) in
  if k <? Z.of_nat (length (bigintToBuffer m))
  then verifyPSS signature publicKey message = Throw PSSTooLongInVerify
  else exists b, verifyPSS signature publicKey message = Ok b.
Proof.
  intros Hs Hn k m. unfold verifyPSS, modPow.
  destruct (Z.eqb_spec (pub_n publicKey) 0) as [E|_]; [lia|]. cbn [bindR].
  fold m. fold k.
  destruct (k <? Z.of_nat (length (bigintToBuffer m))); [reflexivity|].
  assert (Hm : 0 <= m) by (apply modPow_nonneg; lia).
  destruct (bigintToBuffer_spec m Hm) as (Hb & _).
  assert (HEM : Forall isByte (Buffer_alloc (k - Z.of_nat (length (bigintToBuffer m)))
                                 ++ bigintToBuffer m)).
  { apply Forall_app. split; [apply Forall_zeros_bytes|exact Hb]. }
  pose proof (emsaPSSverify_answers (Hash.sha256 message) _ (bitLength (pub_n publicKey) - 1) HEM)
    as Hans.
  destruct (emsaPSSverify _ _ _) as [b|ex|]; [exists b|exists false|contradiction]; reflexivity.
Qed.

(** Only the length test stands between a multiple-of-eight [emBits] and
    the exception: with [(bitLength n - 1) mod 8 <> 0] nothing is thrown. *)
Lemma verifyPSS_fits (signature : Z) (publicKey : PublicKey) :
  0 <= signature -> 1 < pub_n publicKey ->
  (bitLength (pub_n publicKey) - 1) mod 8 <> 0 ->
  let k := ceilDiv8 (bitLength (pub_n publicKey) - 1) in
  let m := modPow_nz signature (pub_e publicKey) (pub_n publicKey) in
  (k <? Z.of_nat (length (bigintToBuffer m))) = false.
Proof.
  intros Hs Hn Hmod k m.
  pose proof (modPow_nz_range signature (pub_e publicKey) (pub_n publicKey) Hs Hn) as Hm.
  fold m in Hm.
  pose proof (bitLength_bounds (pub_n publicKey) ltac:(lia)) as HL.
  pose proof (bitLength_pos (pub_n publicKey) ltac:(lia)) as HLp.
  pose proof (Z.log2_nonneg (pub_n publicKey)) as Hlog.
  set (L := bitLength (pub_n publicKey)) in *.
  assert (Hk : 8 * k >= L).
  { unfold k, ceilDiv8. pose proof (Z.div_mod (L - 1) 8 ltac:(lia)) as D1.
    pose proof (Z.div_mod (L - 1 + 7) 8 ltac:(lia)) as D2.
    pose proof (Z.mod_pos_bound (L - 1) 8 ltac:(lia)).
    pose proof (Z.mod_pos_bound (L - 1 + 7) 8 ltac:(lia)). lia. }
  assert (Hk1 : 1 <= k) by lia.
  apply Z.ltb_ge.
  assert (Hlen : (length (bigintToBuffer m) <= Z.to_nat k)%nat).
  { apply bigintToBuffer_length; [|lia]. rewrite Z2Nat.id by lia. rewrite pow256 by lia.
    split; [lia|]. apply Z.lt_le_trans with (2 ^ L); [lia|].
    apply Z.pow_le_mono_r; lia. }
  lia.
Qed.

Section Signatures.

Variable key : PrivateKey.
Hypothesis key_valid : validKey key.

Local Abbreviation N := (n key).
Local Abbreviation emBits := (bitLength (n key) - 1).
Local Abbreviation emLen := (ceilDiv8 (bitLength (n key) - 1)).

(** A Latin-1 message signed with a key of at least 66 encoded bytes
    verifies. *)
Lemma sign_then_verify (message : jsstring) (w w1 : world)
    (rngq : GenerateCryptoRandomNumber.t) :
  Forall (fun c => 0 <= c <= 255) message ->
  66 <= emLen ->
  GenerateCryptoRandomNumber.initPRNG (32 * 8) w = Ok (rngq, w1) ->
  exists s,
    signPSS message key w = Ok (s, w1) /\ 0 <= s < N /\
    verifyPSS s (publicOf key) message = Ok true.
Proof.
  intros Hmsg Hlen Hrng.
  destruct (key_facts key key_valid) as (_ & _ & _ & _ & _ & _ & _ & _ & _ & _ & _ & _ & _ & HN).
  destruct (sha256_latin1 message Hmsg) as (hashHex & Hhash & Hhl & Hhd).
  pose proof (ceilDiv8_bounds emBits) as Hceil.
  destruct (emsaPSS_round_trip hashHex emLen emBits w w1 rngq Hhl Hhd Hlen ltac:(lia) Hrng)
    as (EM & Henc & HEMl & HEMb & HEMv & Hver).
  assert (HEMne : EM <> []) by (intros ->; cbn in HEMl; lia).
  pose proof (bitLength_bounds N ltac:(lia)) as HL.
  pose proof (bytesValue_range EM HEMb) as Hrange.
  assert (Hm : 0 <= bytesValue EM < N) by lia.
  destruct (private_public key key_valid _ Hm) as (s & Hs & Hsr & Hback).
  exists s. split; [|split; [exact Hsr|]].
  - unfold signPSS. rewrite Hhash. rewrite (bind_run _ _ _ _ _ Henc).
    rewrite HEMl, Z.eqb_refl. cbn [negb]. unfold ret at 1. cbn [bind].
    rewrite (bind_lift_run _ _ _ _ (BigInt_of_buffer EM HEMb HEMne)).
    destruct (Z.leb_spec N (bytesValue EM)); [lia|].
    unfold lift. rewrite Hs. reflexivity.
  - unfold verifyPSS. cbn [publicOf pub_e pub_n]. rewrite Hback. cbn [bindR].
    destruct (buffer_roundtrip EM HEMb HEMne) as [Hle Hpad].
    rewrite <- HEMl.
    destruct (Z.ltb_spec (Z.of_nat (length EM)) (Z.of_nat (length (bigintToBuffer (bytesValue EM)))));
      [lia|].
    unfold Buffer_alloc.
    replace (Z.to_nat (Z.of_nat (length EM) - Z.of_nat (length (bigintToBuffer (bytesValue EM)))))
      with (length EM - length (bigintToBuffer (bytesValue EM)))%nat by lia.
    rewrite Hpad, Hhash, Hver. reflexivity.
Qed.

(** What [signPSS] does with a message [Hash.sha256] has no digest for. *)
Lemma signPSS_undefined_hash (message : jsstring) (w : world) :
  Hash.sha256 message = None -> 66 <= emLen ->
  signPSS message key w = Throw TypeError.
Proof.
  intros Hhash Hlen. unfold signPSS, emsaPSSencode. rewrite Hhash.
  destruct (Z.ltb_spec emLen (32 + 32 + 2)); [lia|]. reflexivity.
Qed.

(** ... and with a modulus too short for hash, salt and the two fixed bytes. *)
Lemma signPSS_short_modulus (message : jsstring) (w : world) :
  emLen < 66 -> signPSS message key w = Throw PSSEncodingTooShort.
Proof.
  intros Hlen. unfold signPSS, emsaPSSencode.
  destruct (Z.ltb_spec emLen (32 + 32 + 2)); [|lia]. reflexivity.
Qed.

End Signatures.

(** ** Certified primes *)

Lemma prime_factor_bounded (k : nat) :
  forall n, (Z.to_nat n <= k)%nat -> 1 < n -> exists p, Z.prime p /\ (p | n) /\ p <= n.
Proof.
  induction k as [|k IH]; intros n Hk Hn; [lia|].
  destruct (prime_dec n) as [Hp|Hnp].
  - exists n. split; [apply prime_alt; exact Hp|]. split; [apply Z.divide_refl|lia].
  - destruct (not_prime_divide n Hn Hnp) as (d & Hd & Hdn).
    destruct (IH d ltac:(lia) ltac:(lia)) as (p & Hp & Hpd & Hle).
    exists p. split; [exact Hp|]. split; [|lia].
    apply Z.divide_trans with d; assumption.
Qed.

Lemma prime_factor (n : Z) : 1 < n -> exists p, Z.prime p /\ (p | n) /\ p <= n.
Proof. apply (prime_factor_bounded (Z.to_nat n)). lia. Qed.

(** A composite number has a prime factor up to its square root. *)
Lemma small_prime_factor (n : Z) :
  1 < n -> ~ Z.prime n -> exists p, Z.prime p /\ (p | n) /\ p * p <= n.
Proof.
  intros Hn Hnp. rewrite prime_alt in Hnp.
  destruct (not_prime_divide n Hn Hnp) as (d & Hd & [m Hm]).
  assert (Hm1 : 1 < m < n) by nia.
  destruct (Z.le_gt_cases d m) as [Hle|Hgt].
  - destruct (prime_factor d ltac:(lia)) as (p & Hp & Hpd & Hpl).
    pose proof (Z.prime_ge_2 _ Hp).
    exists p. split; [exact Hp|]. split; [|nia].
    apply Z.divide_trans with d; [exact Hpd|]. exists m. exact Hm.
  - destruct (prime_factor m ltac:(lia)) as (p & Hp & Hpm & Hpl).
    pose proof (Z.prime_ge_2 _ Hp).
    exists p. split; [exact Hp|]. split; [|nia].
    apply Z.divide_trans with m; [exact Hpm|]. exists d. lia.
Qed.

Lemma trialDivision_sound (fuel : nat) :
  forall d n, 0 < d -> trialDivision fuel d n = true ->
              forall x, d <= x -> x * x <= n -> n mod x <> 0.
Proof.
  induction fuel as [|fuel IH]; intros d n Hd Ht x Hx Hxx; cbn [trialDivision] in Ht;
    [discriminate|].
  destruct (Z.ltb_spec n (d * d)) as [Hlt|Hge]; [nia|].
  destruct (Z.eqb_spec (n mod d) 0) as [Hz|Hnz]; [discriminate|].
  destruct (Z.eq_dec x d) as [->|Hne]; [exact Hnz|].
  apply (IH (d + 1) n); auto; lia.
Qed.

Lemma trialDivision_prime (fuel : nat) (n : Z) :
  1 < n -> trialDivision fuel 2 n = true -> Z.prime n.
Proof.
  intros Hn Ht. destruct (prime_dec n) as [Hp|Hnp]; [apply prime_alt; exact Hp|].
  exfalso. rewrite <- prime_alt in Hnp.
  destruct (small_prime_factor n Hn Hnp) as (p & Hp & Hpn & Hpp).
  pose proof (Z.prime_ge_2 _ Hp).
  apply (trialDivision_sound fuel 2 n ltac:(lia) Ht p); [lia|exact Hpp|].
  apply Z.mod_divide; [lia|exact Hpn].
Qed.

(** Exponents that agree with 1 combine: the power at the greatest common
    divisor of two such exponents is 1 as well. *)
Lemma pow_gcd_one (a P s t : Z) :
  1 < P -> 0 < s -> 0 < t ->
  a ^ s mod P = 1 -> a ^ t mod P = 1 -> a ^ Z.gcd s t mod P = 1.
Proof.
  intros HP Hs Ht Has Hat.
  destruct (Z.gcd_bezout s t _ eq_refl) as (u & v & Huv).
  pose proof (Z.gcd_nonneg s t) as Hg.
  set (g := Z.gcd s t) in *.
  set (k := Z.abs u + Z.abs v).
  assert (Hu' : 0 <= u + k * t) by (unfold k; nia).
  assert (Hv' : 0 <= k * s - v) by (unfold k; nia).
  assert (E : (u + k * t) * s = g + (k * s - v) * t) by lia.
  assert (H1 : a ^ ((u + k * t) * s) mod P = 1).
  { rewrite Z.mul_comm, Z.pow_mul_r by lia. apply pow_mod_one; auto. }
  rewrite E, Z.pow_add_r in H1 by nia.
  rewrite <- Z.mul_mod_idemp_r in H1 by lia.
  rewrite (Z.mul_comm (k * s - v) t), Z.pow_mul_r in H1 by lia.
  rewrite (pow_mod_one (a ^ t) (k * s - v) P) in H1 by auto.
  rewrite Z.mul_1_r in H1. exact H1.
Qed.

(** Pocklington's criterion with one prime [q] above the square root. *)
Lemma pocklington_prime (N q R a : Z) :
  Z.prime q -> pocklington N q R a = true -> Z.prime N.
Proof.
  intros Hq Hc. unfold pocklington in Hc.
  repeat (apply andb_prop in Hc; destruct Hc as [Hc ?]).
  repeat match goal with
         | H : (_ <? _) = true |- _ => apply Z.ltb_lt in H
         | H : (_ =? _) = true |- _ => apply Z.eqb_eq in H
         end.
  pose proof (Z.prime_ge_2 _ Hq) as Hq2.
  assert (HN : 1 < N) by nia.
  rename H into Hgcd. rename H0 into Hfer. rename H1 into Ha. rename H2 into Hsq.
  rename H3 into HNeq. rename Hc into HR.
  rewrite modPow_nz_spec in Hfer by lia.
  rewrite modPow_nz_spec in Hgcd by lia.
  destruct (prime_dec N) as [Hp|Hnp]; [apply prime_alt; exact Hp|].
  exfalso. rewrite <- prime_alt in Hnp.
  destruct (small_prime_factor N HN Hnp) as (P & HP & HPN & HPP).
  pose proof (Z.prime_ge_2 _ HP) as HP2.
  (* modulo the factor P *)
  assert (HferP : a ^ (N - 1) mod P = 1).
  { rewrite <- (Z.mod_mod_divide _ N P) by exact HPN. rewrite Hfer. apply Z.mod_small. lia. }
  assert (HaP : a mod P <> 0).
  { intros Hz. rewrite <- Z.mod_pow_l, Hz, Z.pow_0_l, Z.mod_0_l in HferP by lia. discriminate. }
  pose proof (Z.fermat_nz P a HP HaP) as HfP.
  pose proof (pow_gcd_one a P (N - 1) (P - 1) ltac:(lia) ltac:(lia) ltac:(lia) HferP HfP) as Hg.
  set (g := Z.gcd (N - 1) (P - 1)) in *.
  assert (Hg1 : (g | N - 1)) by apply Z.gcd_divide_l.
  assert (Hg2 : (g | P - 1)) by apply Z.gcd_divide_r.
  assert (Hcases : (q | P - 1) \/ ~ (q | P - 1)).
  { destruct (Z.eq_dec ((P - 1) mod q) 0) as [Hz|Hnz].
    - left. apply Z.mod_divide; [lia|exact Hz].
    - right. intros Hd. apply Hnz. apply Z.mod_divide; [lia|exact Hd]. }
  destruct Hcases as [Hdiv|Hndiv].
  - (* q divides P - 1: P is above the square root *)
    apply Z.divide_pos_le in Hdiv; [|lia]. nia.
  - (* otherwise g divides R and a ^ R is 1 modulo P *)
    assert (Hqg : ~ (q | g)) by (intros Hqg; apply Hndiv; apply Z.divide_trans with g; auto).
    assert (Hco : Z.gcd g q = 1).
    { rewrite Z.gcd_comm. apply Z.coprime_prime_l; assumption. }
    assert (HgR : (g | R)).
    { apply Z.gauss with q; [|exact Hco]. replace (q * R) with (N - 1) by lia. exact Hg1. }
    destruct HgR as [j Hj].
    assert (Hgpos : 0 < g).
    { pose proof (Z.gcd_nonneg (N - 1) (P - 1)). fold g in H.
      destruct (Z.eq_dec g 0) as [E|]; [|lia]. rewrite E in Hj. lia. }
    assert (HaR : a ^ R mod P = 1).
    { rewrite Hj, Z.mul_comm, Z.pow_mul_r by nia. apply pow_mod_one; auto; nia. }
    assert (HPx : (P | a ^ R mod N - 1)).
    { apply Z.mod_divide; [lia|].
      rewrite <- Zminus_mod_idemp_l, (Z.mod_mod_divide _ N P) by exact HPN.
      rewrite HaR. reflexivity. }
    assert (HP1 : (P | 1)).
    { rewrite <- Hgcd. apply Z.gcd_greatest; assumption. }
    apply Z.divide_1_r_nonneg in HP1; lia.
Qed.

Lemma chain0_prime : Z.prime chain0.
Proof. apply (trialDivision_prime 600); [reflexivity|vm_compute; reflexivity]. Qed.

Lemma chain1_prime : Z.prime chain1.
Proof.
  apply (pocklington_prime chain1 chain0 222950 2 chain0_prime). vm_compute. reflexivity.
Qed.

Lemma chain2_prime : Z.prime chain2.
Proof.
  apply (pocklington_prime chain2 chain1 18576986538 2 chain1_prime). vm_compute. reflexivity.
Qed.

Lemma chain3_prime : Z.prime chain3.
Proof.
  apply (pocklington_prime chain3 chain2 165309853925596036344 2 chain2_prime).
  vm_compute. reflexivity.
Qed.

Lemma halfP_prime : Z.prime halfP.
Proof.
  apply (pocklington_prime halfP chain3 57266145400002447933142330987998638684230 2 chain3_prime).
  vm_compute. reflexivity.
Qed.

Lemma halfQ_prime : Z.prime halfQ.
Proof.
  apply (pocklington_prime halfQ chain3 59108677656630072631922255459094988670350 2 chain3_prime).
  vm_compute. reflexivity.
Qed.

Lemma exampleKey_p_prime : Z.prime (p exampleKey).
Proof.
  apply (pocklington_prime (p exampleKey) halfP 2 2 halfP_prime). vm_compute. reflexivity.
Qed.

Lemma exampleKey_q_prime : Z.prime (q exampleKey).
Proof.
  apply (pocklington_prime (q exampleKey) halfQ 2 2 halfQ_prime). vm_compute. reflexivity.
Qed.

Lemma exampleKey_invariants : keyInvariants (publicOf exampleKey) exampleKey.
Proof.
  unfold keyInvariants.
  repeat match goal with |- _ /\ _ => split end; try (vm_compute; reflexivity).
Qed.

Lemma exampleKey_valid : validKey exampleKey.
Proof.
  unfold validKey.
  split; [exact exampleKey_p_prime|]. split; [exact exampleKey_q_prime|].
  split; [vm_compute; reflexivity|]. split; [vm_compute; reflexivity|].
  split; [vm_compute; discriminate|]. exact exampleKey_invariants.
Qed.

Lemma exampleKey_size :
  bitLength (n exampleKey) = 547 /\ ceilDiv8 (bitLength (n exampleKey)) = 69 /\
  ceilDiv8 (bitLength (n exampleKey) - 1) = 69.
Proof. vm_compute. auto. Qed.

(** ** The concrete runs *)

Lemma generateKeys_run16 :
  generateKeys 3 16 world16 = Ok ((publicOf key16, key16), mkWorld oracle16 11).
Proof. vm_compute. reflexivity. Qed.

Lemma initPRNG_run64a :
  GenerateCryptoRandomNumber.initPRNG 64 (world64 0) = Ok (rng64a, world64 3).
Proof. vm_compute. reflexivity. Qed.

Lemma initPRNG_run64b :
  GenerateCryptoRandomNumber.initPRNG 64 (world64 3) = Ok (rng64b, world64 6).
Proof. vm_compute. reflexivity. Qed.

Lemma initPRNG_run64c :
  GenerateCryptoRandomNumber.initPRNG 64 (world64 6) = Ok (rng64c, world64 9).
Proof. vm_compute. reflexivity. Qed.

Lemma initPRNG_run256 :
  GenerateCryptoRandomNumber.initPRNG (32 * 8) (world256 0) = Ok (rng256, world256 3).
Proof. vm_compute. reflexivity. Qed.

Lemma product_not_prime (a b : Z) : 1 < a -> 1 < b -> ~ Z.prime (a * b).
Proof.
  intros Ha Hb Hp.
  destruct (Z.divide_prime_r a (a * b) Hp ltac:(exists b; ring)) as [E|[E|[E|E]]]; nia.
Qed.

Lemma forallb_latin1 (s : jsstring) :
  Forall (fun c => 0 <= c <= 65535) s ->
  if forallb (fun c => c <=? 255) s
  then Forall (fun c => 0 <= c <= 255) s
  else Exists (fun c => 255 < c) s.
Proof.
  induction 1 as [|c s Hc Hs IH]; cbn [forallb]; [constructor|].
  destruct (Z.leb_spec c 255); cbn [andb].
  - destruct (forallb _ s); [constructor; [lia|exact IH]|apply Exists_cons_tl; exact IH].
  - apply Exists_cons_hd. lia.
Qed.

(* ================================================================== *)
(** * Part IV: the claims                                              *)
(* ================================================================== *)

(** What [generateKeys] does establish of the factors: each passes the
    sixteen Miller-Rabin rounds and has the form [2 * c + 1] with
    [c mod 4 = 3]; nothing tests [c] itself for primality. *)
Lemma generateKeys_probable_primes (fuel : nat) (bits : Z) (w w' : world)
    (pub : PublicKey) (priv : PrivateKey) :
  generateKeys fuel bits w = Ok ((pub, priv), w') ->
  probablePrime2c1 (p priv) /\ probablePrime2c1 (q priv) /\ p priv <> q priv.
Proof.
  intros Hrun. destruct (generateKeys_spec fuel bits w w' pub priv Hrun) as (_ & Hp & Hq & Hne).
  auto.
Qed.

(** A key pair that [generateKeys] returns is a valid key as soon as its
    two factors, which passed Miller-Rabin, are prime. *)
Lemma generateKeys_validKey (fuel : nat) (bits : Z) (w w' : world)
    (pub : PublicKey) (priv : PrivateKey) :
  generateKeys fuel bits w = Ok ((pub, priv), w') ->
  Z.prime (p priv) -> Z.prime (q priv) ->
  pub = publicOf priv /\ validKey priv.
Proof.
  intros Hrun Hp Hq.
  destruct (generateKeys_spec fuel bits w w' pub priv Hrun)
    as (Hinv & (_ & cp & Hcp & Hcp4) & (_ & cq & Hcq & Hcq4) & Hne).
  assert (Hpub : pub = publicOf priv) by apply Hinv.
  split; [exact Hpub|]. unfold validKey. rewrite <- Hpub.
  pose proof (Z.prime_ge_2 _ Hp) as Hp2. pose proof (Z.prime_ge_2 _ Hq) as Hq2.
  assert (Hp3 : 2 < p priv) by lia.
  assert (Hq3 : 2 < q priv) by lia.
  split; [exact Hp|]. split; [exact Hq|]. split; [exact Hp3|]. split; [exact Hq3|].
  split; [exact Hne|exact Hinv].
Qed.

(** Claim C1 does not hold of the code, which misses the safe primes its
    header announces: [findPrimeRSA(true)] draws a candidate [c] and tests
    [2 * c + 1] only.  With 16-bit candidates and the entropy [oracle16],
    [generateKeys] returns p = 131071 = 2 * 65535 + 1, and
    65535 = 3 * 21845 is composite. *)
Theorem generateKeys_half_composite :
  generateKeys 3 16 world16 = Ok ((publicOf key16, key16), mkWorld oracle16 11) /\
  isPrimeMillerRabin (p key16) 16 = true /\
  p key16 = 2 * 65535 + 1 /\ (p key16 - 1) / 2 = 3 * 21845 /\
  ~ Z.prime ((p key16 - 1) / 2).
Proof.
  split; [exact generateKeys_run16|]. split; [vm_compute; reflexivity|].
  split; [reflexivity|]. split; [reflexivity|].
  change ((p key16 - 1) / 2) with (3 * 21845). apply product_not_prime; lia.
Qed.

(** Claim C2, as the code has it.  The plaintext is a string, which
    [Buffer.from] writes as UTF-8 and [toString("utf8")] reads back.  For
    a valid key and a string without a lone surrogate whose UTF-8 bytes
    number at most [k - 2 * 32 - 2], where [k] is the byte length of the
    modulus, [encryptOAEP] returns a ciphertext from which each of
    [decryptOAEP], [decryptOAEPCRT], [decryptOAEPBlinding] and
    [decryptOAEPBlindingCRT] recovers the string, once the 64-bit
    generators they start have found their primes. *)
Theorem encryptOAEP_four_decryptions (key : PrivateKey) (message : jsstring)
    (w w1 w2 w3 : world) (rng0 rng1 rng2 : GenerateCryptoRandomNumber.t) :
  validKey key ->
  Forall isCodeUnit message ->
  isWellFormed message = true ->
  Z.of_nat (length (Buffer_from_utf8 message)) <= ceilDiv8 (bitLength (n key)) - 2 * 32 - 2 ->
  GenerateCryptoRandomNumber.initPRNG 64 w = Ok (rng0, w1) ->
  GenerateCryptoRandomNumber.initPRNG 64 w1 = Ok (rng1, w2) ->
  GenerateCryptoRandomNumber.initPRNG 64 w2 = Ok (rng2, w3) ->
  exists c,
    encryptOAEP message (publicOf key) w = Ok (c, w1) /\
    decryptOAEP c key = Ok message /\
    decryptOAEPCRT c key = Ok message /\
    decryptOAEPBlinding c key w1 = Ok (message, w2) /\
    decryptOAEPBlindingCRT c key w1 = Ok (message, w3).
Proof.
  intros Hkey HM Hwf Hfit H0 H1 H2.
  pose proof (encryptOAEP_then_decrypt key Hkey message w w1 w2 w3 rng0 rng1 rng2
                HM Hfit H0 H1 H2) as Hrun.
  cbv zeta in Hrun. rewrite (utf8_round_trip message HM Hwf) in Hrun. exact Hrun.
Qed.

Lemma encryptOAEP_four_decryptions_witness :
  exists c,
    encryptOAEP [104; 233] (publicOf exampleKey) (world64 0) = Ok (c, world64 3) /\
    decryptOAEP c exampleKey = Ok [104; 233] /\
    decryptOAEPCRT c exampleKey = Ok [104; 233] /\
    decryptOAEPBlinding c exampleKey (world64 3) = Ok ([104; 233], world64 6) /\
    decryptOAEPBlindingCRT c exampleKey (world64 3) = Ok ([104; 233], world64 9).
Proof.
  apply (encryptOAEP_four_decryptions exampleKey [104; 233]
           (world64 0) (world64 3) (world64 6) (world64 9) rng64a rng64b rng64c).
  - exact exampleKey_valid.
  - repeat constructor; unfold isCodeUnit; lia.
  - reflexivity.
  - vm_compute. discriminate.
  - exact initPRNG_run64a.
  - exact initPRNG_run64b.
  - exact initPRNG_run64c.
Defined.

(** Claim C2 as stated fails: the string of the one code unit U+D800, a
    surrogate without its partner, is written as the three bytes of
    U+FFFD, which fit [k - 2 * 32 - 2 = 3] under the example key, and all
    four decryptions return the string U+FFFD instead. *)
Lemma encryptOAEP_lone_surrogate :
  validKey exampleKey /\
  Buffer_from_utf8 [55296] = [239; 191; 189] /\
  ceilDiv8 (bitLength (n exampleKey)) - 2 * 32 - 2 = 3 /\
  exists c,
    encryptOAEP [55296] (publicOf exampleKey) (world64 0) = Ok (c, world64 3) /\
    decryptOAEP c exampleKey = Ok [65533] /\
    decryptOAEPCRT c exampleKey = Ok [65533] /\
    decryptOAEPBlinding c exampleKey (world64 3) = Ok ([65533], world64 6) /\
    decryptOAEPBlindingCRT c exampleKey (world64 3) = Ok ([65533], world64 9).
Proof.
  split; [exact exampleKey_valid|]. split; [reflexivity|].
  split; [vm_compute; reflexivity|].
  apply (encryptOAEP_then_decrypt exampleKey exampleKey_valid [55296]
           (world64 0) (world64 3) (world64 6) (world64 9) rng64a rng64b rng64c).
  - repeat constructor; unfold isCodeUnit; lia.
  - vm_compute. discriminate.
  - exact initPRNG_run64a.
  - exact initPRNG_run64b.
  - exact initPRNG_run64c.
Qed.

(** Claim C3, as the code has it.  For a valid key whose encoded message
    has at least 66 bytes and a message whose code units are all at most
    255, [signPSS] returns a signature that [verifyPSS] accepts for the
    same message, once the 256-bit salt generator has found its primes. *)
Theorem signPSS_verifyPSS (key : PrivateKey) (message : jsstring) (w w1 : world)
    (rngq : GenerateCryptoRandomNumber.t) :
  validKey key ->
  Forall (fun c => 0 <= c <= 255) message ->
  66 <= ceilDiv8 (bitLength (n key) - 1) ->
  GenerateCryptoRandomNumber.initPRNG (32 * 8) w = Ok (rngq, w1) ->
  exists s,
    signPSS message key w = Ok (s, w1) /\
    verifyPSS s (publicOf key) message = Ok true.
Proof.
  intros Hkey Hmsg Hlen Hrng.
  destruct (sign_then_verify key Hkey message w w1 rngq Hmsg Hlen Hrng) as (s & Hs & _ & Hv).
  exists s. auto.
Qed.

Lemma signPSS_verifyPSS_witness :
  exists s,
    signPSS [104; 105] exampleKey (world256 0) = Ok (s, world256 3) /\
    verifyPSS s (publicOf exampleKey) [104; 105] = Ok true.
Proof.
  apply (signPSS_verifyPSS exampleKey [104; 105] (world256 0) (world256 3) rng256).
  - exact exampleKey_valid.
  - repeat constructor; lia.
  - vm_compute. discriminate.
  - exact initPRNG_run256.
Defined.

(** Claim C3 as stated fails twice over: a message with a code unit above
    255 (here the euro sign) makes [signPSS] throw a [TypeError] under a
    valid 547-bit key, and under the key that [generateKeys] returned for
    16-bit candidates every message is refused as too short to encode. *)
Lemma signPSS_throws :
  validKey exampleKey /\
  signPSS [8364] exampleKey (world256 0) = Throw TypeError /\
  generateKeys 3 16 world16 = Ok ((publicOf key16, key16), mkWorld oracle16 11) /\
  signPSS [104; 105] key16 (world256 0) = Throw PSSEncodingTooShort.
Proof.
  split; [exact exampleKey_valid|]. split.
  - apply signPSS_undefined_hash; [reflexivity|vm_compute; discriminate].
  - split; [exact generateKeys_run16|]. apply signPSS_short_modulus. reflexivity.
Qed.

(** Claim C4 does not hold of the code: [verifyPSS] compares the length
    of the encoded message with [emLen] and throws before its [try]
    begins.  Under a modulus above 1 it throws "Encoded message length too
    long in verification" exactly when the power
    [m = signature ^ e mod n] is at least [256 ^ emLen], whatever the
    message. *)
Theorem verifyPSS_throws_too_long (signature : Z) (publicKey : PublicKey)
    (message : jsstring) :
  0 <= signature -> 1 < pub_n publicKey ->
  verifyPSS signature publicKey message = Throw PSSTooLongInVerify <->
  256 ^ ceilDiv8 (bitLength (pub_n publicKey) - 1)
    <= modPow_nz signature (pub_e publicKey) (pub_n publicKey).
Proof.
  intros Hs Hn.
  pose proof (verifyPSS_outcome signature publicKey message Hs ltac:(lia)) as Hout.
  cbv zeta in Hout.
  set (k := ceilDiv8 (bitLength (pub_n publicKey) - 1)) in *.
  set (m := modPow_nz signature (pub_e publicKey) (pub_n publicKey)) in *.
  assert (Hk : 1 <= k).
  { unfold k, ceilDiv8. rewrite bitLength_pos by lia.
    assert (1 <= Z.log2 (pub_n publicKey)) by (apply Z.log2_le_pow2; lia).
    Z.div_mod_to_equations. lia. }
  assert (Hm : 0 <= m) by (apply modPow_nonneg; lia).
  destruct (bigintToBuffer_spec m Hm) as (Hb & Hval & Hlen & Hlow).
  pose proof (bytesValue_range (bigintToBuffer m) Hb) as Hr. rewrite Hval in Hr.
  destruct (Z.ltb_spec k (Z.of_nat (length (bigintToBuffer m)))) as [Hlt|Hge].
  - split; [intros _|intros _; exact Hout].
    destruct (Z.eq_dec m 0) as [E|E].
    + exfalso. rewrite E in Hlt. change (bigintToBuffer 0) with [0] in Hlt.
      cbn [length] in Hlt. lia.
    + apply Z.le_trans with (256 ^ (Z.of_nat (length (bigintToBuffer m)) - 1)).
      * apply Z.pow_le_mono_r; lia.
      * apply Hlow. lia.
  - split.
    + intros Hthrow. destruct Hout as [b Hb']. rewrite Hb' in Hthrow. discriminate.
    + intros Hbig. exfalso.
      assert (256 ^ Z.of_nat (length (bigintToBuffer m)) <= 256 ^ k)
        by (apply Z.pow_le_mono_r; lia).
      lia.
Qed.

Lemma verifyPSS_throws_too_long_witness :
  verifyPSS 14 (mkPublicKey 65537 94417) [104; 105] = Throw PSSTooLongInVerify.
Proof.
  apply (verifyPSS_throws_too_long 14 (mkPublicKey 65537 94417) [104; 105]).
  - lia.
  - cbn. lia.
  - vm_compute. discriminate.
Defined.

(** The failing input of claim C4 in figures: under the public key
    e = 65537, n = 263 * 359 = 94417 (17 bits, so emLen = 2) the signature
    14 gives m = 66903, which needs three bytes, and [verifyPSS] throws. *)
Lemma verifyPSS_throws :
  modPow 14 65537 94417 = Ok 66903 /\
  bigintToBuffer 66903 = [1; 5; 87] /\
  ceilDiv8 (bitLength 94417 - 1) = 2 /\
  verifyPSS 14 (mkPublicKey 65537 94417) [104; 105] = Throw PSSTooLongInVerify.
Proof. vm_compute. auto. Qed.

(** Claim C5, as the code has it.  Of the two decoders only
    [parseWithBigInt] accepts both value forms.  For every object of
    non-negative BigInts, [parseWithBigInt] restores the object from its
    tagged rendering ("123n") and from its plain rendering ("123");
    [decodeKeyBase64], as its own description says, converts the tagged
    form: it restores the object from the tagged rendering and hands the
    plain rendering back unchanged, its values still strings, which is a
    different object as soon as there is a field. *)
Theorem key_decoding_forms (fields : list (jsstring * Z)) :
  Forall (fun kv => 0 <= snd kv) fields ->
  let obj := bigintObject fields in
  parseWithBigInt (stringifyWithBigInt obj) = obj /\
  parseWithBigInt (stringifyPlain obj) = obj /\
  decodeKeyBase64 (stringifyWithBigInt obj) = obj /\
  decodeKeyBase64 (stringifyPlain obj) = stringifyPlain obj /\
  (fields <> [] -> decodeKeyBase64 (stringifyPlain obj) <> obj).
Proof.
  intros Hf obj.
  split; [exact (parseWithBigInt_tagged fields Hf)|].
  split; [exact (parseWithBigInt_plain fields Hf)|].
  split; [exact (decodeKeyBase64_tagged fields Hf)|].
  split; [exact (decodeKeyBase64_plain fields Hf)|].
  intros Hne. unfold obj. rewrite (decodeKeyBase64_plain fields Hf). unfold bigintObject.
  destruct fields as [|[k v] rest]; [contradiction|].
  cbn [map stringifyPlain fst snd]. discriminate.
Qed.

Lemma key_decoding_forms_witness :
  let obj := publicKeyObject (mkPublicKey 65537 8590786553) in
  parseWithBigInt (stringifyWithBigInt obj) = obj /\
  parseWithBigInt (stringifyPlain obj) = obj /\
  decodeKeyBase64 (stringifyWithBigInt obj) = obj /\
  decodeKeyBase64 (stringifyPlain obj) = stringifyPlain obj /\
  ([([101], 65537); ([110], 8590786553)] <> [] ->
   decodeKeyBase64 (stringifyPlain obj) <> obj).
Proof.
  apply (key_decoding_forms [([101], 65537); ([110], 8590786553)]).
  repeat constructor; cbn; lia.
Defined.

(** Claim C6.  Under a valid key, blinding the private exponent with any
    non-negative multiple of [phi] leaves the power unchanged, for every
    non-negative ciphertext (coprime to the modulus or not), so
    [decryptBlinding] returns the integer [decrypt] returns. *)
Theorem exponent_blinding (key : PrivateKey) (c r : Z) (w w1 : world)
    (rng : GenerateCryptoRandomNumber.t) :
  validKey key -> 0 <= c -> 0 <= r ->
  GenerateCryptoRandomNumber.initPRNG 64 w = Ok (rng, w1) ->
  modPow c (d key + r * phi key) (n key) = modPow c (d key) (n key) /\
  exists m, decrypt c key = Ok m /\ decryptBlinding c key w = Ok (m, w1).
Proof.
  intros Hkey Hc Hr Hrng. split.
  - rewrite blinded_power, private_power by auto. reflexivity.
  - exists (c ^ d key mod n key). split.
    + unfold decrypt. apply private_power; auto.
    + unfold decryptBlinding. exact (blindedPower_run key Hkey c w w1 rng Hc Hrng).
Qed.

Lemma exponent_blinding_witness :
  modPow 123456789 (d exampleKey + 65535 * phi exampleKey) (n exampleKey)
    = modPow 123456789 (d exampleKey) (n exampleKey) /\
  exists m, decrypt 123456789 exampleKey = Ok m /\
            decryptBlinding 123456789 exampleKey (world64 0) = Ok (m, world64 3).
Proof.
  apply (exponent_blinding exampleKey 123456789 65535 (world64 0) (world64 3) rng64a).
  - exact exampleKey_valid.
  - lia.
  - lia.
  - exact initPRNG_run64a.
Defined.

(** Claim C7.  Every key pair [generateKeys] returns has e = 65537,
    n = p * q, phi = (p - 1) * (q - 1), e * d = 1 modulo phi with
    0 < d < phi, dp = d mod (p - 1), dq = d mod (q - 1), and
    q * qinv = 1 modulo p with 0 < qinv < p; the public key holds the same
    e and n. *)
Theorem generateKeys_invariants (fuel : nat) (bits : Z) (w w' : world)
    (pub : PublicKey) (priv : PrivateKey) :
  generateKeys fuel bits w = Ok ((pub, priv), w') ->
  keyInvariants pub priv.
Proof.
  intros Hrun. destruct (generateKeys_spec fuel bits w w' pub priv Hrun) as (Hinv & _).
  exact Hinv.
Qed.

Lemma generateKeys_invariants_witness : keyInvariants (publicOf key16) key16.
Proof.
  exact (generateKeys_invariants 3 16 world16 (mkWorld oracle16 11)
           (publicOf key16) key16 generateKeys_run16).
Defined.

(** Claim C8, as the code has it.  For a generator with a non-zero modulus
    and a width [n] of at least 2, [nextBits] returns an odd integer
    congruent to 3 modulo 4 of exactly [n] bits, bit [n - 1] set. *)
Theorem nextBits_contract (g : BlumBlumShub.t) (n : Z) :
  BlumBlumShub.m g <> 0 -> 2 <= n ->
  exists r g',
    BlumBlumShub.nextBits g n = Ok (r, g') /\
    Z.odd r = true /\ r mod 4 = 3 /\
    bitLength r = n /\ Z.testbit r (n - 1) = true.
Proof.
  intros Hm Hn.
  destruct (nextBits_shape g n Hm Hn) as (r & g' & Hrun & _ & Hodd & Hrem & Hrange & Hbit).
  assert (Hpos : 0 < 2 ^ (n - 1)) by (apply Z.pow_pos_nonneg; lia).
  exists r, g'. split; [exact Hrun|]. split; [exact Hodd|].
  split; [rewrite <- rem_nonneg by lia; exact Hrem|]. split; [|exact Hbit].
  rewrite bitLength_pos by lia.
  rewrite (Z.log2_unique r (n - 1)); [lia|lia|].
  replace (Z.succ (n - 1)) with n by lia. exact Hrange.
Qed.

Lemma nextBits_contract_witness :
  exists r g',
    BlumBlumShub.nextBits bbs8 8 = Ok (r, g') /\
    Z.odd r = true /\ r mod 4 = 3 /\
    bitLength r = 8 /\ Z.testbit r (8 - 1) = true.
Proof.
  apply (nextBits_contract bbs8 8).
  - vm_compute. discriminate.
  - lia.
Defined.

(** Claim C8 as stated fails at the width 1: the result is 3, which has
    two bits. *)
Lemma nextBits_width_one :
  BlumBlumShub.nextBits bbs8 1 = Ok (3, BlumBlumShub.mk 499 547 272953 8 25) /\
  bitLength 3 = 2.
Proof. vm_compute. auto. Qed.

(** Claim C9, as the code has it.  For message bytes and a label whose
    code units are all at most 255, once the seed generator has found its
    primes: [OAEPEncode] throws "message too long" when the message has
    more than [k - 2 * 32 - 2] bytes, and otherwise returns [k] bytes, the
    first of them zero. *)
Theorem OAEPEncode_contract (mBuf : Buffer) (label : jsstring) (k : Z) (w w1 : world)
    (rng : GenerateCryptoRandomNumber.t) :
  Forall isByte mBuf ->
  Forall (fun c => 0 <= c <= 255) label ->
  GenerateCryptoRandomNumber.initPRNG 64 w = Ok (rng, w1) ->
  if k - 2 * 32 - 2 <? Z.of_nat (length mBuf)
  then OAEPEncode mBuf label k w = Throw MessageTooLong
  else exists rest,
      OAEPEncode mBuf label k w = Ok (0 :: rest, w1) /\
      Z.of_nat (length (0 :: rest)) = k.
Proof.
  intros HM Hlabel Hrng. destruct (Z.ltb_spec (k - 2 * 32 - 2) (Z.of_nat (length mBuf))).
  - apply OAEPEncode_too_long. lia.
  - destruct (OAEPEncode_run mBuf label k w w1 rng HM Hlabel ltac:(lia) Hrng)
      as (rest & Hrun & Hlen & _).
    exists rest. auto.
Qed.

Lemma OAEPEncode_contract_witness :
  exists rest,
    OAEPEncode [104; 105] [] 68 (world64 0) = Ok (0 :: rest, world64 3) /\
    Z.of_nat (length (0 :: rest)) = 68.
Proof.
  apply (OAEPEncode_contract [104; 105] [] 68 (world64 0) (world64 3) rng64a).
  - repeat constructor; unfold isByte; lia.
  - constructor.
  - exact initPRNG_run64a.
Defined.

(** Claim C9 as stated fails: the two-byte message fits k = 68, and with
    the label made of the euro sign [OAEPEncode] throws a [TypeError]. *)
Lemma OAEPEncode_throws_on_label :
  (68 - 2 * 32 - 2 <? Z.of_nat (length [104; 105])) = false /\
  OAEPEncode [104; 105] [8364] 68 (world64 0) = Throw TypeError.
Proof.
  split; [reflexivity|]. apply OAEPEncode_bad_label; [cbn; lia|reflexivity].
Qed.

(** Claim C10.  On a string of UTF-16 code units [Hash.sha256] returns 64
    hexadecimal digits when every code unit is at most 255, and the
    undefined value as soon as one is above. *)
Theorem sha256_partial (ascii : jsstring) :
  Forall (fun c => 0 <= c <= 65535) ascii ->
  if forallb (fun c => c <=? 255) ascii
  then exists hashHex, Hash.sha256 ascii = Some hashHex /\
                       length hashHex = 64%nat /\ forallb isHexDigit hashHex = true
  else Hash.sha256 ascii = None.
Proof.
  intros Hall. pose proof (forallb_latin1 ascii Hall) as Hcase.
  destruct (forallb _ ascii).
  - apply sha256_latin1. exact Hcase.
  - apply sha256_undefined; assumption.
Qed.

Lemma sha256_partial_witness : Hash.sha256 [97; 8364] = None.
Proof.
  exact (sha256_partial [97; 8364] ltac:(repeat constructor; lia)).
Defined.

(* ================================================================== *)
(** * Part V: further properties of the code                           *)
(* ================================================================== *)

(** ** Euclid's algorithm: [gcd] and [modInverse] always answer *)

(** Two turns of Euclid's loop halve the second number. *)
Lemma euclid_halves (a b : Z) :
  0 <= a -> 0 < b -> a mod b <> 0 -> 0 <= 2 * (b mod (a mod b)) < b.
Proof.
  intros Ha Hb Hnz.
  pose proof (Z.mod_pos_bound a b Hb) as H1.
  pose proof (Z.mod_pos_bound b (a mod b) ltac:(lia)) as H2.
  pose proof (Z.div_mod b (a mod b) Hnz) as H3.
  assert (1 <= b / (a mod b)) by (apply Z.div_le_lower_bound; lia).
  nia.
Qed.

Lemma gcd_step (a b : Z) : b <> 0 -> Z.gcd b (a mod b) = Z.gcd a b.
Proof. intros Hb. rewrite (Z.gcd_comm b), Z.gcd_mod by exact Hb. apply Z.gcd_comm. Qed.

Lemma gcd_loop_total (k : nat) :
  forall fuel a b,
    (2 * k + 1 <= fuel)%nat -> 0 <= a -> 0 <= b < 2 ^ Z.of_nat k ->
    gcd_loop fuel a b = Ok (Z.gcd a b).
Proof.
  induction k as [|k IH]; intros fuel a b Hfuel Ha Hb.
  - assert (b = 0) by (cbn in Hb; lia). subst b.
    destruct fuel; cbn [gcd_loop Z.eqb]; rewrite Z.gcd_0_r, Z.abs_eq by lia; reflexivity.
  - destruct fuel as [|[|fuel]]; try lia.
    cbn [gcd_loop].
    destruct (Z.eqb_spec b 0) as [->|Hb0].
    { rewrite Z.gcd_0_r, Z.abs_eq by lia. reflexivity. }
    rewrite rem_nonneg by lia.
    destruct (Z.eqb_spec (a mod b) 0) as [Hz|Hnz].
    { rewrite <- (gcd_step a b Hb0), Hz, Z.gcd_0_r, Z.abs_eq by lia. reflexivity. }
    pose proof (Z.mod_pos_bound a b ltac:(lia)) as H1.
    rewrite rem_nonneg by lia.
    pose proof (euclid_halves a b Ha ltac:(lia) Hnz) as Hh.
    rewrite IH; [|lia|lia|].
    + rewrite gcd_step, gcd_step by lia. reflexivity.
    + rewrite Nat2Z.inj_succ, Z.pow_succ_r in Hb by lia. lia.
Qed.

Lemma log2_fuel (b : Z) : 0 <= b -> b < 2 ^ Z.of_nat (Z.to_nat (Z.log2 b) + 1).
Proof.
  intros Hb. pose proof (Z.log2_nonneg b).
  rewrite Nat2Z.inj_add, Z2Nat.id by lia. change (Z.of_nat 1) with 1.
  destruct (Z.eq_dec b 0) as [->|Hnz]; [cbn; lia|].
  apply Z.log2_spec. lia.
Qed.

(** [modInverse]'s loop on a coprime pair never divides by zero and never
    runs out of turns. *)
Lemma modInverse_loop_answers (k : nat) :
  forall fuel a m x0 x1,
    (2 * k + 1 <= fuel)%nat -> 0 < a -> 0 <= m < 2 ^ Z.of_nat k -> Z.gcd a m = 1 ->
    exists r, modInverse_loop fuel a m x0 x1 = Ok r.
Proof.
  induction k as [|k IH]; intros fuel a m x0 x1 Hfuel Ha Hm Hg.
  - assert (m = 0) by (cbn in Hm; lia). subst m.
    rewrite Z.gcd_0_r, Z.abs_eq in Hg by lia. subst a.
    exists x1. destruct fuel; reflexivity.
  - destruct fuel as [|[|fuel]]; try lia.
    cbn [modInverse_loop].
    destruct (Z.ltb_spec 1 a) as [Ha1|Ha1]; [|exists x1; reflexivity].
    destruct (Z.eqb_spec m 0) as [->|Hm0].
    { rewrite Z.gcd_0_r, Z.abs_eq in Hg by lia. lia. }
    rewrite rem_nonneg by lia.
    destruct (Z.ltb_spec 1 m) as [Hm1|Hm1]; [|eexists; reflexivity].
    destruct (Z.eqb_spec (a mod m) 0) as [Hz|Hnz].
    { rewrite <- (gcd_step a m Hm0), Hz, Z.gcd_0_r, Z.abs_eq in Hg by lia. lia. }
    pose proof (Z.mod_pos_bound a m ltac:(lia)) as H1.
    rewrite rem_nonneg by lia.
    pose proof (euclid_halves a m ltac:(lia) ltac:(lia) Hnz) as Hh.
    apply IH; [lia|lia| |].
    + rewrite Nat2Z.inj_succ, Z.pow_succ_r in Hm by lia. lia.
    + rewrite gcd_step, gcd_step by lia. exact Hg.
Qed.

(** On a pair with a common factor the loop ends in the division by zero. *)
Lemma modInverse_loop_throws (k : nat) :
  forall fuel a m x0 x1,
    (2 * k + 1 <= fuel)%nat -> 0 < a -> 0 <= m < 2 ^ Z.of_nat k -> 1 < Z.gcd a m ->
    modInverse_loop fuel a m x0 x1 = Throw RangeError.
Proof.
  induction k as [|k IH]; intros fuel a m x0 x1 Hfuel Ha Hm Hg.
  - assert (m = 0) by (cbn in Hm; lia). subst m.
    rewrite Z.gcd_0_r, Z.abs_eq in Hg by lia.
    destruct fuel; [lia|]. cbn [modInverse_loop].
    destruct (Z.ltb_spec 1 a); [reflexivity|lia].
  - destruct fuel as [|[|fuel]]; try lia.
    cbn [modInverse_loop].
    destruct (Z.ltb_spec 1 a) as [Ha1|Ha1].
    2:{ assert (a = 1) by lia. subst a. rewrite Z.gcd_1_l in Hg. lia. }
    destruct (Z.eqb_spec m 0) as [->|Hm0]; [reflexivity|].
    rewrite rem_nonneg by lia.
    destruct (Z.ltb_spec 1 m) as [Hm1|Hm1].
    2:{ assert (m = 1) by lia. subst m. rewrite Z.gcd_1_r in Hg. lia. }
    destruct (Z.eqb_spec (a mod m) 0) as [Hz|Hnz]; [reflexivity|].
    pose proof (Z.mod_pos_bound a m ltac:(lia)) as H1.
    rewrite rem_nonneg by lia.
    pose proof (euclid_halves a m ltac:(lia) ltac:(lia) Hnz) as Hh.
    apply IH; [lia|lia| |].
    + rewrite Nat2Z.inj_succ, Z.pow_succ_r in Hm by lia. lia.
    + rewrite gcd_step, gcd_step by lia. exact Hg.
Qed.

Lemma modInverse_fuel (a m : Z) :
  0 < a -> 0 < m ->
  (2 * (Z.to_nat (Z.log2 m) + 1) + 1
   <= 2 * Z.to_nat (Z.log2 (Z.abs a) + Z.log2 (Z.abs m)) + 4)%nat.
Proof.
  intros Ha Hm. rewrite !Z.abs_eq by lia.
  pose proof (Z.log2_nonneg a). pose proof (Z.log2_nonneg m). lia.
Qed.

Lemma gcd_spec (a b : Z) : 0 <= a -> 0 <= b -> gcd a b = Ok (Z.gcd a b).
Proof.
  intros Ha Hb. unfold gcd. apply (gcd_loop_total (Z.to_nat (Z.log2 b) + 1)).
  - rewrite !Z.abs_eq by lia.
    pose proof (Z.log2_nonneg a). pose proof (Z.log2_nonneg b). lia.
  - exact Ha.
  - split; [lia|apply log2_fuel; lia].
Qed.

(** Extra X1.  [RSA.gcd] computes the greatest common divisor of two non-negative
    numbers, and always answers. *)
Theorem gcd_correct (a b : Z) : 0 <= a -> 0 <= b -> gcd a b = Ok (Z.gcd a b).
Proof. exact (gcd_spec a b). Qed.

Lemma gcd_correct_witness : gcd 65537 8590589940 = Ok (Z.gcd 65537 8590589940).
Proof. exact (gcd_correct 65537 8590589940 ltac:(lia) ltac:(lia)). Defined.

(** Extra X2.  For coprime arguments [RSA.modInverse] returns the inverse, reduced
    into [(0, m)]. *)
Theorem modInverse_correct (a m : Z) :
  0 < a -> 1 < m -> Z.gcd a m = 1 ->
  exists x, modInverse a m = Ok x /\ (a * x) mod m = 1 /\ 0 < x < m.
Proof.
  intros Ha Hm Hg.
  assert (Hrange : 0 <= m < 2 ^ Z.of_nat (Z.to_nat (Z.log2 m) + 1)).
  { split; [lia|apply log2_fuel; lia]. }
  assert (Hm0 : 0 < m) by lia.
  destruct (modInverse_loop_answers (Z.to_nat (Z.log2 m) + 1)
              (2 * Z.to_nat (Z.log2 (Z.abs a) + Z.log2 (Z.abs m)) + 4) a m 0 1
              (modInverse_fuel a m Ha Hm0) Ha Hrange Hg) as (r & Hr).
  assert (Hrun : exists x, modInverse a m = Ok x).
  { unfold modInverse. destruct (Z.eqb_spec m 1); [lia|]. rewrite Hr. cbn [bindR]. eauto. }
  destruct Hrun as (x & Hx). exists x. split; [exact Hx|].
  exact (modInverse_spec a m Ha Hm x Hx).
Qed.

Lemma modInverse_correct_witness :
  exists x, modInverse 65537 8590589940 = Ok x /\
            (65537 * x) mod 8590589940 = 1 /\ 0 < x < 8590589940.
Proof.
  exact (modInverse_correct 65537 8590589940 ltac:(lia) ltac:(lia) ltac:(reflexivity)).
Defined.

(** Extra X3.  For arguments with a common factor [RSA.modInverse] ends in the
    BigInt division by zero. *)
Theorem modInverse_not_coprime (a m : Z) :
  0 < a -> 1 < m -> Z.gcd a m <> 1 -> modInverse a m = Throw RangeError.
Proof.
  intros Ha Hm Hg. unfold modInverse. destruct (Z.eqb_spec m 1); [lia|].
  rewrite (modInverse_loop_throws (Z.to_nat (Z.log2 m) + 1)); [reflexivity| | | |].
  - apply modInverse_fuel; lia.
  - exact Ha.
  - split; [lia|apply log2_fuel; lia].
  - pose proof (Z.gcd_nonneg a m).
    destruct (Z.eq_dec (Z.gcd a m) 0) as [E|]; [|lia].
    apply Z.gcd_eq_0_l in E. lia.
Qed.

Lemma modInverse_not_coprime_witness : modInverse 6 9 = Throw RangeError.
Proof.
  exact (modInverse_not_coprime 6 9 ltac:(lia) ltac:(lia) ltac:(vm_compute; discriminate)).
Defined.

(** ** [pow] and [integerRoot] *)

Lemma pow_loop_spec (fuel : nat) :
  forall result base exp,
    0 <= exp < 2 ^ Z.of_nat fuel ->
    pow_loop fuel result base exp = result * base ^ exp.
Proof.
  induction fuel as [|fuel IH]; intros result base exp He.
  - assert (exp = 0) by (cbn in He; lia). subst exp. cbn. ring.
  - cbn [pow_loop]. destruct (Z.ltb_spec 0 exp) as [Hpos|Hz].
    2:{ assert (exp = 0) by lia. subst exp. rewrite Z.pow_0_r. ring. }
    rewrite (rem_nonneg exp 2) by lia.
    rewrite Z.shiftr_div_pow2 by lia. change (2 ^ 1) with 2.
    assert (Hsplit : exp = 2 * (exp / 2) + exp mod 2) by (apply Z.div_mod; lia).
    assert (Hbit : exp mod 2 = 0 \/ exp mod 2 = 1)
      by (pose proof (Z.mod_pos_bound exp 2); lia).
    assert (Hhalf : 0 <= exp / 2) by (apply Z.div_pos; lia).
    assert (Hlt : exp / 2 < 2 ^ Z.of_nat fuel).
    { apply Z.div_lt_upper_bound; [lia|].
      rewrite Nat2Z.inj_succ, Z.pow_succ_r in He by lia. lia. }
    rewrite IH by lia.
    assert (Hsq : (base * base) ^ (exp / 2) = base ^ (2 * (exp / 2))).
    { rewrite Z.pow_mul_r by lia. f_equal. lia. }
    rewrite Hsq.
    destruct Hbit as [Hb|Hb]; rewrite Hb.
    + change (0 =? 1) with false. cbn match. do 2 f_equal. lia.
    + change (1 =? 1) with true. cbn match.
      rewrite Hsplit at 2. rewrite Hb, Z.pow_add_r, Z.pow_1_r by lia. ring.
Qed.

Lemma pow_spec (base exp : Z) : 0 <= exp -> pow base exp = base ^ exp.
Proof.
  intros He. unfold pow. rewrite pow_loop_spec; [ring|].
  split; [lia|]. rewrite Nat2Z.inj_succ, Z2Nat.id by apply Z.log2_nonneg.
  destruct (Z.eq_dec exp 0) as [->|]; [cbn; lia|]. apply Z.log2_spec. lia.
Qed.

(** The bisection of [integerRoot]: the answer stays between [low] and
    [high], and the gap halves at every turn. *)
Lemma integerRoot_loop_spec (fuel : nat) :
  forall n k low high,
    0 < k -> 1 <= low <= high -> high - low < 2 ^ Z.of_nat fuel ->
    low ^ k <= n < (high + 1) ^ k ->
    exists r, integerRoot_loop fuel n k low high = Ok r /\
              low <= r <= high /\ r ^ k <= n < (r + 1) ^ k.
Proof.
  induction fuel as [|fuel IH]; intros n k low high Hk Hlow Hgap Hinv.
  - assert (high = low) by (cbn in Hgap; lia). subst high.
    cbn [integerRoot_loop]. rewrite Z.ltb_irrefl. exists low. split; [reflexivity|lia].
  - cbn [integerRoot_loop]. destruct (Z.ltb_spec low high) as [Hlt|Hge].
    2:{ assert (high = low) by lia. subst high. exists low. split; [reflexivity|lia]. }
    rewrite Z.shiftr_div_pow2 by lia. change (2 ^ 1) with 2.
    set (mid := (low + high + 1) / 2).
    assert (Hmid : low < mid <= high /\ 2 * mid <= low + high + 1 < 2 * mid + 2).
    { unfold mid. pose proof (Z.div_mod (low + high + 1) 2 ltac:(lia)).
      pose proof (Z.mod_pos_bound (low + high + 1) 2 ltac:(lia)). lia. }
    rewrite Nat2Z.inj_succ, Z.pow_succ_r in Hgap by lia.
    rewrite pow_spec by lia.
    destruct (Z.leb_spec (mid ^ k) n) as [Hle|Hgt].
    + destruct (IH n k mid high Hk ltac:(lia) ltac:(lia) ltac:(lia)) as (r & Hr & Hb & Hroot).
      exists r. split; [exact Hr|]. split; [lia|exact Hroot].
    + destruct (IH n k low (mid - 1) Hk ltac:(lia) ltac:(lia)) as (r & Hr & Hb & Hroot).
      { replace (mid - 1 + 1) with mid by lia. lia. }
      exists r. split; [exact Hr|]. split; [lia|exact Hroot].
Qed.

Lemma integerRoot_spec (n k : Z) :
  0 < n -> 0 < k ->
  exists r, integerRoot n k = Ok r /\ 1 <= r /\ r ^ k <= n < (r + 1) ^ k.
Proof.
  intros Hn Hk. unfold integerRoot.
  destruct (Z.ltb_spec n 0); [lia|]. destruct (Z.eqb_spec n 0); [lia|].
  destruct (Z.leb_spec k 0); [lia|].
  destruct (integerRoot_loop_spec (S (S (Z.to_nat (Z.log2 n)))) n k 1 n Hk ltac:(lia))
    as (r & Hr & Hb & Hroot).
  - rewrite !Nat2Z.inj_succ, Z2Nat.id by apply Z.log2_nonneg.
    pose proof (Z.log2_spec n Hn). rewrite Z.pow_succ_r by (pose proof (Z.log2_nonneg n); lia).
    lia.
  - rewrite Z.pow_1_l by lia. split; [lia|].
    apply Z.lt_le_trans with ((n + 1) ^ 1); [lia|].
    apply Z.pow_le_mono_r; lia.
  - exists r. split; [exact Hr|]. split; [lia|exact Hroot].
Qed.

(** Extra X4.  [RSA.pow] is exponentiation for every base and every non-negative
    exponent. *)
Theorem pow_correct (base exp : Z) : 0 <= exp -> pow base exp = base ^ exp.
Proof. exact (pow_spec base exp). Qed.

Lemma pow_correct_witness : pow (-3) 5 = (-3) ^ 5.
Proof. exact (pow_correct (-3) 5 ltac:(lia)). Defined.

(** Extra X5.  For a positive number and a positive exponent [RSA.integerRoot]
    returns the integer root: the largest [r] with [r ^ k <= n]. *)
Theorem integerRoot_correct (n k : Z) :
  0 < n -> 0 < k ->
  exists r, integerRoot n k = Ok r /\ 1 <= r /\ r ^ k <= n < (r + 1) ^ k.
Proof. exact (integerRoot_spec n k). Qed.

Lemma integerRoot_correct_witness :
  exists r, integerRoot 8590786553 4 = Ok r /\ 1 <= r /\ r ^ 4 <= 8590786553 < (r + 1) ^ 4.
Proof. exact (integerRoot_correct 8590786553 4 ltac:(lia) ltac:(lia)). Defined.

(** ** Miller-Rabin never rejects a prime *)

Lemma splitTwos_spec (fuel : nat) :
  forall d r, 0 < d -> 0 <= r ->
    let '(d', r') := splitTwos fuel d r in
    d' * 2 ^ r' = d * 2 ^ r /\ 0 < d' /\ 0 <= r'.
Proof.
  induction fuel as [|fuel IH]; intros d r Hd Hr; cbn [splitTwos]; [auto|].
  rewrite rem_nonneg, quot_nonneg by lia.
  destruct (Z.eqb_spec (d mod 2) 0) as [Hz|Hnz]; [|auto].
  pose proof (Z.div_mod d 2 ltac:(lia)) as Hdm.
  specialize (IH (d / 2) (r + 1) ltac:(lia) ltac:(lia)).
  destruct (splitTwos fuel (d / 2) (r + 1)) as [d' r'].
  destruct IH as (E & Hd' & Hr'). split; [|auto].
  rewrite E, Z.pow_add_r, Z.pow_1_r by lia. lia.
Qed.

(** In a prime field the only square roots of 1 are 1 and -1. *)
Lemma sqrt_one_prime (n x : Z) :
  Z.prime n -> 0 <= x < n -> (x * x) mod n = 1 -> x = 1 \/ x = n - 1.
Proof.
  intros Hn Hx Hsq. pose proof (Z.prime_ge_2 _ Hn).
  assert (Hdiv : (n | (x - 1) * (x + 1))).
  { apply Z.mod_divide; [lia|].
    replace ((x - 1) * (x + 1)) with (x * x - 1) by ring.
    rewrite <- Zminus_mod_idemp_l, Hsq. reflexivity. }
  apply Z.divide_prime_mul in Hdiv; [|exact Hn].
  destruct Hdiv as [[c Hc]|[c Hc]].
  - left. assert (c = 0) by nia. subst c. lia.
  - right. assert (c = 1) by nia. subst c. lia.
Qed.

Lemma squareLoop_complete (n : Z) (Hn : Z.prime n) (turns : nat) :
  forall x, 0 <= x < n -> x <> 1 -> x <> n - 1 ->
            x ^ 2 ^ Z.of_nat (S turns) mod n = 1 ->
            squareLoop turns x n = true.
Proof.
  pose proof (Z.prime_ge_2 _ Hn) as Hn2.
  induction turns as [|turns IH]; intros x Hx H1 Hm1 Hpow.
  - exfalso. change (2 ^ Z.of_nat 1) with 2 in Hpow.
    replace (x ^ 2) with (x * x) in Hpow by ring.
    destruct (sqrt_one_prime n x Hn Hx Hpow); contradiction.
  - cbn [squareLoop]. rewrite modPow_nz_spec by lia.
    destruct (Z.eqb_spec (x ^ 2 mod n) (n - 1)) as [|Hne]; [reflexivity|].
    apply IH.
    + apply Z.mod_pos_bound. lia.
    + intros E. replace (x ^ 2) with (x * x) in E by ring.
      destruct (sqrt_one_prime n x Hn Hx E); contradiction.
    + exact Hne.
    + rewrite Z.mod_pow_l, <- Z.pow_mul_r by (try apply Z.pow_nonneg; lia).
      replace (2 * 2 ^ Z.of_nat (S turns)) with (2 ^ Z.of_nat (S (S turns))); [exact Hpow|].
      rewrite (Nat2Z.inj_succ (S turns)), Z.pow_succ_r by lia. reflexivity.
Qed.

Lemma millerRabinRound_complete (a d r n : Z) :
  Z.prime n -> 2 <= a -> 0 < d -> 0 <= r -> d * 2 ^ r = n - 1 ->
  millerRabinRound a d r n = true.
Proof.
  intros Hn Ha Hd Hr Hsplit. pose proof (Z.prime_ge_2 _ Hn) as Hn2.
  unfold millerRabinRound.
  destruct (Z.leb_spec (n - 2) a) as [|Hlt]; [reflexivity|].
  rewrite modPow_nz_spec by lia.
  set (x := a ^ d mod n).
  assert (Hx : 0 <= x < n) by (apply Z.mod_pos_bound; lia).
  destruct (Z.eqb_spec x 1) as [|Hx1]; [reflexivity|].
  destruct (Z.eqb_spec x (n - 1)) as [|Hxm]; [reflexivity|]. cbn [orb].
  assert (Hfer : a ^ (n - 1) mod n = 1).
  { apply Z.fermat_nz; [exact Hn|]. rewrite Z.mod_small by lia. lia. }
  assert (Hxr : x ^ 2 ^ r mod n = 1).
  { unfold x. rewrite Z.mod_pow_l, <- Z.pow_mul_r by (try apply Z.pow_nonneg; lia).
    rewrite Hsplit. exact Hfer. }
  destruct (Z.eq_dec r 0) as [->|Hr0].
  - exfalso. change (2 ^ 0) with 1 in Hxr. rewrite Z.pow_1_r, Z.mod_small in Hxr by lia.
    contradiction.
  - apply (squareLoop_complete n Hn); auto.
    replace (Z.of_nat (S (Z.to_nat (r - 1)))) with r by lia. exact Hxr.
Qed.

Lemma bases_ge_2 (i : nat) : 2 <= nth (i mod 9) bases 0.
Proof.
  pose proof (Nat.mod_upper_bound i 9 ltac:(lia)) as Hlt.
  revert Hlt. generalize (i mod 9)%nat. intros j Hlt.
  do 9 (destruct j as [|j]; [cbn; lia|]). lia.
Qed.

Lemma millerRabinRounds_complete (d r n : Z) (k : nat) :
  Z.prime n -> 0 < d -> 0 <= r -> d * 2 ^ r = n - 1 ->
  forall i, millerRabinRounds k i d r n = true.
Proof.
  intros Hn Hd Hr Hsplit. induction k as [|k IH]; intros i; cbn [millerRabinRounds];
    [reflexivity|].
  rewrite millerRabinRound_complete by (auto using bases_ge_2). apply IH.
Qed.

(** Extra X6.  [isPrimeMillerRabin] (and its two copies, [MillerRabin.isPrime] and
    [BlumBlumShub.isPrimeMillerRabin]) answers [true] on every prime,
    whatever the number of rounds. *)
Theorem isPrimeMillerRabin_accepts_primes (n : Z) (k : nat) :
  Z.prime n -> isPrimeMillerRabin n k = true.
Proof.
  intros Hn. pose proof (Z.prime_ge_2 _ Hn) as Hn2. unfold isPrimeMillerRabin.
  destruct (Z.eqb_spec n 2) as [|H2]; [reflexivity|].
  destruct (Z.eqb_spec n 3) as [|H3]; [reflexivity|]. cbn [orb].
  destruct (Z.ltb_spec n 2); [lia|]. cbn [orb].
  rewrite rem_nonneg by lia.
  destruct (Z.eqb_spec (n mod 2) 0) as [Hz|Hodd].
  - exfalso. apply Z.mod_divide in Hz; [|lia].
    destruct (Z.divide_prime_r 2 n Hn Hz) as [E|[E|[E|E]]]; lia.
  - pose proof (splitTwos_spec (S (Z.to_nat (Z.log2 n))) (n - 1) 0 ltac:(lia) ltac:(lia)) as Hs.
    destruct (splitTwos _ (n - 1) 0) as [d r]. destruct Hs as (E & Hd & Hr).
    apply millerRabinRounds_complete; auto. rewrite E. cbn. lia.
Qed.

Lemma isPrimeMillerRabin_accepts_primes_witness : isPrimeMillerRabin chain1 16 = true.
Proof. exact (isPrimeMillerRabin_accepts_primes chain1 16 chain1_prime). Defined.

(** ** What [generateKeys] checks before it returns *)

Lemma drawQ_far (fuel : nat) :
  forall bits p prng q,
    drawQ fuel bits p prng = Ok q ->
    0 <= Z.quot bits 4 /\ 2 ^ Z.quot bits 4 <= Z.abs (p - q).
Proof.
  induction fuel as [|fuel IH]; intros bits p prng q H; cbn [drawQ] in H.
  - discriminate.
  - run_inv H. destruct a as [q1 prng1].
    destruct (Z.eqb_spec q1 p) as [|Hne].
    + eapply IH. exact H.
    + run_inv H. unfold pow2 in E0.
      destruct (Z.ltb_spec (Z.quot bits 4) 0); [discriminate|]. injection E0 as <-.
      destruct (Z.ltb_spec (if q1 <? p then p - q1 else q1 - p) (2 ^ Z.quot bits 4)) as [|Hfar].
      * eapply IH. exact H.
      * injection H as <-. split; [lia|]. destruct (Z.ltb_spec q1 p); lia.
Qed.

(** The first two of the eight tests on the private exponent. *)
Lemma acceptD_bounds (n d : Z) :
  0 < n -> acceptD n d = Ok true ->
  n < (3 * d) ^ 4 /\ 2 ^ (bitLength n / 2) < d.
Proof.
  intros Hn H. unfold acceptD in H.
  destruct (integerRoot_spec n 4 Hn ltac:(lia)) as (r & Hr & Hr1 & Hroot).
  rewrite Hr in H. cbn [bindR] in H.
  destruct (Z.leb_spec d (Z.quot r 3)) as [|Hd]; [discriminate|].
  destruct (Z.leb_spec d (2 ^ (bitLength n / 2))) as [|Hmin]; [discriminate|].
  split; [|exact Hmin].
  rewrite quot_nonneg in Hd by lia.
  pose proof (Z.div_mod r 3 ltac:(lia)). pose proof (Z.mod_pos_bound r 3 ltac:(lia)).
  apply Z.lt_le_trans with ((r + 1) ^ 4); [lia|].
  apply Z.pow_le_mono_l. lia.
Qed.

Lemma generateKeys_loop_accepted (fuel innerFuel : nat) :
  forall bits w pub priv w',
    generateKeys_loop fuel innerFuel bits w = Ok ((pub, priv), w') ->
    gcd (e priv) (phi priv) = Ok 1 /\
    acceptD (n priv) (d priv) = Ok true /\
    0 <= Z.quot bits 4 /\ 2 ^ Z.quot bits 4 <= Z.abs (p priv - q priv).
Proof.
  induction fuel as [|fuel IH]; intros bits w pub priv w' H; cbn [generateKeys_loop] in H.
  - discriminate.
  - run_inv H. lift_inv.
    destruct a1 as [p0 prng0]. cbn [fst] in *.
    apply drawQ_far in E4.
    match goal with
    | Hg : gcd _ _ = Ok ?g |- _ =>
        destruct (Z.eqb_spec g 1) as [->|]; cbn [negb] in H; [|eapply IH; exact H]
    end.
    run_inv H. lift_inv.
    match goal with
    | Ha : acceptD _ _ = Ok ?b |- _ =>
        destruct b; cbn [negb] in H; [|eapply IH; exact H]
    end.
    run_inv H. lift_inv.
    unfold ret in H. injection H as <- <- <-. cbn [p q e d n phi].
    auto.
Qed.

(** Extra X7.  Every key pair [generateKeys] returns has a private exponent above
    Wiener's bound, [n < (3 d) ^ 4], and above [2 ^ (bitLength n / 2)], an
    exponent [e] coprime to [phi], and factors at least
    [2 ^ (bits / 4)] apart. *)
Theorem generateKeys_hardening (fuel : nat) (bits : Z) (w w' : world)
    (pub : PublicKey) (priv : PrivateKey) :
  generateKeys fuel bits w = Ok ((pub, priv), w') ->
  n priv < (3 * d priv) ^ 4 /\
  2 ^ (bitLength (n priv) / 2) < d priv /\
  Z.gcd (e priv) (phi priv) = 1 /\
  2 ^ Z.quot bits 4 <= Z.abs (p priv - q priv).
Proof.
  intros Hrun.
  destruct (generateKeys_spec fuel bits w w' pub priv Hrun) as (Hinv & Hp & Hq & _).
  unfold generateKeys in Hrun. run_inv Hrun.
  destruct (generateKeys_loop_accepted _ _ _ _ _ _ _ Hrun) as (Hg & Hacc & _ & Hfar).
  destruct Hinv as (_ & He & Hn & Hphi & _).
  pose proof (probablePrime2c1_ge_3 _ Hp). pose proof (probablePrime2c1_ge_3 _ Hq).
  destruct (acceptD_bounds (n priv) (d priv) ltac:(nia) Hacc) as [Hw Hmin].
  split; [exact Hw|]. split; [exact Hmin|]. split; [|exact Hfar].
  rewrite gcd_spec in Hg by (rewrite ?He, ?Hphi; nia). congruence.
Qed.

Lemma generateKeys_hardening_witness :
  n key16 < (3 * d key16) ^ 4 /\
  2 ^ (bitLength (n key16) / 2) < d key16 /\
  Z.gcd (e key16) (phi key16) = 1 /\
  2 ^ Z.quot 16 4 <= Z.abs (p key16 - q key16).
Proof.
  exact (generateKeys_hardening 3 16 world16 (mkWorld oracle16 11)
           (publicOf key16) key16 generateKeys_run16).
Defined.

(** ** Modular powers *)

(** Extra X8.  [RSA.modPow] (and its copy [BlumBlumShub.modPow]) is modular
    exponentiation for a non-negative base, a positive exponent and a
    positive modulus; the answer lies in [[0, m)]. *)
Theorem modPow_correct (base exp m : Z) :
  0 <= base -> 0 < exp -> 0 < m ->
  modPow base exp m = Ok (base ^ exp mod m) /\ 0 <= base ^ exp mod m < m.
Proof.
  intros Hb He Hm. unfold modPow. destruct (Z.eqb_spec m 0); [lia|].
  rewrite modPow_nz_spec by lia. split; [reflexivity|]. apply Z.mod_pos_bound. lia.
Qed.

Lemma modPow_correct_witness :
  modPow 14 65537 94417 = Ok (14 ^ 65537 mod 94417) /\ 0 <= 14 ^ 65537 mod 94417 < 94417.
Proof. exact (modPow_correct 14 65537 94417 ltac:(lia) ltac:(lia) ltac:(lia)). Defined.

(** Extra X9.  With an exponent that is zero or negative the loop of [modPow] does
    not run and the answer is 1, which is not reduced: it is 1 modulo 1 as
    well. *)
Theorem modPow_empty_loop (base exp m : Z) :
  exp <= 0 -> m <> 0 -> modPow base exp m = Ok 1.
Proof.
  intros He Hm. unfold modPow. destruct (Z.eqb_spec m 0); [contradiction|].
  rewrite modPow_nz_nonpos by exact He. reflexivity.
Qed.

Lemma modPow_empty_loop_witness : modPow 5 0 1 = Ok 1.
Proof. exact (modPow_empty_loop 5 0 1 ltac:(lia) ltac:(lia)). Defined.

(** ** Blum Blum Shub *)

Lemma nextBits_total (g : BlumBlumShub.t) (n : Z) :
  BlumBlumShub.m g <> 0 ->
  exists r g', BlumBlumShub.nextBits g n = Ok (r, g') /\
               BlumBlumShub.m g' = BlumBlumShub.m g /\ r mod 4 = 3 /\ 3 <= r.
Proof.
  intros Hm.
  destruct (drawBits_ok (Z.to_nat n) 0 g Hm ltac:(lia)) as (r0 & g' & Hrun & Hm' & _).
  assert (Hnb : exists r, BlumBlumShub.nextBits g n = Ok (r, g')).
  { unfold BlumBlumShub.nextBits. rewrite Hrun. cbn [bindR]. eauto. }
  destruct Hnb as (r & Hr). exists r, g'. split; [exact Hr|]. split; [exact Hm'|].
  exact (nextBits_3mod4 g g' n r Hr).
Qed.

(** Extra X10.  Whatever the width, zero and negative widths included, [nextBits]
    answers with a number that is at least 3 and congruent to 3 modulo 4,
    and leaves the modulus of the generator alone. *)
Theorem nextBits_every_width (g : BlumBlumShub.t) (n : Z) :
  BlumBlumShub.m g <> 0 ->
  exists r g', BlumBlumShub.nextBits g n = Ok (r, g') /\
               BlumBlumShub.m g' = BlumBlumShub.m g /\ r mod 4 = 3 /\ 3 <= r.
Proof. exact (nextBits_total g n). Qed.

Lemma nextBits_every_width_witness :
  exists r g', BlumBlumShub.nextBits bbs8 0 = Ok (r, g') /\
               BlumBlumShub.m g' = BlumBlumShub.m bbs8 /\ r mod 4 = 3 /\ 3 <= r.
Proof. exact (nextBits_every_width bbs8 0 ltac:(vm_compute; discriminate)). Defined.

(** The state 1 is a fixed point of the squaring: all bits drawn are 1. *)
Lemma drawBits_state_one (turns : nat) :
  forall acc g,
    1 < BlumBlumShub.m g -> BlumBlumShub.state g = 1 ->
    BlumBlumShub.drawBits turns acc g
    = Ok (acc * 2 ^ Z.of_nat turns + (2 ^ Z.of_nat turns - 1), g).
Proof.
  induction turns as [|turns IH]; intros acc g Hm Hs.
  - cbn [BlumBlumShub.drawBits]. f_equal. f_equal. cbn. lia.
  - cbn [BlumBlumShub.drawBits]. unfold BlumBlumShub.nextBit.
    destruct (Z.eqb_spec (BlumBlumShub.m g) 0); [lia|].
    rewrite Hs. change (1 * 1) with 1. rewrite Z.rem_small by lia.
    cbn [bindR]. change (Z.land 1 1) with 1.
    replace (BlumBlumShub.mk (BlumBlumShub.p g) (BlumBlumShub.q g) (BlumBlumShub.m g)
               (BlumBlumShub.bits g) 1) with g by (destruct g; cbn in *; subst; reflexivity).
    rewrite IH by assumption. rewrite lor_double_bit by auto.
    rewrite Nat2Z.inj_succ, Z.pow_succ_r by lia. f_equal. f_equal. ring.
Qed.

Lemma nextBits_state_one (g : BlumBlumShub.t) (n : Z) :
  1 < BlumBlumShub.m g -> BlumBlumShub.state g = 1 -> 2 <= n ->
  BlumBlumShub.nextBits g n = Ok (2 ^ n - 1, g).
Proof.
  intros Hm Hs Hn. unfold BlumBlumShub.nextBits.
  rewrite drawBits_state_one by assumption. cbn [bindR].
  rewrite Z2Nat.id by lia. rewrite Z.mul_0_l, Z.add_0_l.
  replace (2 ^ n - 1) with (Z.ones n) by (rewrite Z.ones_equiv; lia).
  assert (E1 : Z.lor (Z.ones n) (Z.shiftl 1 (n - 1)) = Z.ones n).
  { apply Z.bits_inj'. intros i Hi. rewrite Z.lor_spec, Z.shiftl_spec by lia.
    destruct (Z.lt_ge_cases i n).
    - rewrite Z.ones_spec_low by lia. reflexivity.
    - rewrite Z.ones_spec_high by lia. cbn [orb].
      apply (Z.bits_above_log2 1); cbn; lia. }
  assert (E2 : Z.lor (Z.ones n) 1 = Z.ones n).
  { apply Z.bits_inj'. intros i Hi. rewrite Z.lor_spec.
    destruct (Z.lt_ge_cases i n).
    - rewrite Z.ones_spec_low by lia. reflexivity.
    - rewrite Z.ones_spec_high by lia. cbn [orb].
      apply (Z.bits_above_log2 1); cbn; lia. }
  rewrite E1, E2. rewrite Z.ones_equiv.
  assert (Hpow : 2 ^ n = 4 * 2 ^ (n - 2)).
  { change 4 with (2 ^ 2). rewrite <- (Z.pow_add_r 2 2 (n - 2)) by lia. f_equal. lia. }
  assert (0 < 2 ^ (n - 2)) by (apply Z.pow_pos_nonneg; lia).
  rewrite rem_nonneg by lia.
  replace (Z.pred (2 ^ n)) with (3 + (2 ^ (n - 2) - 1) * 4) by lia.
  rewrite Z_mod_plus_full. change (3 mod 4) with 3. do 2 f_equal. lia.
Qed.

(** Extra X11.  A seed that is a multiple of the modulus is replaced by the state 1,
    which squaring never leaves: every draw of at least two bits is then
    [2 ^ n - 1], and the generator does not move. *)
Theorem BlumBlumShub_stuck_at_one (seed p q bits n : Z) :
  1 < p * q -> Z.rem seed (p * q) = 0 -> 2 <= n ->
  exists g, BlumBlumShub.new seed p q bits = Ok g /\
            BlumBlumShub.nextBits g n = Ok (2 ^ n - 1, g).
Proof.
  intros Hm Hseed Hn. unfold BlumBlumShub.new.
  destruct (Z.eqb_spec (p * q) 0); [lia|]. rewrite Hseed. cbn [Z.eqb].
  eexists. split; [reflexivity|]. apply nextBits_state_one; cbn; auto.
Qed.

Lemma BlumBlumShub_stuck_at_one_witness :
  exists g, BlumBlumShub.new (5 * 272953) 499 547 8 = Ok g /\
            BlumBlumShub.nextBits g 8 = Ok (2 ^ 8 - 1, g).
Proof.
  exact (BlumBlumShub_stuck_at_one (5 * 272953) 499 547 8 8
           ltac:(lia) ltac:(reflexivity) ltac:(lia)).
Defined.

(** With a fractional width the first [nextBits] draws its bits and throws. *)
Lemma nextBits_fractional (g : BlumBlumShub.t) (floor : Z) :
  BlumBlumShub.m g <> 0 ->
  BlumBlumShub.nextBits g (Fractional floor) = Throw RangeError.
Proof.
  intros Hm. unfold BlumBlumShub.nextBits.
  destruct (drawBits_ok (Z.to_nat (floor + 1)) 0 g Hm ltac:(lia)) as (r0 & g' & Hrun & _).
  rewrite Hrun. reflexivity.
Qed.

Lemma primeSearch_outcome (turns : nat) :
  forall tries seed bits,
    match bits with
    | Integer _ =>
        match BlumBlumShub.primeSearch turns tries seed bits with
        | Ok c => isPrimeMillerRabin c 16 = true /\ c mod 4 = 3
        | Throw ex => ex = PrimeGenerationFailed
        | OutOfFuel => False
        end
    | Fractional _ =>
        BlumBlumShub.primeSearch turns tries seed bits =
        match turns with
        | O => Throw PrimeGenerationFailed
        | S _ => Throw RangeError
        end
    end.
Proof.
  induction turns as [|turns IH]; intros tries seed [n|floor];
    cbn [BlumBlumShub.primeSearch]; try reflexivity.
  - unfold BlumBlumShub.new. change (499 * 547 =? 0) with false. cbn match. cbn [bindR].
    match goal with
    | |- context [BlumBlumShub.nextBits ?g (Integer n)] =>
        destruct (nextBits_total g n ltac:(cbn; lia)) as (r & g' & -> & _ & Hmod & Hr3)
    end.
    cbn [bindR].
    destruct (isPrimeMillerRabin r 16) eqn:Hmr; cbn [andb]; [|apply (IH _ _ (Integer n))].
    rewrite rem_nonneg by lia. rewrite Hmod. cbn [Z.eqb Pos.eqb]. auto.
  - unfold BlumBlumShub.new. change (499 * 547 =? 0) with false. cbn match. cbn [bindR].
    rewrite nextBits_fractional by (cbn; lia). reflexivity.
Qed.

(** What a successful search returned. *)
Lemma generatePrimes3Mod4_spec (seed : Z) (bits : number) (c : Z) :
  BlumBlumShub.generatePrimes3Mod4 seed bits = Ok c ->
  isPrimeMillerRabin c 16 = true /\ c mod 4 = 3.
Proof.
  unfold BlumBlumShub.generatePrimes3Mod4, BlumBlumShub.generatePrime3Mod4. intros H.
  pose proof (primeSearch_outcome (Z.to_nat 1000) 0 seed bits) as Ho.
  destruct bits as [n|floor]; rewrite H in Ho; [exact Ho|].
  destruct (Z.to_nat 1000); discriminate.
Qed.

(** A quotient that is not an integer stops the search at its first draw. *)
Lemma generatePrimes3Mod4_fraction (seed bits factor : Z) :
  Z.rem bits factor <> 0 ->
  BlumBlumShub.generatePrimes3Mod4 seed (divide bits factor) = Throw RangeError.
Proof.
  intros H. unfold divide. destruct (Z.eqb_spec (Z.rem bits factor) 0); [contradiction|].
  unfold BlumBlumShub.generatePrimes3Mod4, BlumBlumShub.generatePrime3Mod4.
  pose proof (primeSearch_outcome (Z.to_nat 1000) 0 seed (Fractional (bits / factor))) as Ho.
  cbv beta iota in Ho. rewrite Ho.
  destruct (Z.to_nat 1000) eqn:E; [|reflexivity]. discriminate.
Qed.

(** Extra X12.  [BlumBlumShub.generatePrime3Mod4] on an integer width either returns
    a number that passed the sixteen Miller-Rabin rounds and is congruent
    to 3 modulo 4, or throws its own "no prime found" error after
    [maxTries] candidates; on a width with a fractional part, such as the
    quotient 1023 / 8, its first [nextBits] throws a [RangeError], unless
    [maxTries] is zero.  Nothing else can happen. *)
Theorem generatePrime3Mod4_outcome (seed : Z) (bits : number) (maxTries : nat) :
  match bits with
  | Integer _ =>
      match BlumBlumShub.generatePrime3Mod4 seed bits maxTries with
      | Ok c => isPrimeMillerRabin c 16 = true /\ c mod 4 = 3
      | Throw ex => ex = PrimeGenerationFailed
      | OutOfFuel => False
      end
  | Fractional _ =>
      BlumBlumShub.generatePrime3Mod4 seed bits maxTries =
      match maxTries with
      | O => Throw PrimeGenerationFailed
      | S _ => Throw RangeError
      end
  end.
Proof. exact (primeSearch_outcome maxTries 0 seed bits). Qed.

(** ** The encoding primitives *)

Lemma I2OSP_loop_value (turns : nat) :
  forall value acc,
    bytesValue (I2OSP_loop turns value acc)
    = (value mod 256 ^ Z.of_nat turns) * 256 ^ Z.of_nat (length acc) + bytesValue acc.
Proof.
  induction turns as [|turns IH]; intros value acc; cbn [I2OSP_loop].
  - change (256 ^ Z.of_nat 0) with 1. rewrite Z.mod_1_r. lia.
  - rewrite IH, bytesValue_cons. cbn [length].
    rewrite Z.shiftr_div_pow2 by lia. change (2 ^ 8) with 256.
    change 255 with (Z.ones 8). rewrite Z.land_ones by lia. change (2 ^ 8) with 256.
    rewrite !Nat2Z.inj_succ, !Z.pow_succ_r by lia.
    assert (Hp : 0 < 256 ^ Z.of_nat turns) by (apply Z.pow_pos_nonneg; lia).
    rewrite (Z.rem_mul_r value 256 (256 ^ Z.of_nat turns)) by lia.
    ring.
Qed.

(** Extra X13.  [I2OSP] writes the [length] low-order bytes of the value, most
    significant first; higher bytes are dropped without an error. *)
Theorem I2OSP_big_endian (value length0 : Z) :
  0 <= length0 ->
  length (I2OSP value length0) = Z.to_nat length0 /\
  Forall isByte (I2OSP value length0) /\
  bytesValue (I2OSP value length0) = value mod 256 ^ length0.
Proof.
  intros Hlen. destruct (I2OSP_bytes value length0) as [Hb Hl].
  split; [exact Hl|]. split; [exact Hb|].
  unfold I2OSP. rewrite I2OSP_loop_value. cbn [length bytesValue fold_left].
  rewrite Z2Nat.id by lia. change (256 ^ Z.of_nat 0) with 1. lia.
Qed.

Lemma I2OSP_big_endian_witness :
  length (I2OSP 65537 2) = Z.to_nat 2 /\
  Forall isByte (I2OSP 65537 2) /\
  bytesValue (I2OSP 65537 2) = 65537 mod 256 ^ 2.
Proof. exact (I2OSP_big_endian 65537 2 ltac:(lia)). Defined.

Lemma MGF1_loop_app (t1 t2 : nat) :
  forall i seed T,
    MGF1_loop (t1 + t2) i seed = Ok T ->
    exists T1 T2, MGF1_loop t1 i seed = Ok T1 /\ T = T1 ++ T2.
Proof.
  induction t1 as [|t1 IH]; intros i seed T H.
  - exists [], T. auto.
  - cbn [Nat.add MGF1_loop] in *.
    destruct (hashToBuffer _) as [hash| |]; cbn [bindR] in *; try discriminate.
    destruct (MGF1_loop (t1 + t2) (i + 1) seed) as [T'| |] eqn:E; cbn [bindR] in H;
      try discriminate.
    injection H as <-.
    destruct (IH _ _ _ E) as (T1 & T2 & -> & ->). cbn [bindR].
    exists (hash ++ T1), T2. split; [reflexivity|apply app_assoc].
Qed.

Lemma ceil32 (x : Z) : 0 <= x -> x <= 32 * ((x + 31) / 32) /\ 0 <= (x + 31) / 32.
Proof.
  intros Hx. pose proof (Z.div_mod (x + 31) 32 ltac:(lia)).
  pose proof (Z.mod_pos_bound (x + 31) 32 ltac:(lia)).
  split; [lia|]. apply Z.div_pos; lia.
Qed.

(** Extra X14.  [MGF1] always returns exactly [maskLen] bytes, and a shorter mask
    from the same seed is a prefix of a longer one. *)
Theorem MGF1_masks (seed : Buffer) (a b : Z) :
  Forall isByte seed -> 0 <= a <= b ->
  exists maskA maskB,
    MGF1 seed a = Ok maskA /\ MGF1 seed b = Ok maskB /\
    length maskA = Z.to_nat a /\ length maskB = Z.to_nat b /\
    Forall isByte maskB /\ maskA = firstn (Z.to_nat a) maskB.
Proof.
  intros Hseed Hab.
  destruct (MGF1_spec seed a Hseed ltac:(lia)) as (maskA & HA & HAl & _).
  destruct (MGF1_spec seed b Hseed ltac:(lia)) as (maskB & HB & HBl & HBb).
  exists maskA, maskB. repeat (split; [assumption|]).
  unfold MGF1 in HA, HB.
  destruct (ceil32 a ltac:(lia)) as [Ha1 Ha2]. destruct (ceil32 b ltac:(lia)) as [Hb1 Hb2].
  assert (Hmono : (a + 31) / 32 <= (b + 31) / 32) by (apply Z.div_le_mono; lia).
  destruct (MGF1_loop (Z.to_nat ((b + 31) / 32)) 0 seed) as [TB| |] eqn:EB;
    cbn [bindR] in HB; try discriminate.
  injection HB as <-.
  replace (Z.to_nat ((b + 31) / 32))
    with (Z.to_nat ((a + 31) / 32) + (Z.to_nat ((b + 31) / 32) - Z.to_nat ((a + 31) / 32)))%nat
    in EB by lia.
  destruct (MGF1_loop_app _ _ _ _ _ EB) as (T1 & T2 & E1 & ->).
  rewrite E1 in HA. cbn [bindR] in HA. injection HA as <-.
  destruct (MGF1_loop_spec (Z.to_nat ((a + 31) / 32)) 0 seed Hseed) as (T & HT & HTl & _).
  rewrite E1 in HT. injection HT as <-.
  rewrite firstn_firstn, Nat.min_l by lia.
  rewrite firstn_app. replace (Z.to_nat a - length T1)%nat with 0%nat by lia.
  rewrite firstn_O, app_nil_r. reflexivity.
Qed.

Lemma MGF1_masks_witness :
  exists maskA maskB,
    MGF1 [1; 2; 3] 5 = Ok maskA /\ MGF1 [1; 2; 3] 40 = Ok maskB /\
    length maskA = Z.to_nat 5 /\ length maskB = Z.to_nat 40 /\
    Forall isByte maskB /\ maskA = firstn (Z.to_nat 5) maskB.
Proof.
  apply (MGF1_masks [1; 2; 3] 5 40).
  - repeat constructor; unfold isByte; lia.
  - lia.
Defined.

(** Extra X15.  [getSeedFromBBS] returns exactly [hLen] bytes from a generator with
    a non-zero modulus: every draw adds at least one byte, so the loop ends
    within [hLen] draws. *)
Theorem getSeedFromBBS_length (rng : GenerateCryptoRandomNumber.t) (hLen : Z) :
  BlumBlumShub.m (GenerateCryptoRandomNumber.prng rng) <> 0 -> 0 <= hLen ->
  exists seed, getSeedFromBBS rng hLen = Ok seed /\
               length seed = Z.to_nat hLen /\ Forall isByte seed.
Proof. exact (getSeedFromBBS_spec rng hLen). Qed.

Lemma getSeedFromBBS_length_witness :
  exists seed, getSeedFromBBS rng64a 32 = Ok seed /\
               length seed = Z.to_nat 32 /\ Forall isByte seed.
Proof.
  exact (getSeedFromBBS_length rng64a 32 ltac:(vm_compute; discriminate) ltac:(lia)).
Defined.

(** ** OAEP and PSS blocks *)

(** Extra X16.  [OAEPDecode] undoes [OAEPEncode] up to UTF-8: for a message string,
    every label whose code units are at most 255 and every [k] the UTF-8
    bytes of the message fit, decoding the block returns the message as
    [toString("utf8")] reads its bytes, which is the message itself when no
    surrogate in it lacks its partner. *)
Theorem OAEPDecode_OAEPEncode (message label : jsstring) (k : Z) (w w1 : world)
    (rng : GenerateCryptoRandomNumber.t) :
  Forall isCodeUnit message ->
  Forall (fun c => 0 <= c <= 255) label ->
  Z.of_nat (length (Buffer_from_utf8 message)) <= k - 2 * 32 - 2 ->
  GenerateCryptoRandomNumber.initPRNG 64 w = Ok (rng, w1) ->
  exists EM,
    OAEPEncode (Buffer_from_utf8 message) label k w = Ok (EM, w1) /\
    Forall isByte EM /\
    OAEPDecode EM label = Ok (Buffer_toString_utf8 (Buffer_from_utf8 message)) /\
    (isWellFormed message = true -> OAEPDecode EM label = Ok message).
Proof.
  intros HM Hlabel Hfit Hrng.
  pose proof (Buffer_from_utf8_bytes message HM) as Hbytes.
  destruct (OAEPEncode_run (Buffer_from_utf8 message) label k w w1 rng Hbytes Hlabel
              ltac:(lia) Hrng) as (rest & Hrun & _ & Hb & Hdec).
  exists (0 :: rest). split; [exact Hrun|]. split.
  { constructor; [unfold isByte; lia|exact Hb]. }
  split; [exact Hdec|].
  intros Hwf. rewrite Hdec. rewrite (utf8_round_trip message HM Hwf). reflexivity.
Qed.

Lemma OAEPDecode_OAEPEncode_witness :
  exists EM,
    OAEPEncode (Buffer_from_utf8 [104; 233; 55357; 56832]) [108; 97; 98] 100 (world64 0)
      = Ok (EM, world64 3) /\
    Forall isByte EM /\
    OAEPDecode EM [108; 97; 98]
      = Ok (Buffer_toString_utf8 (Buffer_from_utf8 [104; 233; 55357; 56832])) /\
    (isWellFormed [104; 233; 55357; 56832] = true ->
     OAEPDecode EM [108; 97; 98] = Ok [104; 233; 55357; 56832]).
Proof.
  apply (OAEPDecode_OAEPEncode [104; 233; 55357; 56832] [108; 97; 98] 100
           (world64 0) (world64 3) rng64a).
  - repeat constructor; unfold isCodeUnit; lia.
  - repeat constructor; lia.
  - vm_compute. discriminate.
  - exact initPRNG_run64a.
Defined.

(** Extra X17.  The block [emsaPSSencode] builds from a digest has [emLen] bytes,
    spells an integer below [2 ^ emBits], and is accepted by
    [emsaPSSverify] for the same digest and [emBits]. *)
Theorem emsaPSSverify_emsaPSSencode (hashHex : jsstring) (emLen emBits : Z) (w w1 : world)
    (rngq : GenerateCryptoRandomNumber.t) :
  length hashHex = 64%nat -> forallb isHexDigit hashHex = true ->
  66 <= emLen -> 0 <= 8 * emLen - emBits <= 7 ->
  GenerateCryptoRandomNumber.initPRNG (32 * 8) w = Ok (rngq, w1) ->
  exists EM,
    emsaPSSencode (Some hashHex) emLen emBits w = Ok (EM, w1) /\
    Z.of_nat (length EM) = emLen /\ Forall isByte EM /\
    bytesValue EM < 2 ^ emBits /\
    emsaPSSverify (Some hashHex) EM emBits = Ok true.
Proof. exact (emsaPSS_round_trip hashHex emLen emBits w w1 rngq). Qed.

Lemma emsaPSSverify_emsaPSSencode_witness :
  exists EM,
    emsaPSSencode (Some (repeat 48 64)) 70 555 (world256 0) = Ok (EM, world256 3) /\
    Z.of_nat (length EM) = 70 /\ Forall isByte EM /\
    bytesValue EM < 2 ^ 555 /\
    emsaPSSverify (Some (repeat 48 64)) EM 555 = Ok true.
Proof.
  apply (emsaPSSverify_emsaPSSencode (repeat 48 64) 70 555 (world256 0) (world256 3) rng256).
  - reflexivity.
  - reflexivity.
  - lia.
  - lia.
  - exact initPRNG_run256.
Defined.

(** Extra X18.  When [bitLength n - 1] is not a multiple of 8, [verifyPSS] returns
    a boolean for every non-negative signature and every message: the
    length test before the [try] cannot fail. *)
Theorem verifyPSS_total (signature : Z) (publicKey : PublicKey) (message : jsstring) :
  0 <= signature -> 1 < pub_n publicKey ->
  (bitLength (pub_n publicKey) - 1) mod 8 <> 0 ->
  exists b, verifyPSS signature publicKey message = Ok b.
Proof.
  intros Hs Hn Hmod.
  pose proof (verifyPSS_outcome signature publicKey message Hs ltac:(lia)) as Hout.
  cbv zeta in Hout. rewrite (verifyPSS_fits signature publicKey Hs Hn Hmod) in Hout.
  exact Hout.
Qed.

Lemma verifyPSS_total_witness :
  exists b, verifyPSS 12345 (publicOf key16) [104; 105] = Ok b.
Proof.
  exact (verifyPSS_total 12345 (publicOf key16) [104; 105]
           ltac:(lia) ltac:(cbn; lia) ltac:(vm_compute; discriminate)).
Defined.

(** ** The key codec on whole objects *)

(** Extra X19.  [decodeKeyBase64] restores every object of non-negative BigInts that
    [stringifyWithBigInt] wrote, the two key objects of [generateKeys]
    among them. *)
Theorem decodeKeyBase64_stringifyWithBigInt (fields : list (jsstring * Z)) :
  Forall (fun kv => 0 <= snd kv) fields ->
  decodeKeyBase64 (stringifyWithBigInt (bigintObject fields)) = bigintObject fields.
Proof. exact (decodeKeyBase64_tagged fields). Qed.

Lemma decodeKeyBase64_stringifyWithBigInt_witness :
  decodeKeyBase64 (stringifyWithBigInt (privateKeyObject key16)) = privateKeyObject key16.
Proof.
  apply decodeKeyBase64_stringifyWithBigInt.
  repeat constructor; cbn; lia.
Defined.

(** Extra X20.  [parseWithBigInt] restores such an object from both renderings, the
    tagged one and the one with bare decimal digits. *)
Theorem parseWithBigInt_both_forms (fields : list (jsstring * Z)) :
  Forall (fun kv => 0 <= snd kv) fields ->
  parseWithBigInt (stringifyWithBigInt (bigintObject fields)) = bigintObject fields /\
  parseWithBigInt (stringifyPlain (bigintObject fields)) = bigintObject fields.
Proof.
  intros H. split; [exact (parseWithBigInt_tagged fields H)|exact (parseWithBigInt_plain fields H)].
Qed.

Lemma parseWithBigInt_both_forms_witness :
  parseWithBigInt (stringifyWithBigInt (privateKeyObject key16)) = privateKeyObject key16 /\
  parseWithBigInt (stringifyPlain (privateKeyObject key16)) = privateKeyObject key16.
Proof.
  apply parseWithBigInt_both_forms.
  repeat constructor; cbn; lia.
Defined.

(** Extra X21.  A negative BigInt does not survive the codec: its rendering starts
    with a minus sign, which neither reviver's pattern admits, so both
    decoders hand the string back. *)
Theorem negative_BigInt_stays_string (v : Z) :
  v < 0 ->
  decodeKeyBase64 (stringifyWithBigInt (JBigInt v)) = JString (toStringRadix 10 v ++ [110]) /\
  parseWithBigInt (stringifyWithBigInt (JBigInt v)) = JString (toStringRadix 10 v ++ [110]).
Proof.
  intros Hv. unfold decodeKeyBase64, parseWithBigInt.
  cbn [stringifyWithBigInt revive reviverTagged reviverBoth].
  assert (Hs : exists rest, toStringRadix 10 v = 45 :: rest).
  { unfold toStringRadix. destruct (Z.eqb_spec v 0); [lia|].
    destruct (Z.ltb_spec v 0); [|lia]. eauto. }
  destruct Hs as (rest & ->).
  assert (HN : matchesDigitsN ((45 :: rest) ++ [110]) = false).
  { unfold matchesDigitsN. rewrite removelast_last, rev_app_distr. reflexivity. }
  assert (HD : matchesDigits ((45 :: rest) ++ [110]) = false).
  { unfold matchesDigits. cbn [app forallb]. change (isDigit 45) with false.
    cbn [andb]. apply andb_false_r. }
  rewrite HN, HD. auto.
Qed.

Lemma negative_BigInt_stays_string_witness :
  decodeKeyBase64 (stringifyWithBigInt (JBigInt (-5))) = JString (toStringRadix 10 (-5) ++ [110]) /\
  parseWithBigInt (stringifyWithBigInt (JBigInt (-5))) = JString (toStringRadix 10 (-5) ++ [110]).
Proof. exact (negative_BigInt_stays_string (-5) ltac:(lia)). Defined.

(** ** Textbook encryption and the private operations on any ciphertext *)

Lemma skipZeros_repeat (k : nat) (rest : Buffer) :
  skipZeros (repeat 0 k ++ rest) = skipZeros rest.
Proof. induction k as [|k IH]; [reflexivity|exact IH]. Qed.

Lemma skipZeros_nonzero (x : Z) (rest : Buffer) : x <> 0 -> skipZeros (x :: rest) = x :: rest.
Proof. intros Hx. destruct x; [contradiction|reflexivity|reflexivity]. Qed.

(** The bytes of an integer are the bytes it was read from without their
    leading zeros: the integer forgets them. *)
Lemma bigintToBuffer_strips (EM : Buffer) :
  Forall isByte EM -> EM <> [] ->
  bigintToBuffer (bytesValue EM)
  = match skipZeros EM with [] => [0] | l => l end.
Proof.
  intros Hb Hne.
  destruct (buffer_roundtrip EM Hb Hne) as [_ Hpad].
  pose proof (bytesValue_range EM Hb) as Hrange.
  destruct (bigintToBuffer_spec (bytesValue EM) ltac:(lia)) as (Hmb & Hval & Hlen & Hbig).
  set (mB := bigintToBuffer (bytesValue EM)) in *.
  rewrite <- Hpad at 1. rewrite skipZeros_repeat.
  destruct (Z.eq_dec (bytesValue EM) 0) as [Hz|Hnz].
  - assert (E : mB = [0]) by (unfold mB; rewrite Hz; reflexivity).
    rewrite E. reflexivity.
  - destruct mB as [|x t] eqn:EmB; [cbn in Hlen; lia|].
    assert (Hx : x <> 0).
    { intros ->. inversion Hmb as [|? ? _ Ht]; subst.
      pose proof (bytesValue_range t Ht) as Hr.
      rewrite bytesValue_cons in Hval.
      specialize (Hbig ltac:(lia)). cbn [length] in Hbig.
      replace (Z.of_nat (S (length t)) - 1) with (Z.of_nat (length t)) in Hbig by lia.
      lia. }
    rewrite skipZeros_nonzero by exact Hx. reflexivity.
Qed.

Section Textbook.

Variable key : PrivateKey.
Hypothesis key_valid : validKey key.

Lemma decryptCRT_power (c : Z) :
  0 <= c -> decryptCRT c key = Ok (c ^ d key mod n key).
Proof.
  intros Hc. unfold decryptCRT.
  pose proof (crt_power_p key key_valid c 0 Hc ltac:(lia)) as Hp.
  pose proof (crt_power_q key key_valid c 0 Hc ltac:(lia)) as Hq.
  rewrite Z.mul_0_l, Z.add_0_r in Hp, Hq. rewrite Hp, Hq. cbn [bindR].
  rewrite crtCombine_spec by auto. reflexivity.
Qed.

Lemma blindingFactor16_run (w w1 : world) (rng : GenerateCryptoRandomNumber.t) :
  GenerateCryptoRandomNumber.initPRNG 64 w = Ok (rng, w1) ->
  exists r, blindingFactor16 w = Ok (r, w1) /\ 1 <= r.
Proof.
  intros Hrng. destruct (initPRNG_modulus 64 w w1 rng Hrng) as [Hm _].
  destruct (nextNumber_ok rng Hm) as (v & rng' & Hv & Hv3 & _).
  unfold blindingFactor16.
  rewrite (bind_run _ _ _ _ _ Hrng), (bind_lift_run _ _ _ _ Hv). cbn [fst].
  assert (0 <= Z.land v 65535) by (apply Z.land_nonneg; lia).
  unfold ret. destruct (Z.eqb_spec (Z.land v 65535) 0); eexists; split; try reflexivity; lia.
Qed.

Lemma decryptBlindingCRT_power (c : Z) (w w1 w2 : world)
    (rngp rngq : GenerateCryptoRandomNumber.t) :
  0 <= c ->
  GenerateCryptoRandomNumber.initPRNG 64 w = Ok (rngp, w1) ->
  GenerateCryptoRandomNumber.initPRNG 64 w1 = Ok (rngq, w2) ->
  decryptBlindingCRT c key w = Ok (c ^ d key mod n key, w2).
Proof.
  intros Hc Hrp Hrq. unfold decryptBlindingCRT.
  destruct (blindingFactor16_run w w1 rngp Hrp) as (rp & Hbp & Hrp1).
  destruct (blindingFactor16_run w1 w2 rngq Hrq) as (rq & Hbq & Hrq1).
  rewrite (bind_run _ _ _ _ _ Hbp), (bind_run _ _ _ _ _ Hbq).
  rewrite (crt_power_p key key_valid c rp Hc ltac:(lia)).
  rewrite (crt_power_q key key_valid c rq Hc ltac:(lia)).
  cbn [lift bind]. rewrite crtCombine_spec by auto. reflexivity.
Qed.

Lemma encrypt_run (mBuf : Buffer) :
  Forall isByte mBuf -> mBuf <> [] -> bytesValue mBuf < n key ->
  exists c, encrypt mBuf (publicOf key) = Ok c /\ 0 <= c < n key /\
            c ^ d key mod n key = bytesValue mBuf.
Proof.
  intros Hb Hne Hlt. pose proof (bytesValue_range mBuf Hb) as Hr.
  destruct (public_private key key_valid (bytesValue mBuf) ltac:(lia)) as (c & Hc & Hcr & Hinv).
  exists c. split; [|auto]. unfold encrypt. cbn [publicOf pub_n pub_e].
  rewrite (BigInt_of_buffer mBuf Hb Hne). cbn [bindR].
  destruct (Z.leb_spec (n key) (bytesValue mBuf)); [lia|]. exact Hc.
Qed.

End Textbook.

(** Extra X22.  Textbook RSA gives the message back without its leading zero bytes.
    For a valid key and a non-empty message whose integer is below the
    modulus, [encrypt] returns a ciphertext from which [decrypt] and
    [decryptCRT] compute the same integer, and the bytes of that integer
    are the message with its leading zero bytes removed (a single zero
    byte when nothing else is left). *)
Theorem encrypt_decrypt_strips_zeros (key : PrivateKey) (mBuf : Buffer) :
  validKey key ->
  Forall isByte mBuf -> mBuf <> [] -> bytesValue mBuf < n key ->
  exists c m,
    encrypt mBuf (publicOf key) = Ok c /\
    decrypt c key = Ok m /\ decryptCRT c key = Ok m /\
    decryptedBytes m = match skipZeros mBuf with [] => [0] | l => l end.
Proof.
  intros Hkey Hb Hne Hlt.
  destruct (encrypt_run key Hkey mBuf Hb Hne Hlt) as (c & Henc & Hc & Hpow).
  exists c, (bytesValue mBuf). split; [exact Henc|].
  split; [unfold decrypt; rewrite private_power by (auto; lia); congruence|].
  split; [rewrite decryptCRT_power by (auto; lia); congruence|].
  unfold decryptedBytes. apply bigintToBuffer_strips; assumption.
Qed.

Lemma encrypt_decrypt_strips_zeros_witness :
  exists c m,
    encrypt [0; 104; 105] (publicOf exampleKey) = Ok c /\
    decrypt c exampleKey = Ok m /\ decryptCRT c exampleKey = Ok m /\
    decryptedBytes m = match skipZeros [0; 104; 105] with [] => [0] | l => l end.
Proof.
  apply (encrypt_decrypt_strips_zeros exampleKey [0; 104; 105]).
  - exact exampleKey_valid.
  - repeat constructor; unfold isByte; lia.
  - discriminate.
  - vm_compute. reflexivity.
Defined.

(** Extra X23.  On every non-negative ciphertext, valid or not, the four textbook
    private operations compute the same integer [c ^ d mod n]. *)
Theorem private_operations_agree (key : PrivateKey) (c : Z) (w w1 w2 : world)
    (rngp rngq : GenerateCryptoRandomNumber.t) :
  validKey key -> 0 <= c ->
  GenerateCryptoRandomNumber.initPRNG 64 w = Ok (rngp, w1) ->
  GenerateCryptoRandomNumber.initPRNG 64 w1 = Ok (rngq, w2) ->
  decrypt c key = Ok (c ^ d key mod n key) /\
  decryptCRT c key = Ok (c ^ d key mod n key) /\
  decryptBlinding c key w = Ok (c ^ d key mod n key, w1) /\
  decryptBlindingCRT c key w = Ok (c ^ d key mod n key, w2).
Proof.
  intros Hkey Hc Hrp Hrq.
  split; [unfold decrypt; apply private_power; auto|].
  split; [apply decryptCRT_power; auto|].
  split; [exact (blindedPower_run key Hkey c w w1 rngp Hc Hrp)|].
  exact (decryptBlindingCRT_power key Hkey c w w1 w2 rngp rngq Hc Hrp Hrq).
Qed.

Lemma private_operations_agree_witness :
  decrypt 42 exampleKey = Ok (42 ^ d exampleKey mod n exampleKey) /\
  decryptCRT 42 exampleKey = Ok (42 ^ d exampleKey mod n exampleKey) /\
  decryptBlinding 42 exampleKey (world64 0) = Ok (42 ^ d exampleKey mod n exampleKey, world64 3) /\
  decryptBlindingCRT 42 exampleKey (world64 0)
    = Ok (42 ^ d exampleKey mod n exampleKey, world64 6).
Proof.
  exact (private_operations_agree exampleKey 42 (world64 0) (world64 3) (world64 6)
           rng64a rng64b exampleKey_valid ltac:(lia) initPRNG_run64a initPRNG_run64b).
Defined.

(** Extra X24.  On every non-negative ciphertext, whether or not it decodes, the
    four OAEP decryptions give the same outcome: the same text, or the
    same exception. *)
Theorem decryptOAEP_variants_agree (key : PrivateKey) (c : Z) (w w1 w2 : world)
    (rngp rngq : GenerateCryptoRandomNumber.t) :
  validKey key -> 0 <= c ->
  GenerateCryptoRandomNumber.initPRNG 64 w = Ok (rngp, w1) ->
  GenerateCryptoRandomNumber.initPRNG 64 w1 = Ok (rngq, w2) ->
  decryptOAEPCRT c key = decryptOAEP c key /\
  decryptOAEPBlinding c key w = lift (decryptOAEP c key) w1 /\
  decryptOAEPBlindingCRT c key w = lift (decryptOAEP c key) w2.
Proof.
  intros Hkey Hc Hrp Hrq.
  assert (Hplain : decryptOAEP c key = decodeInteger (c ^ d key mod n key) key).
  { unfold decryptOAEP. rewrite private_power by auto. reflexivity. }
  split; [|split].
  - rewrite Hplain. unfold decryptOAEPCRT.
    pose proof (crt_power_p key Hkey c 0 Hc ltac:(lia)) as Hp.
    pose proof (crt_power_q key Hkey c 0 Hc ltac:(lia)) as Hq.
    rewrite Z.mul_0_l, Z.add_0_r in Hp, Hq. rewrite Hp, Hq. cbn [bindR].
    rewrite crtCombine_spec by auto. reflexivity.
  - rewrite Hplain. unfold decryptOAEPBlinding.
    rewrite (bind_run _ _ _ _ _ (blindedPower_run key Hkey c w w1 rngp Hc Hrp)).
    reflexivity.
  - rewrite Hplain. unfold decryptOAEPBlindingCRT.
    destruct (blindingFactor_run w w1 rngp Hrp) as (rp & Hbp & Hrp3).
    destruct (blindingFactor_run w1 w2 rngq Hrq) as (rq & Hbq & Hrq3).
    rewrite (bind_run _ _ _ _ _ Hbp), (bind_run _ _ _ _ _ Hbq).
    rewrite (crt_power_p key Hkey c rp Hc ltac:(lia)).
    rewrite (crt_power_q key Hkey c rq Hc ltac:(lia)).
    cbn [lift bind]. rewrite crtCombine_spec by auto. reflexivity.
Qed.

Lemma decryptOAEP_variants_agree_witness :
  decryptOAEPCRT 42 exampleKey = decryptOAEP 42 exampleKey /\
  decryptOAEPBlinding 42 exampleKey (world64 0) = lift (decryptOAEP 42 exampleKey) (world64 3) /\
  decryptOAEPBlindingCRT 42 exampleKey (world64 0)
    = lift (decryptOAEP 42 exampleKey) (world64 6).
Proof.
  exact (decryptOAEP_variants_agree exampleKey 42 (world64 0) (world64 3) (world64 6)
           rng64a rng64b exampleKey_valid ltac:(lia) initPRNG_run64a initPRNG_run64b).
Defined.

(** Extra X25.  The byte length [k] that [encryptOAEP] and the decryptions compute
    from the bits of the modulus is the length of the modulus in bytes. *)
Theorem modulus_byte_length (n : Z) :
  0 < n ->
  let k := ceilDiv8 (bitLength n) in
  256 ^ (k - 1) <= n < 256 ^ k.
Proof.
  intros Hn k. pose proof (bitLength_bounds n Hn) as [Hlo Hhi].
  pose proof (bitLength_pos n Hn) as HL. pose proof (Z.log2_nonneg n).
  pose proof (ceilDiv8_bounds (bitLength n)) as Hk. fold k in Hk.
  assert (1 <= k) by lia.
  rewrite !pow256 by lia. split.
  - apply Z.le_trans with (2 ^ (bitLength n - 1)); [|exact Hlo].
    apply Z.pow_le_mono_r; lia.
  - apply Z.lt_le_trans with (2 ^ bitLength n); [exact Hhi|].
    apply Z.pow_le_mono_r; lia.
Qed.

Lemma modulus_byte_length_witness :
  256 ^ (ceilDiv8 (bitLength 94417) - 1) <= 94417 < 256 ^ ceilDiv8 (bitLength 94417).
Proof. exact (modulus_byte_length 94417 ltac:(lia)). Defined.

(** ** Seeds, generators and the width of the candidates *)

Lemma parseHex_digits (s : jsstring) :
  Forall (isDigitOf 16) s ->
  forall acc, 0 <= acc -> exists v, parseHex_loop s acc = Some v /\ 0 <= v.
Proof.
  induction 1 as [|c s (dg & Hd & ->) Hs IH]; intros acc Hacc; cbn [parseHex_loop].
  - eauto.
  - rewrite hexValue_digitChar by exact Hd. apply IH. lia.
Qed.

(** The hexadecimal reading of decimal digits always succeeds. *)
Lemma freshSeed_run (bytes : Z) (w : world) :
  0 <= bytes ->
  exists seed, freshSeed bytes w = Ok (seed, mkWorld (oracle w) (S (calls w))) /\ 0 <= seed.
Proof.
  intros Hbytes. unfold freshSeed, generateSecureSeedNode, bind.
  set (v := oracle w (calls w) mod 256 ^ bytes).
  assert (Hv : 0 <= v).
  { unfold v. apply Z.mod_pos_bound. apply Z.pow_pos_nonneg; lia. }
  destruct (toStringRadix_nonneg 10 v ltac:(lia) Hv) as (Hne & Hdig & _).
  assert (Hhex : Forall (isDigitOf 16) (toStringRadix 10 v)).
  { eapply Forall_impl; [|exact Hdig]. intros c (dg & Hd & ->). exists dg. split; [lia|reflexivity]. }
  destruct (parseHex_digits _ Hhex 0 ltac:(lia)) as (seed & Hp & Hs).
  exists seed. split; [|exact Hs].
  unfold lift, BigInt_0x. destruct (toStringRadix 10 v); [contradiction|].
  rewrite Hp. reflexivity.
Qed.

(** Extra X26.  [generateKeys(bits)] throws a [RangeError] whenever [bits] is not a
    multiple of 8, whatever the entropy: the Blum primes of [RSA.initPRNG]
    are asked for [bits / 8] bits, and [nextBits] cannot turn a fraction
    into a BigInt. *)
Theorem generateKeys_needs_multiple_of_8 (fuel : nat) (bits : Z) (w : world) :
  Z.rem bits 8 <> 0 -> generateKeys fuel bits w = Throw RangeError.
Proof.
  intros Hbits.
  assert (Hinit : initPRNG bits w = Throw RangeError).
  { unfold initPRNG. destruct (freshSeed_run 59 w ltac:(lia)) as (seed & Hseed & _).
    rewrite (bind_run _ _ _ _ _ Hseed).
    rewrite (generatePrimes3Mod4_fraction seed bits 8 Hbits). reflexivity. }
  unfold generateKeys, bind at 1. rewrite Hinit. reflexivity.
Qed.

Lemma generateKeys_needs_multiple_of_8_witness :
  generateKeys 3 1023 world16 = Throw RangeError.
Proof.
  exact (generateKeys_needs_multiple_of_8 3 1023 world16 ltac:(vm_compute; discriminate)).
Defined.

(** Extra X27.  Likewise, [GenerateCryptoRandomNumber.initPRNG(bits)] throws a
    [RangeError] for every odd [bits]. *)
Theorem initPRNG_needs_even_bits (bits : Z) (w : world) :
  Z.rem bits 2 <> 0 -> GenerateCryptoRandomNumber.initPRNG bits w = Throw RangeError.
Proof.
  intros Hbits. unfold GenerateCryptoRandomNumber.initPRNG.
  destruct (freshSeed_run 59 w ltac:(lia)) as (seed & Hseed & _).
  rewrite (bind_run _ _ _ _ _ Hseed).
  rewrite (generatePrimes3Mod4_fraction seed bits 2 Hbits). reflexivity.
Qed.

Lemma initPRNG_needs_even_bits_witness :
  GenerateCryptoRandomNumber.initPRNG 63 (world64 0) = Throw RangeError.
Proof.
  exact (initPRNG_needs_even_bits 63 (world64 0) ltac:(vm_compute; discriminate)).
Defined.

(** Extra X28.  The generator [GenerateCryptoRandomNumber.initPRNG] builds has a
    modulus that is the product of two numbers which passed Miller-Rabin
    and are congruent to 3 modulo 4, and a state strictly between 0 and
    that modulus. *)
Theorem initPRNG_blum_modulus (bits : Z) (w w' : world) (rng : GenerateCryptoRandomNumber.t) :
  GenerateCryptoRandomNumber.initPRNG bits w = Ok (rng, w') ->
  let g := GenerateCryptoRandomNumber.prng rng in
  BlumBlumShub.m g = BlumBlumShub.p g * BlumBlumShub.q g /\
  isPrimeMillerRabin (BlumBlumShub.p g) 16 = true /\ BlumBlumShub.p g mod 4 = 3 /\
  isPrimeMillerRabin (BlumBlumShub.q g) 16 = true /\ BlumBlumShub.q g mod 4 = 3 /\
  0 < BlumBlumShub.state g < BlumBlumShub.m g.
Proof.
  unfold GenerateCryptoRandomNumber.initPRNG. intros H.
  destruct (freshSeed_run 59 w ltac:(lia)) as (s1 & Hs1 & _).
  rewrite (bind_run _ _ _ _ _ Hs1) in H.
  apply bind_Ok in H. destruct H as (p0 & w1 & Hp & H). apply lift_Ok in Hp. destruct Hp as [Hp ->].
  destruct (freshSeed_run 47 (mkWorld (oracle w) (S (calls w))) ltac:(lia)) as (s2 & Hs2 & _).
  rewrite (bind_run _ _ _ _ _ Hs2) in H.
  apply bind_Ok in H. destruct H as (q0 & w2 & Hq & H). apply lift_Ok in Hq. destruct Hq as [Hq ->].
  match type of H with
  | bind (freshSeed 31) _ ?w3 = _ => destruct (freshSeed_run 31 w3 ltac:(lia)) as (s3 & Hs3 & Hs3pos)
  end.
  rewrite (bind_run _ _ _ _ _ Hs3) in H.
  apply bind_Ok in H. destruct H as (g0 & w4 & Hg & H). apply lift_Ok in Hg. destruct Hg as [Hg ->].
  unfold ret in H. injection H as <- _. cbn [GenerateCryptoRandomNumber.prng].
  apply generatePrimes3Mod4_spec in Hp. apply generatePrimes3Mod4_spec in Hq.
  destruct Hp as [Hp1 Hp2]. destruct Hq as [Hq1 Hq2].
  pose proof (isPrimeMillerRabin_ge_2 _ _ Hp1). pose proof (isPrimeMillerRabin_ge_2 _ _ Hq1).
  unfold BlumBlumShub.new in Hg. destruct (Z.eqb_spec (p0 * q0) 0); [discriminate|].
  injection Hg as <-. cbn.
  split; [reflexivity|]. split; [exact Hp1|]. split; [exact Hp2|].
  split; [exact Hq1|]. split; [exact Hq2|].
  pose proof (rem_range s3 (p0 * q0) Hs3pos ltac:(nia)) as Hr.
  destruct (Z.eqb_spec (Z.rem s3 (p0 * q0)) 0); nia.
Qed.

Lemma initPRNG_blum_modulus_witness :
  let g := GenerateCryptoRandomNumber.prng rng64a in
  BlumBlumShub.m g = BlumBlumShub.p g * BlumBlumShub.q g /\
  isPrimeMillerRabin (BlumBlumShub.p g) 16 = true /\ BlumBlumShub.p g mod 4 = 3 /\
  isPrimeMillerRabin (BlumBlumShub.q g) 16 = true /\ BlumBlumShub.q g mod 4 = 3 /\
  0 < BlumBlumShub.state g < BlumBlumShub.m g.
Proof. exact (initPRNG_blum_modulus 64 (world64 0) (world64 3) rng64a initPRNG_run64a). Defined.

Lemma findPrimeRSA_loop_outcome (turns : nat) (format2pAdd1 : bool) :
  forall bits prng,
    BlumBlumShub.m prng <> 0 ->
    match findPrimeRSA_loop turns format2pAdd1 bits prng with
    | Ok (v, prng') =>
        isPrimeMillerRabin v 16 = true /\ BlumBlumShub.m prng' = BlumBlumShub.m prng /\
        exists c, c mod 4 = 3 /\ v = if format2pAdd1 then 2 * c + 1 else c
    | Throw ex => ex = RSAPrimeNotFound
    | OutOfFuel => False
    end.
Proof.
  induction turns as [|turns IH]; intros bits prng Hm; cbn [findPrimeRSA_loop]; [reflexivity|].
  destruct (nextBits_total prng bits Hm) as (r & g' & -> & Hm' & Hmod & _). cbn [bindR].
  specialize (IH bits g' ltac:(congruence)).
  destruct format2pAdd1.
  - destruct (isPrimeMillerRabin (2 * r + 1) 16) eqn:Hmr.
    + split; [exact Hmr|]. split; [exact Hm'|]. exists r. auto.
    + destruct (findPrimeRSA_loop turns true bits g') as [[v p']| |]; auto.
      destruct IH as (H1 & H2 & H3). split; [exact H1|]. split; [congruence|exact H3].
  - destruct (isPrimeMillerRabin r 16) eqn:Hmr.
    + split; [exact Hmr|]. split; [exact Hm'|]. exists r. auto.
    + destruct (findPrimeRSA_loop turns false bits g') as [[v p']| |]; auto.
      destruct IH as (H1 & H2 & H3). split; [exact H1|]. split; [congruence|exact H3].
Qed.

(** Extra X29.  On a generator with a non-zero modulus [findPrimeRSA] either
    returns a number that passed the sixteen Miller-Rabin rounds, of the
    form [c] or [2 c + 1] (as [format2pAdd1] asks) for a draw [c] congruent
    to 3 modulo 4, or throws its own error after [maxTries] draws. *)
Theorem findPrimeRSA_outcome (format2pAdd1 : bool) (maxTries : nat) (bits : Z)
    (prng : BlumBlumShub.t) :
  BlumBlumShub.m prng <> 0 ->
  match findPrimeRSA format2pAdd1 maxTries bits prng with
  | Ok (v, prng') =>
      isPrimeMillerRabin v 16 = true /\ BlumBlumShub.m prng' = BlumBlumShub.m prng /\
      exists c, c mod 4 = 3 /\ v = if format2pAdd1 then 2 * c + 1 else c
  | Throw ex => ex = RSAPrimeNotFound
  | OutOfFuel => False
  end.
Proof. exact (findPrimeRSA_loop_outcome maxTries format2pAdd1 bits prng). Qed.

Lemma findPrimeRSA_outcome_witness :
  match findPrimeRSA true 50 8 bbs8 with
  | Ok (v, prng') =>
      isPrimeMillerRabin v 16 = true /\ BlumBlumShub.m prng' = BlumBlumShub.m bbs8 /\
      exists c, c mod 4 = 3 /\ v = if true then 2 * c + 1 else c
  | Throw ex => ex = RSAPrimeNotFound
  | OutOfFuel => False
  end.
Proof. exact (findPrimeRSA_outcome true 50 8 bbs8 ltac:(vm_compute; discriminate)). Defined.

(** ** Number formats *)

Lemma parseHex_valueOf (s : jsstring) :
  Forall (isDigitOf 16) s ->
  forall acc, parseHex_loop s acc = Some (acc * 16 ^ Z.of_nat (length s) + valueOf 16 s).
Proof.
  induction 1 as [|c s (dg & Hd & ->) Hs IH]; intros acc; cbn [parseHex_loop].
  - cbn. f_equal. lia.
  - rewrite hexValue_digitChar by exact Hd. rewrite IH, valueOf_cons.
    rewrite undigit_digitChar by exact Hd.
    cbn [length]. rewrite Nat2Z.inj_succ, Z.pow_succ_r by lia. f_equal. ring.
Qed.

(** Extra X30.  In the "hex" format [parse] reads back what [formatBigInt] wrote for
    every non-negative number, and throws a [SyntaxError] on what it wrote
    for a negative one. *)
Theorem parse_formatBigInt_hex (v : Z) :
  parse_hex (formatBigInt_hex v) = if v <? 0 then Throw SyntaxError else Ok v.
Proof.
  unfold parse_hex, formatBigInt_hex. cbn [app startsWith Z.eqb Pos.eqb andb orb skipn].
  replace (startsWith (toStringRadix 16 v) []) with true
    by (destruct (toStringRadix 16 v); reflexivity).
  cbn [orb].
  destruct (Z.ltb_spec v 0) as [Hneg|Hpos].
  - unfold toStringRadix. destruct (Z.eqb_spec v 0); [lia|].
    destruct (Z.ltb_spec v 0); [|lia]. reflexivity.
  - destruct (toStringRadix_nonneg 16 v ltac:(lia) Hpos) as (Hne & Hdig & Hval).
    unfold BigInt_0x. rewrite (parseHex_valueOf _ Hdig), Hval.
    destruct (toStringRadix 16 v); [contradiction|]. f_equal; lia.
Qed.
